(** * embsuivi.gui: weighted statistics and advanced parameters

    A shallow embedding of [src/embsuivi/gui/helpers.py] (and of the
    configuration tuple of [src/embsuivi/gui/app.py]).

    Conventions of the embedding:
    - a one-dimensional NumPy array is a [list];
    - [weighted_median] and the array functions it calls are embedded over
      exact rationals [Q] ([Np], [weighted_median]), where no sum is
      rounded, and over any item type ([Typed]): [Dtype.float64] is NumPy's
      float64, whose every addition rounds, and [Dtype.exact] gives back the
      functions over [Q] ([weighted_median_exact]). The statements over [Q]
      are about arrays of exact numbers; what is said of float64 arrays is
      stated over [Typed];
    - a Python call that may raise returns an [outcome]: [Ret v] for a
      returned value, [Raise e] for a raised exception;
    - NumPy's [argsort] is a parameter of [weighted_median]: the source calls
      it with the default sort kind, whose documented contract only says that
      the returned indices put the array in ascending order. *)

From Stdlib Require Import PrimFloat SpecFloat FloatOps FloatAxioms.
From Stdlib Require Import String Bool Arith ZArith QArith Qpower Lqa Lia List Permutation Sorted.
Import ListNotations.

Local Open Scope Q_scope.

(** ** Outcomes of Python calls *)

Inductive exn : Set :=
| IndexError
| ValueError
| TypeError
| AttributeError.

Inductive outcome (A : Type) : Type :=
| Ret (a : A)
| Raise (e : exn).

Arguments Ret {A} a.
Arguments Raise {A} e.

Definition bind {A B : Type} (m : outcome A) (k : A -> outcome B) : outcome B :=
  match m with
  | Ret a => k a
  | Raise e => Raise e
  end.

Notation "x <- m ;; k" := (bind m (fun x => k))
  (at level 61, m at next level, right associativity).

(** ** Rational comparisons used by the array primitives *)

Definition Qltb (x y : Q) : bool := negb (Qle_bool y x).

(** ** The NumPy primitives used by the source *)

Module Np.

(** [a[idx]] with Python's index rule: a negative index counts from the
    end, an index outside [-len, len) raises IndexError. *)
Definition getitem {A : Type} (a : list A) (idx : Z) : outcome A :=
  let n := Z.of_nat (length a) in
  let j := if (idx <? 0)%Z then (idx + n)%Z else idx in
  if ((j <? 0) || (n <=? j))%Z then Raise IndexError
  else match nth_error a (Z.to_nat j) with
       | Some x => Ret x
       | None => Raise IndexError
       end.

(** [a[i]] for an integer index array [i] (the indices come from
    [argsort], so they are naturals). *)
Fixpoint take {A : Type} (a : list A) (i : list nat) : outcome (list A) :=
  match i with
  | [] => Ret []
  | j :: i' =>
      x <- getitem a (Z.of_nat j) ;;
      xs <- take a i' ;;
      Ret (x :: xs)
  end.

(** [np.cumsum] on exact items: running sums, left to right; the first
    item is kept as it is. No sum is rounded here; [Typed.cumsum] adds as
    the item type does. *)
Fixpoint cumsum_from (acc : Q) (l : list Q) : list Q :=
  match l with
  | [] => []
  | x :: l' => (acc + x) :: cumsum_from (acc + x) l'
  end.

Definition cumsum (l : list Q) : list Q :=
  match l with
  | [] => []
  | x :: l' => x :: cumsum_from x l'
  end.

(** [np.searchsorted(a, key)] with the default [side='left']: NumPy's
    binary search over the half-open window [lo, hi). The window shrinks at
    every probe, so [length a] probes are always enough. *)
Fixpoint binsearch_left (fuel : nat) (a : list Q) (key : Q) (lo hi : nat) : nat :=
  match fuel with
  | O => lo
  | S fuel' =>
      if (lo <? hi)%nat then
        let mid := (lo + (hi - lo) / 2)%nat in
        if Qltb (nth mid a 0) key
        then binsearch_left fuel' a key (mid + 1) hi
        else binsearch_left fuel' a key lo mid
      else lo
  end.

Definition searchsorted (a : list Q) (key : Q) : nat :=
  binsearch_left (length a) a key 0 (length a).

(** Elementwise [a + b] with broadcasting of a one-item operand; other
    length mismatches raise ValueError. *)
Fixpoint zip_add (a b : list Q) : list Q :=
  match a, b with
  | x :: a', y :: b' => (x + y) :: zip_add a' b'
  | _, _ => []
  end.

Definition add (a b : list Q) : outcome (list Q) :=
  if (length a =? length b)%nat then Ret (zip_add a b)
  else match a, b with
       | [x], _ => Ret (map (fun y => x + y) b)
       | _, [y] => Ret (map (fun x => x + y) a)
       | _, _ => Raise ValueError
       end.

(** [a / s] for a scalar [s]. *)
Definition div_scalar (a : list Q) (s : Q) : list Q := map (fun x => x / s) a.

End Np.

(** ** The contract of [np.argsort] *)

(** Ascending order, position by position. *)
Definition ascending (l : list Q) : Prop :=
  forall p q, (p <= q < length l)%nat -> nth p l 0 <= nth q l 0.

(** The values read through an index list. *)
Definition sorted_by (i : list nat) (a : list Q) : list Q :=
  map (fun j => nth j a 0) i.

(** What NumPy documents for [argsort]: the result holds every index of the
    array once, and reading the array through it gives ascending values.
    Nothing is promised about the order of equal values. *)
Definition is_argsort (values : list Q) (i : list nat) : Prop :=
  Permutation i (seq 0 (length values)) /\ ascending (sorted_by i values).

(** An executable check of the contract. *)
Fixpoint ascendingb (l : list Q) : bool :=
  match l with
  | x :: (y :: _) as l' => Qle_bool x y && ascendingb l'
  | _ => true
  end.

Definition is_argsortb (values : list Q) (i : list nat) : bool :=
  (length i =? length values)%nat
  && forallb (fun j => existsb (Nat.eqb j) i) (seq 0 (length values))
  && ascendingb (sorted_by i values).

(** Two sorts that meet the contract, by insertion of the indices
    0, 1, ... in turn. [before x y] decides whether a new item of value [x]
    goes in front of an item of value [y]. *)
Section InsertionArgsort.

Variable before : Q -> Q -> bool.

Fixpoint insert_index (values : list Q) (j : nat) (l : list nat) : list nat :=
  match l with
  | [] => [j]
  | k :: l' =>
      if before (nth j values 0) (nth k values 0)
      then j :: l
      else k :: insert_index values j l'
  end.

Definition argsort_with (values : list Q) : list nat :=
  fold_left (fun acc j => insert_index values j acc) (seq 0 (length values)) [].

End InsertionArgsort.

(** [kind='stable']: a new item goes after the items equal to it. *)
Definition argsort_stable : list Q -> list nat := argsort_with Qltb.

(** A sort that reverses ties: a new item goes in front of its equals. *)
Definition argsort_ties_reversed : list Q -> list nat := argsort_with Qle_bool.

(** ** helpers.py: weighted_median *)

Section WeightedMedian.

(** The sort behind [np.argsort(values)]. *)
Variable argsort : list Q -> list nat.

(** <<
    def weighted_median(values, weights):
        i = np.argsort(values)
        c = np.cumsum(weights[i])
        return values[i[np.searchsorted(c, 0.5 * c[-1])]]
    >> *)
Definition weighted_median (values weights : list Q) : outcome Q :=
  let i := argsort values in
  wi <- Np.take weights i ;;
  let c := Np.cumsum wi in
  total <- Np.getitem c (-1) ;;
  let k := Np.searchsorted c ((1 # 2) * total) in
  j <- Np.getitem i (Z.of_nat k) ;;
  Np.getitem values (Z.of_nat j).

End WeightedMedian.

(** ** The item types of arrays *)

(** The number a float64 stands for: sign, mantissa and exponent of its
    IEEE 754 decomposition. An infinity counts as plus or minus 2^1024,
    which lies beyond every finite float64; a NaN stands for no number and
    is given 0. *)
Definition SF_value (x : spec_float) : Q :=
  match x with
  | S754_zero _ => 0
  | S754_infinity s => if s then - inject_Z (2 ^ 1024) else inject_Z (2 ^ 1024)
  | S754_nan => 0
  | S754_finite s m e => inject_Z (if s then Z.neg m else Z.pos m) * Qpower 2 e
  end.

Definition float_value (x : float) : Q := SF_value (Prim2SF x).

(** The same number in units of 2^-1074, the least positive float64: an
    integer for every float64, which makes the order easy to read off. *)
Definition SF_scaled (x : spec_float) : Z :=
  match x with
  | S754_zero _ => 0
  | S754_infinity s => if s then - 2 ^ 2098 else 2 ^ 2098
  | S754_nan => 0
  | S754_finite s m e => (if s then Z.neg m else Z.pos m) * 2 ^ (e + 1074)
  end%Z.

(** A float64 that is a number and not below zero; minus zero is one. *)
Definition SF_nonneg (x : spec_float) : Prop :=
  match x with
  | S754_zero _ => True
  | S754_infinity s | S754_finite s _ _ => s = false
  | S754_nan => False
  end.

(** What rounding gives for a mantissa [m2] that has been rounded at the
    exponent [e']: zero, a finite float64, which takes one more shift when
    the mantissa has reached 2^53, or an infinity past the largest
    exponent. *)
Definition SF_pack (m2 e' : Z) : spec_float :=
  match m2 with
  | Z0 => S754_zero false
  | Zpos p =>
      if (Zpos p <? 2 ^ 53)%Z
      then (if (e' <=? 971)%Z then S754_finite false p e' else S754_infinity false)
      else (if (e' + 1 <=? 971)%Z
            then S754_finite false 4503599627370496 (e' + 1)
            else S754_infinity false)
  | Zneg _ => S754_nan
  end.

Module Dtype.

(** What [weighted_median] asks of the items of its arrays: an addition for
    [np.cumsum], the product with the Python float 0.5, and the order used
    by [np.argsort] and [np.searchsorted]. [zero] fills the reads that
    [nth] makes out of range; no statement depends on it. *)
Record t : Type := {
  num : Type;
  zero : num;
  add : num -> num -> num;
  half : num -> num;
  less : num -> num -> bool
}.

(** Exact arithmetic: rational items, no rounding. *)
Definition exact : t :=
  {| num := Q; zero := 0; add := Qplus; half := Qmult (1 # 2); less := Qltb |}.

(** NumPy's order on floating-point items, for sorting and searching alike:
    [a < b || (b != b && a == a)], which puts every NaN after every
    number. *)
Definition float64_less (a b : float) : bool :=
  PrimFloat.ltb a b || (PrimFloat.is_nan b && negb (PrimFloat.is_nan a)).

(** float64 items: IEEE 754 binary64 with round-to-nearest-even, the
    arithmetic of [np.float64]. *)
Definition float64 : t :=
  {| num := float;
     zero := PrimFloat.zero;
     add := PrimFloat.add;
     half := PrimFloat.mul 0.5%float;
     less := float64_less |}.

End Dtype.

Coercion Dtype.num : Dtype.t >-> Sortclass.

(** ** The array functions and weighted_median over any item type *)

Module Typed.

Section Items.

Variable D : Dtype.t.

(** [np.cumsum]: each running sum is the item type's sum of the previous
    running sum and the next item, so that with float64 items every
    addition rounds. *)
Fixpoint cumsum_from (acc : D) (l : list D) : list D :=
  match l with
  | [] => []
  | x :: l' => Dtype.add D acc x :: cumsum_from (Dtype.add D acc x) l'
  end.

Definition cumsum (l : list D) : list D :=
  match l with
  | [] => []
  | x :: l' => x :: cumsum_from x l'
  end.

(** [np.searchsorted(a, key)], [side='left']. *)
Fixpoint binsearch_left (fuel : nat) (a : list D) (key : D) (lo hi : nat) : nat :=
  match fuel with
  | O => lo
  | S fuel' =>
      if (lo <? hi)%nat then
        let mid := (lo + (hi - lo) / 2)%nat in
        if Dtype.less D (nth mid a (Dtype.zero D)) key
        then binsearch_left fuel' a key (mid + 1) hi
        else binsearch_left fuel' a key lo mid
      else lo
  end.

Definition searchsorted (a : list D) (key : D) : nat :=
  binsearch_left (length a) a key 0 (length a).

(** The items read through an index list. *)
Definition sorted_by (i : list nat) (a : list D) : list D :=
  map (fun j => nth j a (Dtype.zero D)) i.

(** No item of the list is below an item before it. *)
Definition ascending (l : list D) : Prop :=
  forall p q, (p <= q < length l)%nat ->
              Dtype.less D (nth q l (Dtype.zero D)) (nth p l (Dtype.zero D)) = false.

(** The contract of [np.argsort] in the order of the item type. *)
Definition is_argsort (values : list D) (i : list nat) : Prop :=
  Permutation i (seq 0 (length values)) /\ ascending (sorted_by i values).

(** The stable sort by insertion of the indices 0, 1, ... in turn. *)
Fixpoint insert_index (values : list D) (j : nat) (l : list nat) : list nat :=
  match l with
  | [] => [j]
  | k :: l' =>
      if Dtype.less D (nth j values (Dtype.zero D)) (nth k values (Dtype.zero D))
      then j :: l
      else k :: insert_index values j l'
  end.

Definition argsort_stable (values : list D) : list nat :=
  fold_left (fun acc j => insert_index values j acc) (seq 0 (length values)) [].

(** Executable checks of the two, for concrete arrays. *)
Definition ascendingb (l : list D) : bool :=
  forallb
    (fun q =>
       forallb
         (fun p => negb (Dtype.less D (nth q l (Dtype.zero D)) (nth p l (Dtype.zero D))))
         (seq 0 (S q)))
    (seq 0 (length l)).

Definition is_argsortb (values : list D) (i : list nat) : bool :=
  (length i =? length values)%nat
  && forallb (fun j => existsb (Nat.eqb j) i) (seq 0 (length values))
  && ascendingb (sorted_by i values).

(** The sort behind [np.argsort(values)]. *)
Variable argsort : list D -> list nat.

(** <<
    def weighted_median(values, weights):
        i = np.argsort(values)
        c = np.cumsum(weights[i])
        return values[i[np.searchsorted(c, 0.5 * c[-1])]]
    >> *)
Definition weighted_median (values weights : list D) : outcome D :=
  let i := argsort values in
  wi <- Np.take weights i ;;
  let c := cumsum wi in
  total <- Np.getitem c (-1) ;;
  let k := searchsorted c (Dtype.half D total) in
  j <- Np.getitem i (Z.of_nat k) ;;
  Np.getitem values (Z.of_nat j).

End Items.

End Typed.

(** ** helpers.py: the weighted medians of a comparison *)

(** Modelled from the spec: the embedding store ([embsuivi]'s Embedding
    class is not among the sources). An embedding may carry a frequency
    table; [is_frequency_set] reports whether it does, and [get_frequency]
    gives the frequency of a key, 0 when there is none. *)
Record Embedding : Type := {
  frequencies : option (list (string * Q))
}.

Fixpoint lookup {V : Type} (key : string) (table : list (string * V)) : option V :=
  match table with
  | [] => None
  | (k, v) :: table' => if String.eqb key k then Some v else lookup key table'
  end.

Definition is_frequency_set (emb : Embedding) : bool :=
  match frequencies emb with
  | Some _ => true
  | None => false
  end.

Definition get_frequency (emb : Embedding) (key : string) : Q :=
  match frequencies emb with
  | Some table =>
      match lookup key table with
      | Some f => f
      | None => 0
      end
  | None => 0
  end.

(** Modelled from the spec: EmbeddingComparison ([embsuivi.embeddings_compare]
    is not among the sources). It holds the two embeddings and the two
    similarity mappings, key to score, in key order; the [_values]
    properties are the scores in that order. *)
Record EmbeddingComparison : Type := {
  embeddings : Embedding * Embedding;
  neighborhoods_similarities : list (string * Q);
  neighborhoods_ordered_similarities : list (string * Q)
}.

(** Iterating a mapping yields its keys. *)
Definition keys {V : Type} (mapping : list (string * V)) : list string :=
  map fst mapping.

Definition neighborhoods_similarities_values (comparison : EmbeddingComparison) : list Q :=
  map snd (neighborhoods_similarities comparison).

Definition neighborhoods_ordered_similarities_values (comparison : EmbeddingComparison) : list Q :=
  map snd (neighborhoods_ordered_similarities comparison).

Section ComparisonMedians.

Variable argsort : list Q -> list nat.

(** The two functions of the source have one body and differ only in the
    mapping they read. Its first three lines build the weights:
    <<
        freqs_1 = np.array([emb1.get_frequency(k) for k in mapping])
        freqs_2 = np.array([emb2.get_frequency(k) for k in mapping])
        freqs_mean = (freqs_1 + freqs_2) / 2
    >> *)
Definition freqs_mean (emb1 emb2 : Embedding) (mapping : list (string * Q))
  : outcome (list Q) :=
  let freqs_1 := map (get_frequency emb1) (keys mapping) in
  let freqs_2 := map (get_frequency emb2) (keys mapping) in
  freqs_sum <- Np.add freqs_1 freqs_2 ;;
  Ret (Np.div_scalar freqs_sum 2).

(** Its last line hands them to [weighted_median]:
    <<
        return weighted_median(mapping_values, freqs_mean)
    >> *)
Definition weighted_median_of_mapping
    (emb1 emb2 : Embedding) (mapping : list (string * Q)) (mapping_values : list Q)
  : outcome Q :=
  weights <- freqs_mean emb1 emb2 mapping ;;
  weighted_median argsort mapping_values weights.

Definition compute_weighted_median_similarity (comparison : EmbeddingComparison) : outcome Q :=
  let '(emb1, emb2) := embeddings comparison in
  weighted_median_of_mapping emb1 emb2
    (neighborhoods_similarities comparison)
    (neighborhoods_similarities_values comparison).

Definition compute_weighted_median_ordered_similarity (comparison : EmbeddingComparison) : outcome Q :=
  let '(emb1, emb2) := embeddings comparison in
  weighted_median_of_mapping emb1 emb2
    (neighborhoods_ordered_similarities comparison)
    (neighborhoods_ordered_similarities_values comparison).

End ComparisonMedians.

(** ** helpers.py and app.py: AdvancedParameters *)

(** The values a parameter can hold. *)
Inductive pyval : Type :=
| PyInt (z : Z)
| PyFloat (q : Q).

Module AdvancedParameters.

(** The data attributes that the class body of helpers.py declares, the
    defaults of every instance. The methods [__init__] and [selection] and
    what every Python object inherits are not data and are left out. *)
Definition class_attributes : list (string * pyval) :=
  [("n_neighbors"%string, PyInt 25);
   ("max_emb_size"%string, PyInt 10000);
   ("min_frequency"%string, PyFloat 0)].

(** An instance is its attribute dictionary; the newest binding of a name
    is the one in force. *)
Definition instance : Type := list (string * pyval).

(** [setattr(self, key, value)] for a number [value]. Three names are not
    plain attributes of an instance: [__class__] and [__dict__] take a class
    and a dict only and raise TypeError for a number, [__weakref__] cannot
    be written and raises AttributeError. Every other name is bound in the
    instance dictionary. *)
Definition setattr (self : instance) (key : string) (value : pyval) : outcome instance :=
  if String.eqb key "__class__" || String.eqb key "__dict__" then Raise TypeError
  else if String.eqb key "__weakref__" then Raise AttributeError
  else Ret ((key, value) :: self).

(** The loop of the constructor, which stops at the first [setattr] that
    raises. *)
Fixpoint setattr_each (self : instance) (kwargs : list (string * pyval)) : outcome instance :=
  match kwargs with
  | [] => Ret self
  | (key, value) :: kwargs' =>
      self' <- setattr self key value ;;
      setattr_each self' kwargs'
  end.

(** <<
    def __init__(self, **kwargs):
        for key, value in kwargs.items():
            setattr(self, key, value)
    >>
    A keyword named [self] clashes with the first parameter: the call
    raises TypeError before the body runs. *)
Definition init (kwargs : list (string * pyval)) : outcome instance :=
  if existsb (String.eqb "self") (map fst kwargs) then Raise TypeError
  else setattr_each [] kwargs.

(** Reading a data attribute: the instance dictionary, then the class.
    [None] says that the name is neither a keyword given to the constructor
    nor one of the three parameters; what Python finds under such a name (a
    method, an inherited attribute, or nothing) is outside this model. *)
Definition getattr (self : instance) (name : string) : option pyval :=
  match lookup name self with
  | Some v => Some v
  | None => lookup name class_attributes
  end.

Section Selection.

(** Streamlit's [st.number_input], for integer and for float bounds:
    label, min_value, max_value, step, value, key. *)
Variable number_input_int : string -> Z -> Z -> Z -> Z -> string -> Z.
Variable number_input_float : string -> Q -> Q -> Q -> Q -> string -> Q.

(** The classmethod [selection] of helpers.py, the logging left out. *)
Definition selection : outcome instance :=
  let n_neighbors :=
    number_input_int "Number of neighbors to use in the comparison"
      1 1000 10 25 "n_neighbors" in
  let max_emb_size :=
    number_input_int
      "Maximum number of elements in the embeddings (help to reduce memory footprint) :"
      100 200000 10000 10000 "max_emb_size" in
  let min_frequency :=
    number_input_float "Minimum freqency for embedding elements :"
      0 1 (1 # 10000) 0 "min_frequency" in
  init [("n_neighbors"%string, PyInt n_neighbors);
        ("max_emb_size"%string, PyInt max_emb_size);
        ("min_frequency"%string, PyFloat min_frequency)].

End Selection.

End AdvancedParameters.

Module App.

(** app.py:
    <<
    AdvancedParameters = namedtuple("AdvancedParameters", ["n_neighbors", "max_emb_size"])
    >> *)
Record AdvancedParameters : Type := {
  n_neighbors : Z;
  max_emb_size : Z
}.

Section GetAdvancedParameters.

Variable number_input_int : string -> Z -> Z -> Z -> Z -> string -> Z.

Definition get_advanced_parameters : AdvancedParameters :=
  let n_neighbors :=
    number_input_int "Number of neighbors to use in the comparison"
      1 1000 10 25 "n_neighbors" in
  let max_emb_size :=
    number_input_int
      "Maximum number of elements in the embeddings (help to reduce memory footprint) :"
      100 200000 10000 10000 "max_emb_size" in
  {| n_neighbors := n_neighbors; max_emb_size := max_emb_size |}.

End GetAdvancedParameters.

End App.

(** ** Python dicts and the exceptions of the code around them *)

Module Py.

(** KeyError for a missing dict key, and the built-in exceptions above. *)
Inductive pyexn : Set :=
| KeyError
| Builtin (e : exn).

Inductive result (A : Type) : Type :=
| Done (a : A)
| Fail (e : pyexn).

Arguments Done {A} a.
Arguments Fail {A} e.

Definition and_then {A B : Type} (m : result A) (k : A -> result B) : result B :=
  match m with
  | Done a => k a
  | Fail e => Fail e
  end.

Notation "x <~ m ;; k" := (and_then m (fun x => k))
  (at level 61, m at next level, right associativity).

Fixpoint for_each {A B : Type} (f : A -> result B) (l : list A) : result (list B) :=
  match l with
  | [] => Done []
  | x :: l' =>
      y <~ f x ;;
      ys <~ for_each f l' ;;
      Done (y :: ys)
  end.

(** A Python dict: its bindings in insertion order, each key once. *)
Definition pydict (V : Type) : Type := list (string * V).

(** [d[key] = value]: a key already there keeps its place and takes the new
    value, a new key goes last. *)
Fixpoint setitem {V : Type} (d : pydict V) (key : string) (value : V) : pydict V :=
  match d with
  | [] => [(key, value)]
  | (k, v) :: d' =>
      if String.eqb key k then (k, value) :: d'
      else (k, v) :: setitem d' key value
  end.

(** [key in d]. *)
Definition contains {V : Type} (d : pydict V) (key : string) : bool :=
  match lookup key d with
  | Some _ => true
  | None => false
  end.

(** [d[key]]. *)
Definition getitem {V : Type} (d : pydict V) (key : string) : result V :=
  match lookup key d with
  | Some v => Done v
  | None => Fail KeyError
  end.

(** [d.get(key, default)]. *)
Definition get {V : Type} (d : pydict V) (key : string) (default : V) : V :=
  match lookup key d with
  | Some v => v
  | None => default
  end.

(** [{k: v for k, v in pairs}]. *)
Definition comprehension {V : Type} (pairs : list (string * V)) : pydict V :=
  fold_left (fun d kv => setitem d (fst kv) (snd kv)) pairs [].

(** [enumerate(d)]: the keys of the dict with their positions. *)
Definition enumerate {V : Type} (d : pydict V) : list (nat * string) :=
  combine (seq 0 (length d)) (keys d).

End Py.

(** ** helpers.py: display_neighborhoods_elements_comparison *)

Module Display.

Import Py.

(** The strings the source formats, kept as the value and its format:
    [f"{q:.1%}"], [f"{q:.4f}"] and [f"{q:.1e}"]. *)
Inductive cell : Type :=
| Label (s : string)
| Percent1 (q : Q).

Inductive freq_str : Type :=
| Fixed4 (q : Q)
| Scientific1 (q : Q).

(** [pd.DataFrame(columns)] from a dict of lists: the lists must have one
    length, or pandas raises ValueError. *)
Definition table : Type := list (string * list cell).

Definition DataFrame (columns : table) : result table :=
  match columns with
  | [] => Done []
  | (_, first) :: rest =>
      if forallb (fun col => (length (snd col) =? length first)%nat) rest
      then Done columns
      else Fail (Builtin ValueError)
  end.

(** The Streamlit calls the function makes inside an expander: a frequency
    written in a column, a subheader, a table. *)
Inductive st_call : Type :=
| WriteFrequency (column : nat) (s : freq_str)
| Subheader (s : string)
| Table (t : table).

(** An expander, titled [f"{label} (similarity {similarity:.0%})"], with the
    calls made inside it. *)
Record expander : Type := Expander {
  label : string;
  similarity : Q;
  body : list st_call
}.

(** <<
    common_neighbors = {k: i for i, k in enumerate(neighbors1) if k in neighbors2}
    >> *)
Definition common_neighbors (neighbors1 neighbors2 : pydict Q) : pydict nat :=
  comprehension
    (map (fun ik => (snd ik, fst ik))
       (filter (fun ik => contains neighbors2 (snd ik)) (enumerate neighbors1))).

(** <<
    only = {k: i for i, k in enumerate(neighbors) if k not in common_neighbors}
    >> *)
Definition only_neighbors (neighbors : pydict Q) (common : pydict nat) : pydict nat :=
  comprehension
    (map (fun ik => (snd ik, fst ik))
       (filter (fun ik => negb (contains common (snd ik))) (enumerate neighbors))).

(** The frequencies written at the top of an expander, one column per
    embedding that has frequencies. *)
Definition frequency_calls (emb1 emb2 : Embedding) (key : string) : list st_call :=
  flat_map
    (fun emb_col : Embedding * nat =>
       let (emb, col) := emb_col in
       if is_frequency_set emb then
         let freq := get_frequency emb key in
         let s := if Qltb (1 # 10000) freq then Fixed4 freq else Scientific1 freq in
         [WriteFrequency col s]
       else [])
    [(emb1, 0%nat); (emb2, 1%nat)].

(** [[f"{d[k]:.1%}" for k in names]]. *)
Definition similarities (d : pydict Q) (names : list string) : result (list cell) :=
  for_each (fun k => s <~ getitem d k ;; Done (Percent1 s)) names.

(** [[labels.get(k, k) for k in names]]. *)
Definition labelled (labels : pydict string) (names : list string) : list cell :=
  map (fun k => Label (get labels k k)) names.

(** <<
    if common_neighbors:
        st.subheader("common neighbors")
        st.table(pd.DataFrame({"neighbor": ..., "sim1": ..., "sim2": ...}))
    >> *)
Definition common_calls
    (emb1_labels : pydict string) (neighbors1 neighbors2 : pydict Q)
    (common : pydict nat) : result (list st_call) :=
  match common with
  | [] => Done []
  | _ :: _ =>
      let neighbor := labelled emb1_labels (keys common) in
      sim1 <~ similarities neighbors1 (keys common) ;;
      sim2 <~ similarities neighbors2 (keys common) ;;
      t <~ DataFrame [("neighbor"%string, neighbor); ("sim1"%string, sim1); ("sim2"%string, sim2)] ;;
      Done [Subheader "common neighbors"; Table t]
  end.

(** <<
    if only1:
        st.subheader("distinct neighbors")
        st.table(pd.DataFrame({"neighbor1": ..., "sim1": ..., "sim2": ..., "neighbor2": ...}))
    >> *)
Definition distinct_calls
    (emb1_labels emb2_labels : pydict string) (neighbors1 neighbors2 : pydict Q)
    (only1 only2 : pydict nat) : result (list st_call) :=
  match only1 with
  | [] => Done []
  | _ :: _ =>
      let neighbor1 := labelled emb1_labels (keys only1) in
      sim1 <~ similarities neighbors1 (keys only1) ;;
      sim2 <~ similarities neighbors2 (keys only2) ;;
      let neighbor2 := labelled emb2_labels (keys only2) in
      t <~ DataFrame [("neighbor1"%string, neighbor1); ("sim1"%string, sim1);
                      ("sim2"%string, sim2); ("neighbor2"%string, neighbor2)] ;;
      Done [Subheader "distinct neighbors"; Table t]
  end.

(** The tables of one expander, from the two neighbor lists of the key. *)
Definition neighbors_tables
    (emb1_labels emb2_labels : pydict string)
    (neighborhood_1 neighborhood_2 : list (string * Q)) : result (list st_call) :=
  let neighbors1 := comprehension neighborhood_1 in
  let neighbors2 := comprehension neighborhood_2 in
  let common := common_neighbors neighbors1 neighbors2 in
  shown_common <~ common_calls emb1_labels neighbors1 neighbors2 common ;;
  let only1 := only_neighbors neighbors1 common in
  let only2 := only_neighbors neighbors2 common in
  shown_distinct <~ distinct_calls emb1_labels emb2_labels neighbors1 neighbors2 only1 only2 ;;
  Done (shown_common ++ shown_distinct).

Section DisplayComparison.

(** The parts of the comparison and of the embedding store that the function
    reads and that are not among the sources: [comparison.labels],
    [comparison.n_neighbors] and [emb.get_neighbors(n, keys=...)], a mapping
    from key to neighbor list. *)
Variable labels : EmbeddingComparison -> pydict string * pydict string.
Variable n_neighbors : EmbeddingComparison -> nat.
Variable get_neighbors : Embedding -> nat -> list string -> pydict (list (string * Q)).

(** Unpacking the zip of the starred elements into two names: two tuples
    when there is at least one element, nothing to unpack, hence ValueError,
    when there is none. *)
Definition unzip_elements (elements : list (string * Q)) : result (list string * list Q) :=
  match elements with
  | [] => Fail (Builtin ValueError)
  | _ :: _ => Done (map fst elements, map snd elements)
  end.

Definition display_neighborhoods_elements_comparison
    (comparison : EmbeddingComparison) (elements : list (string * Q))
  : result (list expander) :=
  let '(emb1, emb2) := embeddings comparison in
  let '(emb1_labels, emb2_labels) := labels comparison in
  unzipped <~ unzip_elements elements ;;
  let '(least_similar_keys, least_similar_sim) := unzipped in
  let neighborhoods_1 := get_neighbors emb1 (n_neighbors comparison) least_similar_keys in
  let neighborhoods_2 := get_neighbors emb2 (n_neighbors comparison) least_similar_keys in
  for_each
    (fun key_similarity : string * Q =>
       let (key, similarity) := key_similarity in
       let label := get emb1_labels key key in
       let written := frequency_calls emb1 emb2 key in
       neighborhood_1 <~ getitem neighborhoods_1 key ;;
       neighborhood_2 <~ getitem neighborhoods_2 key ;;
       tables <~ neighbors_tables emb1_labels emb2_labels neighborhood_1 neighborhood_2 ;;
       Done (Expander label similarity (written ++ tables)))
    (combine least_similar_keys least_similar_sim).

End DisplayComparison.

End Display.

(** ** helpers.py: load_embedding *)

Module Loading.

Import Py.

(** A loading function of [EMBEDDING_FORMATS]: the embedding path, the
    frequencies path and the frequencies format (None when not given) to an
    embedding, or an exception. *)
Definition loader : Type := string -> option string -> option string -> result Embedding.

Definition newline : string := String (Ascii.ascii_of_nat 10) EmptyString.

Section LoadEmbedding.

(** The table of [load_utils], which is not among the sources, and
    [str.lower]. *)
Variable EMBEDDING_FORMATS : pydict loader.
Variable lower : string -> string.

(** The message given to [st.error]. *)
Definition format_error (embedding_path embedding_format : string) : string :=
  ("embedding format shloud be one of `" ++ String.concat ", " (keys EMBEDDING_FORMATS)
   ++ "` but is `" ++ embedding_format ++ "`" ++ newline ++ newline
   ++ "Could not load " ++ embedding_path)%string.

(** The function returns the embedding, or None after a call of [st.error];
    the pair holds the value returned and the messages shown. The cache
    decorator of the source is left out. *)
Definition load_embedding
    (embedding_path embedding_format : string)
    (frequencies_path frequencies_format : option string)
  : result (option Embedding * list string) :=
  match
    loading_function <~ getitem EMBEDDING_FORMATS (lower embedding_format) ;;
    loading_function embedding_path frequencies_path frequencies_format
  with
  | Done embedding => Done (Some embedding, [])
  | Fail KeyError => Done (None, [format_error embedding_path embedding_format])
  | Fail e => Fail e
  end.

End LoadEmbedding.

End Loading.

(** ** Quantities the statements speak of *)

(** The sum of a list of weights. *)
Definition Qsum (l : list Q) : Q := fold_right Qplus 0 l.

(** The cumulative weight at position [k] of a weight list: the sum of its
    items at positions 0 to [k]. *)
Definition cumulative_weight (w : list Q) (k : nat) : Q := Qsum (firstn (S k) w).

(** The weight carried by the items whose value is at most [x], over a
    list of (value, weight) pairs and over two aligned lists. *)
Definition weight_up_to_pairs (pairs : list (Q * Q)) (x : Q) : Q :=
  Qsum (map (fun vw => if Qle_bool (fst vw) x then snd vw else 0) pairs).

Definition weight_up_to (values weights : list Q) (x : Q) : Q :=
  weight_up_to_pairs (combine values weights) x.

(** The weighted median said without any sort: the least value of the list
    whose weight-up-to reaches half of the total weight. *)
Definition is_weighted_median (values weights : list Q) (r : Q) : Prop :=
  In r values /\
  (1 # 2) * Qsum weights <= weight_up_to values weights r /\
  (forall y, In y values -> y < r ->
             weight_up_to values weights y < (1 # 2) * Qsum weights).

(** The number of items that are at most [x]. *)
Definition count_up_to (values : list Q) (x : Q) : nat :=
  length (filter (fun v => Qle_bool v x) values).

(** The lower median said without any sort: the least value of the list
    that at least half of the items do not exceed. *)
Definition is_lower_median (values : list Q) (r : Q) : Prop :=
  In r values /\
  (length values <= 2 * count_up_to values r)%nat /\
  (forall y, In y values -> y < r -> (2 * count_up_to values y < length values)%nat).

(** A stable sort keeps items of equal value in their original order. *)
Definition ties_in_original_order (values : list Q) (i : list nat) : Prop :=
  forall p q, (p < q < length i)%nat ->
              nth (nth p i 0%nat) values 0 == nth (nth q i 0%nat) values 0 ->
              (nth p i 0 < nth q i 0)%nat.

(** The order of a stable sort on indices: by value, then by index. *)
Definition stable_order (values : list Q) (a b : nat) : Prop :=
  nth a values 0 < nth b values 0 \/
  (nth a values 0 == nth b values 0 /\ (a < b)%nat).

(** The order of the sort that reverses ties: by value, then by index
    downwards. *)
Definition reversed_ties_order (values : list Q) (a b : nat) : Prop :=
  nth a values 0 < nth b values 0 \/
  (nth a values 0 == nth b values 0 /\ (b < a)%nat).

(** The weight carried by the items whose value is strictly below [x], and
    by those strictly above. *)
Definition weight_below (values weights : list Q) (x : Q) : Q :=
  Qsum (map (fun vw => if Qltb (fst vw) x then snd vw else 0) (combine values weights)).

Definition weight_above (values weights : list Q) (x : Q) : Q :=
  Qsum (map (fun vw => if Qltb x (fst vw) then snd vw else 0) (combine values weights)).

(** A count as a rational. *)
Definition Qnat (n : nat) : Q := inject_Z (Z.of_nat n).

(** The weights of a mapping in the words of the spec: for each key of the
    mapping, in key order, the arithmetic mean of the two embeddings'
    frequencies for that key. *)
Definition mean_frequency_weights
    (emb1 emb2 : Embedding) (mapping : list (string * Q)) : list Q :=
  map (fun kv => (get_frequency emb1 (fst kv) + get_frequency emb2 (fst kv)) / 2) mapping.

(** Values and weights are aligned with a mapping when position [j] of each
    holds the score of the [j]-th key and the mean frequency of that key. *)
Definition aligned_with_mapping
    (emb1 emb2 : Embedding) (mapping : list (string * Q)) (values weights : list Q) : Prop :=
  length values = length mapping /\
  length weights = length mapping /\
  forall j key score,
    nth_error mapping j = Some (key, score) ->
    nth_error values j = Some score /\
    nth_error weights j = Some ((get_frequency emb1 key + get_frequency emb2 key) / 2).

(** The law of its order that a binary search relies on: an item that is
    not above an item below the key is below the key itself. *)
Definition weak_order (D : Dtype.t) : Prop :=
  forall a b key : D,
    Dtype.less D b a = false -> Dtype.less D b key = true -> Dtype.less D a key = true.

(** Weights that are not below zero: [0 <= w], which no NaN meets. *)
Definition float64_nonneg (x : float) : Prop := PrimFloat.leb 0 x = true.

(** The same of exact items. *)
Definition exact_nonneg (x : Q) : Prop := 0 <= x.

(** The laws of an item type on which the statements about non-negative
    weights rest: its order is a weak order, adding an item that is not
    below zero to another gives one that is not below zero nor below the
    first, and the half of such an item is not above it. *)
Record lawful (D : Dtype.t) (nonneg : D -> Prop) : Prop := {
  lawful_order : weak_order D;
  lawful_irreflexive : forall x : D, Dtype.less D x x = false;
  lawful_add :
    forall x w : D, nonneg x -> nonneg w ->
      nonneg (Dtype.add D x w) /\ Dtype.less D (Dtype.add D x w) x = false;
  lawful_half :
    forall x : D, nonneg x -> Dtype.less D x (Dtype.half D x) = false
}.

(** The running sums that weighted_median computes from the weights read
    through the index list [i], and the last item of an array. *)
Definition running_sums (D : Dtype.t) (i : list nat) (weights : list D) : list D :=
  Typed.cumsum D (Typed.sorted_by D i weights).

Definition last_item (D : Dtype.t) (c : list D) : D :=
  nth (length c - 1) c (Dtype.zero D).

(** No item of a float64 array is a NaN. *)
Definition no_nan (l : list float) : Prop :=
  Forall (fun x => PrimFloat.is_nan x = false) l.

(** The float64 running sums of [w] and the half of the last one are
    computed without rounding: each is a number, the running sum at
    position [p] is the exact sum of the items 0 to [p], and the half is
    the exact half. *)
Definition no_rounding (w : list float) : Prop :=
  let c := Typed.cumsum Dtype.float64 w in
  let total := last_item Dtype.float64 c in
  (forall p, (p < length w)%nat ->
     PrimFloat.is_nan (nth p c PrimFloat.zero) = false /\
     float_value (nth p c PrimFloat.zero) == cumulative_weight (map float_value w) p) /\
  PrimFloat.is_nan (Dtype.half Dtype.float64 total) = false /\
  float_value (Dtype.half Dtype.float64 total) == (1 # 2) * float_value total.

Definition no_roundingb (w : list float) : bool :=
  let c := Typed.cumsum Dtype.float64 w in
  let total := last_item Dtype.float64 c in
  forallb
    (fun p =>
       negb (PrimFloat.is_nan (nth p c PrimFloat.zero))
       && Qeq_bool (float_value (nth p c PrimFloat.zero))
                   (cumulative_weight (map float_value w) p))
    (seq 0 (length w))
  && negb (PrimFloat.is_nan (Dtype.half Dtype.float64 total))
  && Qeq_bool (float_value (Dtype.half Dtype.float64 total)) ((1 # 2) * float_value total).

(** The keyword names that the constructor of helpers.AdvancedParameters
    cannot set to a number. *)
Definition refused_keywords : list string :=
  ["self"; "__class__"; "__dict__"; "__weakref__"]%string.

(** What Streamlit documents for a number input whose initial value lies
    between [min_value] and [max_value]: so does the value it returns. *)
Definition within_widget_bounds (number_input_int : string -> Z -> Z -> Z -> Z -> string -> Z) : Prop :=
  forall label min_value max_value step value key,
    (min_value <= value <= max_value)%Z ->
    (min_value <= number_input_int label min_value max_value step value key <= max_value)%Z.

(** * Properties *)

(** ** Concrete runs *)

Example wm_1234 :
  weighted_median argsort_stable [1; 2; 3; 4] [1; 1; 1; 1] = Ret 2.
Proof. vm_compute. reflexivity. Qed.

Example wm_zero :
  weighted_median argsort_stable [3; 1; 2] [0; 0; 0] = Ret 1.
Proof. vm_compute. reflexivity. Qed.

Example wm_neg :
  weighted_median argsort_stable [5] [-1] = Raise IndexError.
Proof. vm_compute. reflexivity. Qed.

Example wm_empty :
  weighted_median argsort_stable [] [] = Raise IndexError.
Proof. vm_compute. reflexivity. Qed.

Example wm_ties :
  argsort_stable [1; 1; 0] = [2; 0; 1]%nat /\ argsort_ties_reversed [1; 1; 0] = [2; 1; 0]%nat.
Proof. vm_compute. split; reflexivity. Qed.

Example wm_neg_ties :
  weighted_median argsort_stable [1; 1; 2; 2] [1; 1; -3; 3] <>
  weighted_median argsort_ties_reversed [1; 1; 2; 2] [1; 1; -3; 3].
Proof. vm_compute. discriminate. Qed.

(** float64 runs. The running sums of fourteen weights 0.1 are rounded, and
    the seventh falls below the half of the last. *)
Example wm_float64_tenths :
  Typed.cumsum Dtype.float64 (repeat 0x1.999999999999ap-4%float 7)
  = [0x1.999999999999ap-4; 0x1.999999999999ap-3; 0x1.3333333333334p-2;
     0x1.999999999999ap-2; 0x1p-1; 0x1.3333333333333p-1; 0x1.6666666666666p-1]%float /\
  Typed.weighted_median Dtype.float64 (Typed.argsort_stable Dtype.float64)
    [1; 2; 3; 4; 5; 6; 7; 8; 9; 10; 11; 12; 13; 14]%float
    (repeat 0x1.999999999999ap-4%float 14)
  = Ret 8%float.
Proof. vm_compute. split; reflexivity. Qed.

(** The sum of 1 and the next float64 after 1 rounds to 2, whose half the
    first weight reaches. *)
Example wm_float64_carry :
  Typed.weighted_median Dtype.float64 (Typed.argsort_stable Dtype.float64)
    [1; 2]%float [1; 0x1.0000000000001p+0]%float
  = Ret 1%float.
Proof. vm_compute. reflexivity. Qed.

(** With rounded sums the order given to equal values can show in the
    result: two index lists that sort the same values. *)
Example wm_float64_ties :
  let values := [1; 1; 1; 2]%float in
  let weights :=
    [0x1.999999999999ap-4; 0x1.999999999999ap-3; 0x1.3333333333333p-2;
     0x1.3333333333334p-1]%float in
  Typed.is_argsortb Dtype.float64 values [0; 1; 2; 3]%nat = true /\
  Typed.is_argsortb Dtype.float64 values [2; 1; 0; 3]%nat = true /\
  Typed.weighted_median Dtype.float64 (fun _ => [0; 1; 2; 3]%nat) values weights
  = Ret 1%float /\
  Typed.weighted_median Dtype.float64 (fun _ => [2; 1; 0; 3]%nat) values weights
  = Ret 2%float.
Proof. vm_compute. repeat split; reflexivity. Qed.

(** ** Comparisons *)

Lemma Qltb_lt (x y : Q) : Qltb x y = true <-> x < y.
Proof.
  unfold Qltb. rewrite negb_true_iff. split.
  - intros H. apply Qnot_le_lt. intros Hle.
    apply Qle_bool_iff in Hle. congruence.
  - intros H. destruct (Qle_bool y x) eqn:E; [|reflexivity].
    apply Qle_bool_iff in E. exfalso. apply (Qlt_not_le _ _ H E).
Qed.

Lemma Qltb_ge (x y : Q) : Qltb x y = false <-> y <= x.
Proof.
  unfold Qltb. rewrite negb_false_iff. apply Qle_bool_iff.
Qed.

(** ** Indexing *)

Lemma getitem_nat {A : Type} (a : list A) (j : nat) :
  Np.getitem a (Z.of_nat j) =
  match nth_error a j with
  | Some x => Ret x
  | None => Raise IndexError
  end.
Proof.
  unfold Np.getitem. cbv zeta.
  assert ((Z.of_nat j <? 0)%Z = false) as Hneg by (apply Z.ltb_ge; lia).
  rewrite Hneg. cbv iota. rewrite Hneg, Nat2Z.id. cbn [orb].
  destruct (Z.of_nat (length a) <=? Z.of_nat j)%Z eqn:Hhi.
  - apply Z.leb_le in Hhi.
    destruct (nth_error a j) eqn:E; [|reflexivity].
    assert (nth_error a j <> None) as Hn by congruence.
    apply nth_error_Some in Hn. lia.
  - reflexivity.
Qed.

Lemma getitem_nat_lt {A : Type} (a : list A) (j : nat) (d : A) :
  (j < length a)%nat -> Np.getitem a (Z.of_nat j) = Ret (nth j a d).
Proof.
  intros H. rewrite getitem_nat.
  rewrite (nth_error_nth' a d H). reflexivity.
Qed.

Lemma getitem_nat_ge {A : Type} (a : list A) (j : nat) :
  (length a <= j)%nat -> Np.getitem a (Z.of_nat j) = Raise IndexError.
Proof.
  intros H. rewrite getitem_nat.
  apply nth_error_None in H. rewrite H. reflexivity.
Qed.

Lemma getitem_last_nonempty {A : Type} (a : list A) (d : A) :
  a <> [] -> Np.getitem a (-1) = Ret (nth (length a - 1) a d).
Proof.
  intros Hne. unfold Np.getitem.
  assert (0 < length a)%nat as Hlen by (destruct a; simpl; [congruence|lia]).
  change (-1 <? 0)%Z with true. cbv iota zeta.
  assert ((-1 + Z.of_nat (length a) <? 0)%Z = false) as E1 by (apply Z.ltb_ge; lia).
  assert ((Z.of_nat (length a) <=? -1 + Z.of_nat (length a))%Z = false) as E2
    by (apply Z.leb_gt; lia).
  rewrite E1, E2. cbn [orb].
  replace (Z.to_nat (-1 + Z.of_nat (length a))) with (length a - 1)%nat by lia.
  rewrite (nth_error_nth' a d); [reflexivity|lia].
Qed.

Lemma getitem_last_empty {A : Type} : Np.getitem (@nil A) (-1) = Raise IndexError.
Proof. reflexivity. Qed.

Lemma take_in_range (a : list Q) (i : list nat) :
  Forall (fun j => (j < length a)%nat) i ->
  Np.take a i = Ret (sorted_by i a).
Proof.
  induction 1 as [|j i Hj _ IH]; simpl.
  - reflexivity.
  - rewrite (getitem_nat_lt a j 0 Hj). simpl. rewrite IH. reflexivity.
Qed.

Lemma sorted_by_length (i : list nat) (a : list Q) : length (sorted_by i a) = length i.
Proof. apply length_map. Qed.

(** ** Sums and running sums *)

Lemma Qsum_app (l1 l2 : list Q) : Qsum (l1 ++ l2) == Qsum l1 + Qsum l2.
Proof.
  induction l1 as [|x l1 IH]; simpl.
  - ring.
  - rewrite IH. ring.
Qed.

Lemma Qsum_nonneg (l : list Q) : Forall (fun w => 0 <= w) l -> 0 <= Qsum l.
Proof.
  induction 1 as [|x l Hx _ IH]; simpl.
  - apply Qle_refl.
  - lra.
Qed.

Lemma Qsum_permutation (l1 l2 : list Q) : Permutation l1 l2 -> Qsum l1 == Qsum l2.
Proof.
  induction 1 as [| x l l' _ IH | x y l | l l' l'' _ IH1 _ IH2]; simpl.
  - reflexivity.
  - rewrite IH. reflexivity.
  - ring.
  - rewrite IH1. exact IH2.
Qed.

Lemma cumsum_from_length (l : list Q) : forall acc, length (Np.cumsum_from acc l) = length l.
Proof.
  induction l as [|x l IH]; intros acc; simpl; [reflexivity|].
  rewrite IH. reflexivity.
Qed.

Lemma cumsum_length (l : list Q) : length (Np.cumsum l) = length l.
Proof.
  destruct l as [|x l]; simpl; [reflexivity|].
  rewrite cumsum_from_length. reflexivity.
Qed.

Lemma cumsum_from_nth (l : list Q) :
  forall acc k, (k < length l)%nat ->
  nth k (Np.cumsum_from acc l) 0 == acc + cumulative_weight l k.
Proof.
  unfold cumulative_weight.
  induction l as [|x l IH]; intros acc k Hk; simpl in Hk; [lia|].
  destruct k as [|k].
  - simpl. destruct l; simpl; ring.
  - change (nth (S k) (Np.cumsum_from acc (x :: l)) 0)
      with (nth k (Np.cumsum_from (acc + x) l) 0).
    rewrite IH by lia.
    change (firstn (S (S k)) (x :: l)) with (x :: firstn (S k) l).
    simpl Qsum. ring.
Qed.

(** The item at position [k] of [np.cumsum(w)] is the cumulative weight at
    [k]. *)
Lemma cumsum_nth (l : list Q) (k : nat) :
  (k < length l)%nat -> nth k (Np.cumsum l) 0 == cumulative_weight l k.
Proof.
  destruct l as [|x l]; simpl; intros Hk; [lia|].
  destruct k as [|k].
  - unfold cumulative_weight. simpl. destruct l; simpl; ring.
  - rewrite cumsum_from_nth by lia.
    unfold cumulative_weight.
    change (firstn (S (S k)) (x :: l)) with (x :: firstn (S k) l).
    simpl Qsum. ring.
Qed.

Lemma cumulative_weight_last (l : list Q) :
  l <> [] -> cumulative_weight l (length l - 1) == Qsum l.
Proof.
  intros Hne. unfold cumulative_weight.
  assert (0 < length l)%nat by (destruct l; simpl; [congruence|lia]).
  replace (S (length l - 1)) with (length l) by lia.
  rewrite firstn_all. reflexivity.
Qed.

Lemma Forall_firstn_skipn {A : Type} (P : A -> Prop) (n : nat) (l : list A) :
  Forall P l -> Forall P (firstn n l) /\ Forall P (skipn n l).
Proof.
  intros H. rewrite <- (firstn_skipn n l) in H.
  apply Forall_app in H. exact H.
Qed.

Lemma cumulative_weight_mono (l : list Q) (p q : nat) :
  Forall (fun w => 0 <= w) l -> (p <= q)%nat ->
  cumulative_weight l p <= cumulative_weight l q.
Proof.
  intros Hpos Hpq. unfold cumulative_weight.
  replace (S q) with (S p + (q - p))%nat by lia.
  rewrite <- (firstn_skipn (S p) (firstn (S p + (q - p)) l)).
  rewrite firstn_firstn.
  replace (Nat.min (S p) (S p + (q - p))) with (S p) by lia.
  rewrite Qsum_app.
  assert (0 <= Qsum (skipn (S p) (firstn (S p + (q - p)) l))) as Hrest.
  { apply Qsum_nonneg.
    apply Forall_firstn_skipn. apply Forall_firstn_skipn. exact Hpos. }
  lra.
Qed.

Lemma cumsum_ascending (l : list Q) :
  Forall (fun w => 0 <= w) l -> ascending (Np.cumsum l).
Proof.
  intros Hpos p q [Hpq Hq]. rewrite cumsum_length in Hq.
  rewrite !cumsum_nth by lia.
  apply cumulative_weight_mono; assumption.
Qed.

(** ** Binary search *)

Lemma binsearch_left_step (fuel : nat) (a : list Q) (key : Q) (lo hi : nat) :
  Np.binsearch_left (S fuel) a key lo hi =
  if (lo <? hi)%nat then
    if Qltb (nth (lo + (hi - lo) / 2) a 0) key
    then Np.binsearch_left fuel a key (lo + (hi - lo) / 2 + 1) hi
    else Np.binsearch_left fuel a key lo (lo + (hi - lo) / 2)
  else lo.
Proof. reflexivity. Qed.

(** On an ascending array the binary search of [np.searchsorted] ends at the
    border between the items below the key and the others. *)
Lemma binsearch_left_spec (a : list Q) (key : Q) :
  ascending a ->
  forall fuel lo hi,
    (hi - lo <= fuel)%nat -> (lo <= hi <= length a)%nat ->
    (forall p, (p < lo)%nat -> nth p a 0 < key) ->
    (forall p, (hi <= p < length a)%nat -> key <= nth p a 0) ->
    (lo <= Np.binsearch_left fuel a key lo hi <= hi)%nat /\
    (forall p, (p < Np.binsearch_left fuel a key lo hi)%nat -> nth p a 0 < key) /\
    (forall p, (Np.binsearch_left fuel a key lo hi <= p < length a)%nat -> key <= nth p a 0).
Proof.
  intros Hasc. induction fuel as [|fuel IH]; intros lo hi Hfuel Hwin Hlow Hhigh.
  - simpl. assert (hi = lo) by lia. subst hi.
    split; [lia|]. split; assumption.
  - rewrite binsearch_left_step. destruct (lo <? hi)%nat eqn:Hlt.
    + apply Nat.ltb_lt in Hlt.
      assert (lo <= lo + (hi - lo) / 2 < hi)%nat as Hmid.
      { pose proof (Nat.div_lt (hi - lo) 2). lia. }
      set (mid := (lo + (hi - lo) / 2)%nat) in *.
      destruct (Qltb (nth mid a 0) key) eqn:Hcmp.
      * apply Qltb_lt in Hcmp.
        destruct (IH (mid + 1)%nat hi) as (Hk & Hl & Hh); try lia.
        { intros p Hp. apply Qle_lt_trans with (nth mid a 0); [|exact Hcmp].
          apply Hasc. lia. }
        { exact Hhigh. }
        split; [lia|]. split; assumption.
      * apply Qltb_ge in Hcmp.
        destruct (IH lo mid) as (Hk & Hl & Hh); try lia.
        { exact Hlow. }
        { intros p Hp. apply Qle_trans with (nth mid a 0); [exact Hcmp|].
          apply Hasc. lia. }
        split; [lia|]. split; assumption.
    + apply Nat.ltb_ge in Hlt. assert (hi = lo) by lia. subst hi.
      split; [lia|]. split; assumption.
Qed.

Lemma searchsorted_spec (a : list Q) (key : Q) :
  ascending a ->
  (Np.searchsorted a key <= length a)%nat /\
  (forall p, (p < Np.searchsorted a key)%nat -> nth p a 0 < key) /\
  (forall p, (Np.searchsorted a key <= p < length a)%nat -> key <= nth p a 0).
Proof.
  intros Hasc. unfold Np.searchsorted.
  destruct (binsearch_left_spec a key Hasc (length a) 0%nat (length a))
    as (Hk & Hl & Hh); try lia.
  split; [lia|]. split; assumption.
Qed.

(** ** Consequences of the argsort contract *)

Lemma sorted_by_seq (a : list Q) : sorted_by (seq 0 (length a)) a = a.
Proof.
  unfold sorted_by. apply nth_ext with (d := 0) (d' := 0).
  - rewrite length_map, length_seq. reflexivity.
  - intros n Hn. rewrite length_map, length_seq in Hn.
    rewrite (nth_indep _ 0 (nth 0 a 0)) by (rewrite length_map, length_seq; exact Hn).
    rewrite (map_nth (fun j => nth j a 0)).
    rewrite seq_nth by exact Hn. reflexivity.
Qed.

Lemma sorted_by_permutation (i : list nat) (a : list Q) :
  Permutation i (seq 0 (length a)) -> Permutation (sorted_by i a) a.
Proof.
  intros H. rewrite <- (sorted_by_seq a) at 2.
  apply Permutation_map. exact H.
Qed.

Lemma argsort_length (values : list Q) (i : list nat) :
  is_argsort values i -> length i = length values.
Proof.
  intros [Hperm _]. apply Permutation_length in Hperm.
  rewrite length_seq in Hperm. exact Hperm.
Qed.

Lemma argsort_in_range (values : list Q) (i : list nat) :
  is_argsort values i -> Forall (fun j => (j < length values)%nat) i.
Proof.
  intros [Hperm _]. apply Forall_forall. intros j Hj.
  apply (Permutation_in _ Hperm) in Hj. apply in_seq in Hj. lia.
Qed.

(** Weights of the same length are reordered along with the values. *)
Lemma argsort_weights_permutation (values weights : list Q) (i : list nat) :
  is_argsort values i -> length weights = length values ->
  Permutation (sorted_by i weights) weights.
Proof.
  intros [Hperm _] Hlen. apply sorted_by_permutation. rewrite Hlen. exact Hperm.
Qed.

Lemma ascendingb_sound (l : list Q) : ascendingb l = true -> ascending l.
Proof.
  induction l as [|x l IH]; intros H p q [Hpq Hq]; simpl in Hq; [lia|].
  destruct l as [|y l].
  - assert (p = 0 /\ q = 0)%nat as [-> ->] by (simpl in Hq; lia). apply Qle_refl.
  - simpl in H. apply andb_prop in H. destruct H as [Hxy Hrest].
    apply Qle_bool_iff in Hxy. specialize (IH Hrest).
    destruct p as [|p], q as [|q]; try lia.
    + apply Qle_refl.
    + apply Qle_trans with y; [exact Hxy|].
      change (nth (S q) (x :: y :: l) 0) with (nth q (y :: l) 0).
      apply (IH 0%nat q). simpl in *. lia.
    + change (nth (S p) (x :: y :: l) 0) with (nth p (y :: l) 0).
      change (nth (S q) (x :: y :: l) 0) with (nth q (y :: l) 0).
      apply IH. simpl in *. lia.
Qed.

(** The executable check decides the contract soundly. *)
Lemma is_argsortb_sound (values : list Q) (i : list nat) :
  is_argsortb values i = true -> is_argsort values i.
Proof.
  unfold is_argsortb. intros H.
  apply andb_prop in H. destruct H as [H Hasc].
  apply andb_prop in H. destruct H as [Hlen Hall].
  apply Nat.eqb_eq in Hlen. split.
  - apply Permutation_sym. apply NoDup_Permutation_bis.
    + apply seq_NoDup.
    + rewrite length_seq. lia.
    + intros j Hj. rewrite forallb_forall in Hall.
      specialize (Hall j Hj). apply existsb_exists in Hall.
      destruct Hall as (j' & Hin & Heq). apply Nat.eqb_eq in Heq. subst j'. exact Hin.
  - apply ascendingb_sound. exact Hasc.
Qed.

(** ** One run of weighted_median, step by step *)

Lemma sorted_by_nth (i : list nat) (a : list Q) (k : nat) :
  (k < length i)%nat -> nth k (sorted_by i a) 0 = nth (nth k i 0%nat) a 0.
Proof.
  intros Hk. unfold sorted_by.
  rewrite (nth_indep _ 0 (nth 0%nat a 0)) by (rewrite length_map; exact Hk).
  apply (map_nth (fun j => nth j a 0)).
Qed.

Lemma nonempty_length {A : Type} (l : list A) : l <> [] <-> (0 < length l)%nat.
Proof.
  destruct l; simpl; split; intros H; try congruence; lia.
Qed.

Section Run.

Variable argsort : list Q -> list nat.
Variables values weights : list Q.

Hypothesis values_nonempty : values <> [].
Hypothesis same_length : length weights = length values.
Hypothesis weights_nonneg : Forall (fun w => 0 <= w) weights.
Hypothesis argsort_ok : is_argsort values (argsort values).

Let i := argsort values.
Let sw := sorted_by i weights.
Let c := Np.cumsum sw.
Let total := nth (length c - 1) c 0.
Let k := Np.searchsorted c ((1 # 2) * total).

Lemma run_take : Np.take weights i = Ret sw.
Proof.
  apply take_in_range. rewrite same_length. apply argsort_in_range. exact argsort_ok.
Qed.

Lemma run_lengths : length i = length values /\ length sw = length values /\ length c = length values.
Proof.
  assert (length i = length values) as Hi by (apply argsort_length; exact argsort_ok).
  unfold c, sw. rewrite cumsum_length, sorted_by_length. auto.
Qed.

Lemma run_sorted_weights_nonneg : Forall (fun w => 0 <= w) sw.
Proof.
  refine (@Permutation_Forall _ _ weights sw _ weights_nonneg).
  apply Permutation_sym.
  apply (argsort_weights_permutation values weights i argsort_ok same_length).
Qed.

Lemma run_total : Np.getitem c (-1) = Ret total /\ total == Qsum weights.
Proof.
  destruct run_lengths as (Hi & Hsw & Hc).
  apply nonempty_length in values_nonempty as Hn.
  split.
  - apply getitem_last_nonempty. apply nonempty_length. lia.
  - unfold total. rewrite Hc. unfold c. rewrite cumsum_nth by lia.
    rewrite <- Hsw. rewrite cumulative_weight_last by (apply nonempty_length; lia).
    apply Qsum_permutation.
    apply (argsort_weights_permutation values weights i argsort_ok same_length).
Qed.

(** The position found is the first one whose cumulative weight reaches
    half of the total weight, and it is a position of the array. *)
Lemma run_position :
  (k < length values)%nat /\
  (1 # 2) * Qsum weights <= cumulative_weight sw k /\
  (forall p, (p < k)%nat -> cumulative_weight sw p < (1 # 2) * Qsum weights).
Proof.
  destruct run_lengths as (Hi & Hsw & Hc).
  destruct run_total as (_ & Htotal).
  apply nonempty_length in values_nonempty as Hn.
  pose proof (cumsum_ascending sw run_sorted_weights_nonneg) as Hasc.
  destruct (searchsorted_spec c ((1 # 2) * total) Hasc) as (Hle & Hlow & Hhigh).
  fold k in Hle, Hlow, Hhigh. rewrite Hc in Hle, Hhigh.
  pose proof (Qsum_nonneg weights weights_nonneg) as Hsum.
  assert (k < length values)%nat as Hk.
  { destruct (Nat.eq_dec k (length values)) as [E|E]; [|lia].
    exfalso. specialize (Hlow (length values - 1)%nat ltac:(lia)).
    fold total in Hlow. rewrite <- Hc in Hlow at 1. fold total in Hlow. lra. }
  split; [exact Hk|]. split.
  - specialize (Hhigh k ltac:(lia)). unfold c in Hhigh.
    rewrite cumsum_nth in Hhigh by lia. lra.
  - intros p Hp. specialize (Hlow p Hp). unfold c in Hlow.
    rewrite cumsum_nth in Hlow by lia. lra.
Qed.

Lemma run_result :
  Np.getitem i (Z.of_nat k) = Ret (nth k i 0%nat) /\
  (nth k i 0 < length values)%nat /\
  weighted_median argsort values weights = Ret (nth (nth k i 0%nat) values 0).
Proof.
  destruct run_lengths as (Hi & Hsw & Hc).
  destruct run_position as (Hk & _).
  destruct run_total as (Hget & _).
  assert (nth k i 0 < length values)%nat as Hj.
  { pose proof (argsort_in_range values i argsort_ok) as Hall.
    rewrite Forall_forall in Hall. apply Hall. apply nth_In. lia. }
  assert (Np.getitem i (Z.of_nat k) = Ret (nth k i 0%nat)) as Hgi
    by (apply getitem_nat_lt; lia).
  split; [exact Hgi|]. split; [exact Hj|].
  unfold weighted_median. fold i. rewrite run_take. cbn [bind]. fold c.
  rewrite Hget. cbn [bind]. fold k. rewrite Hgi. cbn [bind].
  apply getitem_nat_lt. exact Hj.
Qed.

End Run.

(** ** The order of float64 items *)

(** A mantissa of [d] binary digits lies between 2^(d-1) and 2^d. *)
Lemma digits2_pos_bounds (m : positive) :
  (2 ^ (Z.pos (digits2_pos m) - 1) <= Z.pos m < 2 ^ Z.pos (digits2_pos m))%Z.
Proof.
  induction m as [m IH|m IH|]; cbn [digits2_pos].
  - rewrite Pos2Z.inj_succ.
    replace (Z.succ (Z.pos (digits2_pos m)) - 1)%Z with (Z.succ (Z.pos (digits2_pos m) - 1))%Z by lia.
    rewrite !Z.pow_succ_r by lia. lia.
  - rewrite Pos2Z.inj_succ.
    replace (Z.succ (Z.pos (digits2_pos m)) - 1)%Z with (Z.succ (Z.pos (digits2_pos m) - 1))%Z by lia.
    rewrite !Z.pow_succ_r by lia. lia.
  - cbn. lia.
Qed.

Lemma bounded_facts (m : positive) (e : Z) :
  bounded prec emax m e = true ->
  (-1074 <= e <= 971)%Z /\
  (Z.pos m < 2 ^ 53)%Z /\
  (-1074 < e -> 2 ^ 52 <= Z.pos m)%Z.
Proof.
  unfold bounded, canonical_mantissa, fexp, SpecFloat.emin, prec, emax.
  intros H. apply andb_true_iff in H. destruct H as [Hc He].
  apply Z.eqb_eq in Hc. apply Z.leb_le in He.
  pose proof (digits2_pos_bounds m) as [Hlo Hhi].
  assert (Z.pos (digits2_pos m) <= 53)%Z as Hd by lia.
  split; [lia|]. split.
  - eapply Z.lt_le_trans; [exact Hhi|]. apply Z.pow_le_mono_r; lia.
  - intros Hgt. assert (Z.pos (digits2_pos m) = 53)%Z as Hd53 by lia.
    rewrite Hd53 in Hlo. exact Hlo.
Qed.

Lemma finite_scaled_lt (m1 m2 : positive) (e1 e2 : Z) :
  bounded prec emax m1 e1 = true -> bounded prec emax m2 e2 = true ->
  (e1 < e2)%Z ->
  (Z.pos m1 * 2 ^ (e1 + 1074) < Z.pos m2 * 2 ^ (e2 + 1074))%Z.
Proof.
  intros H1 H2 Hlt.
  destruct (bounded_facts m1 e1 H1) as (He1 & Hm1 & _).
  destruct (bounded_facts m2 e2 H2) as (He2 & _ & Hm2).
  specialize (Hm2 ltac:(lia)).
  assert (0 < 2 ^ (e1 + 1074))%Z as Hp1 by (apply Z.pow_pos_nonneg; lia).
  assert (0 < 2 ^ (e2 + 1074))%Z as Hp2 by (apply Z.pow_pos_nonneg; lia).
  apply Z.lt_le_trans with (2 ^ 53 * 2 ^ (e1 + 1074))%Z.
  - apply Z.mul_lt_mono_pos_r; assumption.
  - apply Z.le_trans with (2 ^ 52 * 2 ^ (e2 + 1074))%Z.
    + rewrite <- !Z.pow_add_r by lia. apply Z.pow_le_mono_r; lia.
    + apply Z.mul_le_mono_nonneg_r; [lia|exact Hm2].
Qed.

Lemma finite_scaled_compare (m1 m2 : positive) (e1 e2 : Z) :
  bounded prec emax m1 e1 = true -> bounded prec emax m2 e2 = true ->
  match (e1 ?= e2)%Z with
  | Eq => PosDef.Pos.compare_cont Eq m1 m2
  | Lt => Lt
  | Gt => Gt
  end = (Z.pos m1 * 2 ^ (e1 + 1074) ?= Z.pos m2 * 2 ^ (e2 + 1074))%Z.
Proof.
  intros H1 H2. symmetry. destruct (Z.compare_spec e1 e2) as [Heq|Hlt|Hgt].
  - subst e2. destruct (bounded_facts m1 e1 H1) as (He1 & _).
    assert (0 < 2 ^ (e1 + 1074))%Z as Hp by (apply Z.pow_pos_nonneg; lia).
    change (PosDef.Pos.compare_cont Eq m1 m2) with (Z.pos m1 ?= Z.pos m2)%Z.
    destruct (Z.compare_spec (Z.pos m1) (Z.pos m2)) as [Hm|Hm|Hm].
    + rewrite Hm. apply Z.compare_refl.
    + apply Z.compare_lt_iff. apply Z.mul_lt_mono_pos_r; assumption.
    + apply Z.compare_gt_iff. apply Z.mul_lt_mono_pos_r; assumption.
  - apply Z.compare_lt_iff. apply finite_scaled_lt; assumption.
  - apply Z.compare_gt_iff. apply finite_scaled_lt; assumption.
Qed.

Lemma finite_scaled_below_infinity (m : positive) (e : Z) :
  bounded prec emax m e = true ->
  (Z.pos m * 2 ^ (e + 1074) < 2 ^ 2098)%Z.
Proof.
  intros H. destruct (bounded_facts m e H) as (He & Hm & _).
  assert (0 < 2 ^ (e + 1074))%Z as Hp by (apply Z.pow_pos_nonneg; lia).
  apply Z.lt_le_trans with (2 ^ 53 * 2 ^ (e + 1074))%Z.
  - apply Z.mul_lt_mono_pos_r; assumption.
  - rewrite <- Z.pow_add_r by lia. apply Z.pow_le_mono_r; lia.
Qed.

Lemma SFltb_scaled (a b : spec_float) :
  valid_binary a = true -> valid_binary b = true ->
  a <> S754_nan -> b <> S754_nan ->
  SFltb a b = (SF_scaled a <? SF_scaled b)%Z.
Proof.
  intros Ha Hb Hna Hnb. unfold SFltb.
  assert (0 < 2 ^ 2098)%Z as Hinf by (apply Z.pow_pos_nonneg; lia).
  destruct a as [sa|sa| |sa ma ea], b as [sb|sb| |sb mb eb];
    try congruence; cbn [SFcompare SF_scaled valid_binary] in *.
  - reflexivity.
  - destruct sb; symmetry; [apply Z.ltb_ge|apply Z.ltb_lt]; lia.
  - pose proof (bounded_facts mb eb Hb) as (He & _).
    assert (0 < 2 ^ (eb + 1074))%Z as Hp by (apply Z.pow_pos_nonneg; lia).
    destruct sb; symmetry; [apply Z.ltb_ge|apply Z.ltb_lt]; nia.
  - destruct sa; symmetry; [apply Z.ltb_lt|apply Z.ltb_ge]; lia.
  - destruct sa, sb; symmetry; try (apply Z.ltb_ge; lia); apply Z.ltb_lt; lia.
  - pose proof (finite_scaled_below_infinity mb eb Hb).
    pose proof (bounded_facts mb eb Hb) as (He & _).
    assert (0 < 2 ^ (eb + 1074))%Z as Hp by (apply Z.pow_pos_nonneg; lia).
    destruct sa, sb; symmetry; try (apply Z.ltb_ge; nia); apply Z.ltb_lt; nia.
  - pose proof (bounded_facts ma ea Ha) as (He & _).
    assert (0 < 2 ^ (ea + 1074))%Z as Hp by (apply Z.pow_pos_nonneg; lia).
    destruct sa; symmetry; [apply Z.ltb_lt|apply Z.ltb_ge]; nia.
  - pose proof (finite_scaled_below_infinity ma ea Ha).
    pose proof (bounded_facts ma ea Ha) as (He & _).
    assert (0 < 2 ^ (ea + 1074))%Z as Hp by (apply Z.pow_pos_nonneg; lia).
    destruct sa, sb; symmetry; try (apply Z.ltb_ge; nia); apply Z.ltb_lt; nia.
  - pose proof (finite_scaled_compare ma mb ea eb Ha Hb) as Hc.
    pose proof (finite_scaled_compare mb ma eb ea Hb Ha) as Hc'.
    pose proof (bounded_facts ma ea Ha) as (Hea & _).
    pose proof (bounded_facts mb eb Hb) as (Heb & _).
    assert (0 < 2 ^ (ea + 1074))%Z as Hpa by (apply Z.pow_pos_nonneg; lia).
    assert (0 < 2 ^ (eb + 1074))%Z as Hpb by (apply Z.pow_pos_nonneg; lia).
    destruct sa, sb.
    + assert (match (ea ?= eb)%Z with
              | Eq => CompOpp (PosDef.Pos.compare_cont Eq ma mb)
              | Lt => Gt
              | Gt => Lt
              end =
              CompOpp (match (ea ?= eb)%Z with
                       | Eq => PosDef.Pos.compare_cont Eq ma mb
                       | Lt => Lt
                       | Gt => Gt
                       end)) as Hopp by (destruct (ea ?= eb)%Z; reflexivity).
      rewrite Hopp, Hc.
      replace (Z.neg ma * 2 ^ (ea + 1074))%Z with (- (Z.pos ma * 2 ^ (ea + 1074)))%Z by lia.
      replace (Z.neg mb * 2 ^ (eb + 1074))%Z with (- (Z.pos mb * 2 ^ (eb + 1074)))%Z by lia.
      unfold Z.ltb. rewrite Z.compare_opp.
      rewrite (Z.compare_antisym (Z.pos ma * 2 ^ (ea + 1074))). reflexivity.
    + symmetry. apply Z.ltb_lt. nia.
    + symmetry. apply Z.ltb_ge. nia.
    + rewrite Hc. unfold Z.ltb. reflexivity.
Qed.

Lemma Qpower_two_scaled (e : Z) :
  (-1074 <= e)%Z -> Qpower 2 e * inject_Z (2 ^ 1074) == inject_Z (2 ^ (e + 1074)).
Proof.
  intros He. rewrite !Zpower_Qpower by lia.
  change (inject_Z 2) with 2. rewrite Qpower_plus by discriminate. reflexivity.
Qed.

Lemma SF_value_scaled (x : spec_float) :
  valid_binary x = true ->
  SF_value x * inject_Z (2 ^ 1074) == inject_Z (SF_scaled x).
Proof.
  intros Hv. destruct x as [s|s| |s m e]; cbn [SF_value SF_scaled].
  - ring.
  - assert (inject_Z (2 ^ 1024) * inject_Z (2 ^ 1074) == inject_Z (2 ^ 2098)) as H.
    { rewrite <- inject_Z_mult, <- Z.pow_add_r by lia. reflexivity. }
    destruct s; [|exact H]. rewrite inject_Z_opp, <- H. ring.
  - ring.
  - cbn [valid_binary] in Hv. destruct (bounded_facts m e Hv) as (He & _).
    rewrite inject_Z_mult, <- Qpower_two_scaled by lia. ring.
Qed.

Lemma Qltb_compat (x y x' y' : Q) : x == x' -> y == y' -> Qltb x y = Qltb x' y'.
Proof.
  intros Hx Hy. unfold Qltb. f_equal.
  destruct (Qle_bool y x) eqn:E, (Qle_bool y' x') eqn:E'; try reflexivity.
  - apply Qle_bool_iff in E. rewrite Hx, Hy in E. apply Qle_bool_iff in E. congruence.
  - apply Qle_bool_iff in E'. rewrite <- Hx, <- Hy in E'. apply Qle_bool_iff in E'. congruence.
Qed.

Lemma Qltb_value_scaled (a b : spec_float) :
  valid_binary a = true -> valid_binary b = true ->
  Qltb (SF_value a) (SF_value b) = (SF_scaled a <? SF_scaled b)%Z.
Proof.
  intros Ha Hb.
  pose proof (SF_value_scaled a Ha) as Ea. pose proof (SF_value_scaled b Hb) as Eb.
  assert (0 < inject_Z (2 ^ 1074)) as Hk.
  { rewrite <- (Zlt_Qlt 0). apply Z.pow_pos_nonneg; lia. }
  apply eq_true_iff_eq. rewrite Qltb_lt, Z.ltb_lt, Zlt_Qlt, <- Ea, <- Eb.
  split; intros H.
  - apply Qmult_lt_compat_r; assumption.
  - apply Qmult_lt_r in H; assumption.
Qed.

Lemma Prim2SF_not_nan (x : float) : is_nan x = false -> Prim2SF x <> S754_nan.
Proof.
  intros H. unfold Prim2SF. rewrite H.
  destruct (is_zero x); [discriminate|].
  destruct (is_infinity x); [discriminate|].
  destruct (Z.frexp x) as [r e].
  destruct (shr_fexp prec emax (Uint63Axioms.to_Z (normfr_mantissa r)) (e - prec) loc_Exact) as [sh e'].
  destruct (shr_m sh); discriminate.
Qed.

Lemma float_ltb_value (x y : float) :
  is_nan x = false -> is_nan y = false ->
  (x <? y)%float = Qltb (float_value x) (float_value y).
Proof.
  intros Hx Hy. unfold float_value.
  rewrite ltb_spec, Qltb_value_scaled by apply Prim2SF_valid.
  apply SFltb_scaled; try apply Prim2SF_valid; apply Prim2SF_not_nan; assumption.
Qed.


(** NumPy's order on float64 items. *)

Lemma float64_ltb_nan_l (x y : float) : PrimFloat.is_nan x = true -> PrimFloat.ltb x y = false.
Proof.
  intros H. rewrite ltb_spec. unfold Prim2SF at 1. rewrite H. reflexivity.
Qed.

Lemma float64_less_value (x y : float) :
  PrimFloat.is_nan x = false -> PrimFloat.is_nan y = false ->
  Dtype.float64_less x y = Qltb (float_value x) (float_value y).
Proof.
  intros Hx Hy. unfold Dtype.float64_less. rewrite Hy. cbn [andb].
  rewrite orb_false_r. apply float_ltb_value; assumption.
Qed.

Lemma weak_order_exact : weak_order Dtype.exact.
Proof.
  intros a b key Hba Hbk. cbn in *.
  apply Qltb_ge in Hba. apply Qltb_lt in Hbk. apply Qltb_lt.
  apply Qle_lt_trans with b; assumption.
Qed.

Lemma weak_order_float64 : weak_order Dtype.float64.
Proof.
  intros a b key Hba Hbk. cbn in *. unfold Dtype.float64_less in *.
  destruct (PrimFloat.is_nan b) eqn:Nb.
  - rewrite float64_ltb_nan_l in Hbk by exact Nb.
    cbn in Hbk. rewrite andb_false_r in Hbk. discriminate.
  - cbn [negb] in *. rewrite andb_true_r in *.
    apply orb_false_elim in Hba. destruct Hba as [Hlt Na].
    rewrite Na. cbn [negb]. rewrite andb_true_r.
    destruct (PrimFloat.is_nan key) eqn:Nk; [apply orb_true_r|].
    rewrite orb_false_r in *.
    rewrite float_ltb_value in * by assumption.
    apply Qltb_ge in Hlt. apply Qltb_lt in Hbk. apply Qltb_lt.
    apply Qle_lt_trans with (float_value b); assumption.
Qed.

(** ** Rounding of float64 additions and halvings *)

(** IEEE 754 rounding to nearest, as the specification of the primitive
    floats computes it: the mantissa is shifted right to the exponent of
    the result, rounded by the bits shifted out, and shifted once more when
    rounding has carried into a new digit. *)

Section Rounding.

Local Open Scope Z_scope.

Lemma shr_1_m (mrs : shr_record) :
  0 <= shr_m mrs -> shr_m (shr_1 mrs) = shr_m mrs / 2.
Proof.
  destruct mrs as [m r s]. cbn [shr_m]. intros Hm.
  destruct m as [|[p|p|]|p]; cbn [shr_1 shr_m].
  - reflexivity.
  - rewrite Pos2Z.inj_xI. apply (Z.div_unique _ _ _ 1); lia.
  - rewrite Pos2Z.inj_xO. apply (Z.div_unique _ _ _ 0); lia.
  - reflexivity.
  - lia.
Qed.

Lemma shr_1_exact (mrs : shr_record) :
  0 <= shr_m mrs ->
  shr_r mrs = false -> shr_s mrs = false -> shr_m mrs mod 2 = 0 ->
  shr_r (shr_1 mrs) = false /\ shr_s (shr_1 mrs) = false.
Proof.
  destruct mrs as [m r s]. cbn [shr_m shr_r shr_s]. intros Hm -> -> Hmod.
  destruct m as [|[p|p|]|p]; cbn [shr_1 shr_r shr_s orb].
  - split; reflexivity.
  - exfalso. rewrite Pos2Z.inj_xI in Hmod.
    rewrite Z.add_comm, Z.mul_comm, Z.mod_add in Hmod by lia. discriminate.
  - split; reflexivity.
  - discriminate.
  - lia.
Qed.

Lemma shr_1_nonneg (mrs : shr_record) : 0 <= shr_m mrs -> 0 <= shr_m (shr_1 mrs).
Proof. intros H. rewrite shr_1_m by exact H. apply Z.div_pos; lia. Qed.

Lemma iter_pos_shr_1 (p : positive) :
  forall mrs, 0 <= shr_m mrs ->
    shr_m (SpecFloat.iter_pos shr_1 p mrs) = shr_m mrs / 2 ^ Z.pos p /\
    (shr_r mrs = false -> shr_s mrs = false -> shr_m mrs mod 2 ^ Z.pos p = 0 ->
     shr_r (SpecFloat.iter_pos shr_1 p mrs) = false /\ shr_s (SpecFloat.iter_pos shr_1 p mrs) = false).
Proof.
  induction p as [p IH|p IH|]; intros mrs Hm; cbn [SpecFloat.iter_pos].
  - assert (2 ^ Z.pos p~1 = 2 * (2 ^ Z.pos p * 2 ^ Z.pos p)) as Hpow.
    { rewrite (Pos2Z.inj_xI p), Z.pow_add_r, Z.pow_1_r by lia.
      replace (2 * Z.pos p) with (Z.pos p + Z.pos p) by lia.
      rewrite Z.pow_add_r by lia. lia. }
    assert (0 < 2 ^ Z.pos p) as Hp by (apply Z.pow_pos_nonneg; lia).
    pose proof (shr_1_nonneg mrs Hm) as H1.
    destruct (IH (shr_1 mrs) H1) as (Ha & Hax).
    assert (0 <= shr_m (SpecFloat.iter_pos shr_1 p (shr_1 mrs))) as H2
      by (rewrite Ha; apply Z.div_pos; lia).
    destruct (IH _ H2) as (Hb & Hbx).
    split.
    + rewrite Hb, Ha, shr_1_m, Hpow by exact Hm.
      rewrite !Z.div_div by lia. reflexivity.
    + intros Hr Hs Hmod. rewrite Hpow in Hmod.
      apply Z.mod_divide in Hmod; [|lia]. destruct Hmod as (k & Hk).
      destruct (shr_1_exact mrs Hm Hr Hs) as (Hr1 & Hs1).
      { apply Z.mod_divide; [lia|]. exists (k * (2 ^ Z.pos p * 2 ^ Z.pos p)). lia. }
      assert (shr_m (shr_1 mrs) = k * 2 ^ Z.pos p * 2 ^ Z.pos p) as Hq.
      { rewrite shr_1_m by exact Hm. rewrite Hk.
        replace (k * (2 * (2 ^ Z.pos p * 2 ^ Z.pos p))) with (k * 2 ^ Z.pos p * 2 ^ Z.pos p * 2) by lia.
        apply Z.div_mul. lia. }
      destruct Hax as (Hr2 & Hs2); [exact Hr1|exact Hs1| |].
      { rewrite Hq. apply Z.mod_mul. lia. }
      apply Hbx; [exact Hr2|exact Hs2|].
      rewrite Ha, Hq, Z.div_mul by lia. apply Z.mod_mul. lia.
  - assert (2 ^ Z.pos p~0 = 2 ^ Z.pos p * 2 ^ Z.pos p) as Hpow.
    { rewrite (Pos2Z.inj_xO p).
      replace (2 * Z.pos p) with (Z.pos p + Z.pos p) by lia.
      rewrite Z.pow_add_r by lia. lia. }
    assert (0 < 2 ^ Z.pos p) as Hp by (apply Z.pow_pos_nonneg; lia).
    destruct (IH mrs Hm) as (Ha & Hax).
    assert (0 <= shr_m (SpecFloat.iter_pos shr_1 p mrs)) as H2
      by (rewrite Ha; apply Z.div_pos; lia).
    destruct (IH _ H2) as (Hb & Hbx).
    split.
    + rewrite Hb, Ha, Hpow. rewrite !Z.div_div by lia. reflexivity.
    + intros Hr Hs Hmod. rewrite Hpow in Hmod.
      apply Z.mod_divide in Hmod; [|lia]. destruct Hmod as (k & Hk).
      destruct Hax as (Hr2 & Hs2); [exact Hr|exact Hs| |].
      { rewrite Hk. rewrite Z.mul_assoc. apply Z.mod_mul. lia. }
      apply Hbx; [exact Hr2|exact Hs2|].
      rewrite Ha, Hk, Z.mul_assoc, Z.div_mul by lia. apply Z.mod_mul. lia.
  - split.
    + rewrite shr_1_m by exact Hm. reflexivity.
    + intros Hr Hs Hmod. apply shr_1_exact; assumption.
Qed.

Lemma fexp_eq (z : Z) : fexp prec emax z = Z.max (z - 53) (-1074).
Proof. reflexivity. Qed.

Lemma round_nearest_even_bounds (m : Z) (l : location) :
  m <= round_nearest_even m l <= m + 1 /\
  (l = loc_Exact -> round_nearest_even m l = m).
Proof.
  destruct l as [|[| |]]; cbn [round_nearest_even]; try (split; [lia|intros; congruence]).
  destruct (Z.even m); split; try lia; intros; congruence.
Qed.

Lemma loc_of_exact_record (mrs : shr_record) :
  shr_r mrs = false -> shr_s mrs = false -> loc_of_shr_record mrs = loc_Exact.
Proof. destruct mrs as [m r s]. cbn. intros -> ->. reflexivity. Qed.

Lemma second_shift (m2 e' : Z) :
  0 <= m2 <= 2 ^ 53 -> -1074 <= e' ->
  (let '(mrs, e'') := shr_fexp prec emax m2 e' loc_Exact in
   match shr_m mrs with
   | Z0 => S754_zero false
   | Zpos m => if e'' <=? emax - prec then S754_finite false m e'' else S754_infinity false
   | Zneg _ => S754_nan
   end) = SF_pack m2 e'.
Proof.
  intros Hm He. unfold shr_fexp. rewrite fexp_eq.
  change (emax - prec) with 971.
  destruct m2 as [|q|q]; [| |lia].
  - cbn [Zdigits2 shr_record_of_loc]. unfold shr.
    destruct (Z.max (0 + e' - 53) (-1074) - e') eqn:E; try lia; reflexivity.
  - cbn [Zdigits2 shr_record_of_loc SF_pack].
    pose proof (digits2_pos_bounds q) as [Hlo Hhi].
    destruct (Z.pos q <? 2 ^ 53) eqn:Hlt.
    + apply Z.ltb_lt in Hlt.
      assert (Z.pos (digits2_pos q) <= 53) as Hd.
      { destruct (Z.le_gt_cases (Z.pos (digits2_pos q)) 53) as [H|H]; [exact H|].
        exfalso. assert (2 ^ 53 <= 2 ^ (Z.pos (digits2_pos q) - 1)) by (apply Z.pow_le_mono_r; lia).
        lia. }
      unfold shr.
      destruct (Z.max (Z.pos (digits2_pos q) + e' - 53) (-1074) - e') eqn:E; try lia; reflexivity.
    + apply Z.ltb_ge in Hlt. assert (Z.pos q = 2 ^ 53) as Hq by lia.
      change (2 ^ 53) with (Z.pos 9007199254740992) in Hq. injection Hq as ->.
      change (Z.pos (digits2_pos 9007199254740992)) with 54.
      replace (Z.max (54 + e' - 53) (-1074) - e') with 1 by lia.
      reflexivity.
Qed.

Lemma binary_round_aux_exact (m : positive) (e : Z) :
  let e' := fexp prec emax (Z.pos (digits2_pos m) + e) in
  0 <= e' - e ->
  exists m2 : Z,
    Z.pos m / 2 ^ (e' - e) <= m2 <= Z.pos m / 2 ^ (e' - e) + 1 /\
    (Z.pos m mod 2 ^ (e' - e) = 0 -> m2 = Z.pos m / 2 ^ (e' - e)) /\
    m2 <= 2 ^ 53 /\
    binary_round_aux prec emax false (Z.pos m) e loc_Exact = SF_pack m2 e'.
Proof.
  intros e' Hn.
  pose proof (digits2_pos_bounds m) as [Hlo Hhi].
  assert (-1074 <= e') as He' by (unfold e'; rewrite fexp_eq; lia).
  assert (Z.pos (digits2_pos m) - (e' - e) <= 53) as Hd
    by (unfold e'; rewrite fexp_eq; lia).
  assert (0 < 2 ^ (e' - e)) as Hpow by (apply Z.pow_pos_nonneg; lia).
  assert (Z.pos m / 2 ^ (e' - e) < 2 ^ 53) as Hm1.
  { apply Z.div_lt_upper_bound; [exact Hpow|].
    eapply Z.lt_le_trans; [exact Hhi|].
    rewrite <- Z.pow_add_r by lia. apply Z.pow_le_mono_r; lia. }
  assert (0 <= Z.pos m / 2 ^ (e' - e)) as Hm0 by (apply Z.div_pos; lia).
  unfold binary_round_aux.
  assert (exists mrs,
            shr_fexp prec emax (Z.pos m) e loc_Exact = (mrs, e') /\
            shr_m mrs = Z.pos m / 2 ^ (e' - e) /\
            (Z.pos m mod 2 ^ (e' - e) = 0 -> loc_of_shr_record mrs = loc_Exact)) as Hfirst.
  { unfold shr_fexp. cbn [Zdigits2 shr_record_of_loc]. fold e'. unfold shr.
    destruct (e' - e) as [|p|p] eqn:E; [| |lia].
    - eexists. split; [f_equal; lia|]. cbn [shr_m]. split.
      + rewrite Z.pow_0_r, Z.div_1_r. reflexivity.
      + intros _. reflexivity.
    - destruct (iter_pos_shr_1 p {| shr_m := Z.pos m; shr_r := false; shr_s := false |})
        as (Hq & Hx); [cbn; lia|].
      eexists. split; [f_equal; lia|]. split; [exact Hq|].
      intros Hmod. destruct (Hx eq_refl eq_refl Hmod) as (Hr & Hs).
      apply loc_of_exact_record; assumption. }
  destruct Hfirst as (mrs & -> & Hq & Hexact).
  destruct (round_nearest_even_bounds (shr_m mrs) (loc_of_shr_record mrs)) as (Hb & Hbx).
  exists (round_nearest_even (shr_m mrs) (loc_of_shr_record mrs)).
  split; [rewrite <- Hq; exact Hb|]. split; [|split].
  - intros Hmod. rewrite Hbx by (apply Hexact; exact Hmod). exact Hq.
  - lia.
  - apply second_shift; lia.
Qed.

Lemma SF_pack_scaled (m2 e' : Z) :
  0 <= m2 <= 2 ^ 53 -> -1074 <= e' -> (-1074 < e' -> 2 ^ 52 <= m2) ->
  SF_scaled (SF_pack m2 e') = Z.min (m2 * 2 ^ (e' + 1074)) (2 ^ 2098).
Proof.
  intros Hm He Hnorm.
  assert (0 < 2 ^ (e' + 1074)) as Hp by (apply Z.pow_pos_nonneg; lia).
  destruct m2 as [|q|q]; [| |lia]; cbn [SF_pack].
  - cbn [SF_scaled]. rewrite Z.min_l; [reflexivity|]. apply Z.pow_nonneg. lia.
  - destruct (Z.pos q <? 2 ^ 53) eqn:Hlt.
    + apply Z.ltb_lt in Hlt. destruct (e' <=? 971) eqn:Hle.
      * apply Z.leb_le in Hle. cbn [SF_scaled]. rewrite Z.min_l; [reflexivity|].
        apply Z.le_trans with (2 ^ 53 * 2 ^ (e' + 1074)).
        { apply Z.mul_le_mono_nonneg_r; lia. }
        rewrite <- Z.pow_add_r by lia. apply Z.pow_le_mono_r; lia.
      * apply Z.leb_gt in Hle. cbn [SF_scaled]. rewrite Z.min_r; [reflexivity|].
        apply Z.le_trans with (2 ^ 52 * 2 ^ (e' + 1074)).
        { rewrite <- Z.pow_add_r by lia. apply Z.pow_le_mono_r; lia. }
        apply Z.mul_le_mono_nonneg_r; [lia|]. apply Hnorm. lia.
    + apply Z.ltb_ge in Hlt. assert (Z.pos q = 2 ^ 53) as Hq by lia.
      rewrite Hq. destruct (e' + 1 <=? 971) eqn:Hle.
      * apply Z.leb_le in Hle. cbn [SF_scaled].
        assert (4503599627370496 * 2 ^ (e' + 1 + 1074) = 2 ^ 53 * 2 ^ (e' + 1074)) as Heq.
        { change 4503599627370496 with (2 ^ 52). rewrite <- !Z.pow_add_r by lia.
          f_equal. lia. }
        rewrite Heq. rewrite Z.min_l; [reflexivity|].
        rewrite <- Z.pow_add_r by lia. apply Z.pow_le_mono_r; lia.
      * apply Z.leb_gt in Hle. cbn [SF_scaled]. rewrite Z.min_r; [reflexivity|].
        rewrite <- Z.pow_add_r by lia. apply Z.pow_le_mono_r; lia.
Qed.

Lemma SF_pack_nonneg (m2 e' : Z) :
  0 <= m2 ->
  match SF_pack m2 e' with
  | S754_zero _ => True
  | S754_infinity s | S754_finite s _ _ => s = false
  | S754_nan => False
  end.
Proof.
  intros Hm. destruct m2 as [|q|q]; [exact I| |lia]. cbn [SF_pack].
  destruct (Z.pos q <? 2 ^ 53), (e' <=? 971), (e' + 1 <=? 971); reflexivity.
Qed.

(** Rounding a positive number: the result and where it lies. *)
Lemma round_exact_scaled (m : positive) (e : Z) :
  let e' := fexp prec emax (Z.pos (digits2_pos m) + e) in
  -1200 <= e -> 0 <= e' - e ->
  exists m2 : Z,
    binary_round_aux prec emax false (Z.pos m) e loc_Exact = SF_pack m2 e' /\
    0 <= m2 /\
    SF_scaled (SF_pack m2 e') = Z.min (m2 * 2 ^ (e' + 1074)) (2 ^ 2098) /\
    Z.pos m / 2 ^ (e' - e) <= m2 <= Z.pos m / 2 ^ (e' - e) + 1 /\
    (Z.pos m mod 2 ^ (e' - e) = 0 -> m2 = Z.pos m / 2 ^ (e' - e)) /\
    (-1074 < e' -> 2 ^ 52 <= Z.pos m / 2 ^ (e' - e)) /\
    -1074 <= e'.
Proof.
  intros e' He Hn.
  destruct (binary_round_aux_exact m e Hn) as (m2 & Hb & Hx & Hm2 & Hr).
  fold e' in Hb, Hx, Hr.
  pose proof (digits2_pos_bounds m) as [Hlo Hhi].
  assert (-1074 <= e') as He' by (unfold e'; rewrite fexp_eq; lia).
  assert (0 < 2 ^ (e' - e)) as Hpow by (apply Z.pow_pos_nonneg; lia).
  assert (0 <= Z.pos m / 2 ^ (e' - e)) as Hm0 by (apply Z.div_pos; lia).
  assert (-1074 < e' -> 2 ^ 52 <= Z.pos m / 2 ^ (e' - e)) as Hnorm.
  { intros Hgt. assert (e' - e = Z.pos (digits2_pos m) - 53) as En
      by (unfold e' in *; rewrite fexp_eq in *; lia).
    apply Z.div_le_lower_bound; [exact Hpow|].
    rewrite <- Z.pow_add_r by lia.
    replace (e' - e + 52) with (Z.pos (digits2_pos m) - 1) by lia. exact Hlo. }
  exists m2. split; [exact Hr|]. split; [lia|]. split; [|split; [exact Hb|split; [exact Hx|split; [exact Hnorm|exact He']]]].
  apply SF_pack_scaled; [lia|exact He'|]. intros Hgt. specialize (Hnorm Hgt). lia.
Qed.

Lemma round_lower (m : positive) (e : Z) (mx : positive) (ex : Z) :
  let e' := fexp prec emax (Z.pos (digits2_pos m) + e) in
  -1200 <= e -> 0 <= e' - e ->
  bounded prec emax mx ex = true ->
  Z.pos mx * 2 ^ (ex + 1200) <= Z.pos m * 2 ^ (e + 1200) ->
  Z.pos mx * 2 ^ (ex + 1074)
  <= SF_scaled (binary_round_aux prec emax false (Z.pos m) e loc_Exact).
Proof.
  intros e' He Hn Hx Hle.
  destruct (round_exact_scaled m e He Hn) as (m2 & Hr & Hm2 & Hs & Hb & _ & Hnorm & He').
  fold e' in Hr, Hs, Hb, Hnorm, He'. rewrite Hr, Hs.
  destruct (bounded_facts mx ex Hx) as (Hex & Hmx & _).
  apply Z.min_glb; [|apply Z.lt_le_incl; apply finite_scaled_below_infinity; exact Hx].
  assert (0 < 2 ^ (e + 1200)) as HA by (apply Z.pow_pos_nonneg; lia).
  assert (0 < 2 ^ (e' - e)) as Hpn by (apply Z.pow_pos_nonneg; lia).
  assert (0 < 2 ^ (e' + 1074)) as Hpe by (apply Z.pow_pos_nonneg; lia).
  destruct (Z.le_gt_cases e' ex) as [Hcase|Hcase].
  - assert (0 < 2 ^ (ex - e')) as Hpx by (apply Z.pow_pos_nonneg; lia).
    assert (2 ^ (ex + 1200) = 2 ^ (ex - e') * 2 ^ (e' - e) * 2 ^ (e + 1200)) as Hsplit.
    { rewrite <- !Z.pow_add_r by lia. f_equal. lia. }
    rewrite Hsplit, !Z.mul_assoc in Hle.
    apply Z.mul_le_mono_pos_r in Hle; [|exact HA].
    assert (Z.pos mx * 2 ^ (ex - e') <= Z.pos m / 2 ^ (e' - e)) as Hq.
    { apply Z.div_le_lower_bound; [exact Hpn|]. lia. }
    assert (2 ^ (ex + 1074) = 2 ^ (ex - e') * 2 ^ (e' + 1074)) as Hsplit'.
    { rewrite <- !Z.pow_add_r by lia. f_equal. lia. }
    rewrite Hsplit', Z.mul_assoc.
    apply Z.mul_le_mono_nonneg_r; lia.
  - specialize (Hnorm ltac:(lia)).
    apply Z.le_trans with (2 ^ 53 * 2 ^ (ex + 1074)).
    { apply Z.mul_le_mono_nonneg_r; [apply Z.pow_nonneg|]; lia. }
    apply Z.le_trans with (2 ^ 52 * 2 ^ (e' + 1074)).
    { rewrite <- !Z.pow_add_r by lia. apply Z.pow_le_mono_r; lia. }
    apply Z.mul_le_mono_nonneg_r; lia.
Qed.

Lemma round_upper (m : positive) (e : Z) (mx : positive) (ex : Z) :
  let e' := fexp prec emax (Z.pos (digits2_pos m) + e) in
  -1200 <= e -> 0 <= e' - e ->
  bounded prec emax mx ex = true ->
  Z.pos m * 2 ^ (e + 1200) <= Z.pos mx * 2 ^ (ex + 1200) ->
  SF_scaled (binary_round_aux prec emax false (Z.pos m) e loc_Exact)
  <= Z.pos mx * 2 ^ (ex + 1074).
Proof.
  intros e' He Hn Hx Hle.
  destruct (round_exact_scaled m e He Hn) as (m2 & Hr & Hm2 & Hs & Hb & Hexact & Hnorm & He').
  fold e' in Hr, Hs, Hb, Hexact, Hnorm, He'. rewrite Hr, Hs.
  destruct (bounded_facts mx ex Hx) as (Hex & Hmx & _).
  eapply Z.le_trans; [apply Z.le_min_l|].
  assert (0 < 2 ^ (e + 1200)) as HA by (apply Z.pow_pos_nonneg; lia).
  assert (0 < 2 ^ (e' - e)) as Hpn by (apply Z.pow_pos_nonneg; lia).
  assert (0 < 2 ^ (e' + 1074)) as Hpe by (apply Z.pow_pos_nonneg; lia).
  assert (0 < 2 ^ (ex + 1074)) as Hpx4 by (apply Z.pow_pos_nonneg; lia).
  set (m1 := Z.pos m / 2 ^ (e' - e)) in *.
  assert (Z.pos m = 2 ^ (e' - e) * m1 + Z.pos m mod 2 ^ (e' - e)) as Hdiv
    by (apply Z.div_mod; lia).
  assert (0 <= Z.pos m mod 2 ^ (e' - e) < 2 ^ (e' - e)) as Hmod
    by (apply Z.mod_pos_bound; exact Hpn).
  assert (m1 * 2 ^ (e' + 1200) <= Z.pos m * 2 ^ (e + 1200)) as Hfloor.
  { replace (e' + 1200) with ((e' - e) + (e + 1200)) by lia.
    rewrite Z.pow_add_r by lia. rewrite Z.mul_assoc.
    apply Z.mul_le_mono_nonneg_r; lia. }
  destruct (Z.le_gt_cases e' ex) as [Hcase|Hcase].
  - assert (0 < 2 ^ (ex - e')) as Hpx by (apply Z.pow_pos_nonneg; lia).
    assert (2 ^ (ex + 1200) = 2 ^ (ex - e') * 2 ^ (e' - e) * 2 ^ (e + 1200)) as Hsplit.
    { rewrite <- !Z.pow_add_r by lia. f_equal. lia. }
    rewrite Hsplit, !Z.mul_assoc in Hle.
    apply Z.mul_le_mono_pos_r in Hle; [|exact HA].
    assert (m2 <= Z.pos mx * 2 ^ (ex - e')) as Hq.
    { destruct (Z.eq_dec (Z.pos m mod 2 ^ (e' - e)) 0) as [E|E].
      - rewrite (Hexact E).
        apply Z.mul_le_mono_pos_r with (p := 2 ^ (e' - e)); [exact Hpn|]. lia.
      - assert (m1 < Z.pos mx * 2 ^ (ex - e')) as Hlt.
        { apply Z.mul_lt_mono_pos_r with (p := 2 ^ (e' - e)); [exact Hpn|]. lia. }
        lia. }
    assert (2 ^ (ex + 1074) = 2 ^ (ex - e') * 2 ^ (e' + 1074)) as Hsplit'.
    { rewrite <- !Z.pow_add_r by lia. f_equal. lia. }
    rewrite Hsplit', Z.mul_assoc.
    apply Z.mul_le_mono_nonneg_r; lia.
  - exfalso. specialize (Hnorm ltac:(lia)).
    assert (0 < 2 ^ (ex + 1200)) as Hpx2 by (apply Z.pow_pos_nonneg; lia).
    assert (Z.pos mx * 2 ^ (ex + 1200) < 2 ^ 53 * 2 ^ (ex + 1200)) as H1
      by (apply Z.mul_lt_mono_pos_r; lia).
    assert (2 ^ 53 * 2 ^ (ex + 1200) <= 2 ^ 52 * 2 ^ (e' + 1200)) as H2.
    { rewrite <- !Z.pow_add_r by lia. apply Z.pow_le_mono_r; lia. }
    assert (2 ^ 52 * 2 ^ (e' + 1200) <= m1 * 2 ^ (e' + 1200)) as H3.
    { apply Z.mul_le_mono_nonneg_r; [apply Z.pow_nonneg; lia|exact Hnorm]. }
    lia.
Qed.

Lemma iter_xO (m d : positive) : Z.pos (Pos.iter xO m d) = Z.pos m * 2 ^ Z.pos d.
Proof.
  induction d as [|d IH] using Pos.peano_ind.
  - cbn [Pos.iter]. rewrite (Pos2Z.inj_xO m), Z.pow_1_r. lia.
  - rewrite Pos.iter_succ, (Pos2Z.inj_xO (Pos.iter xO m d)), IH, Pos2Z.inj_succ, Z.pow_succ_r by lia.
    lia.
Qed.

Lemma shl_align_spec (m : positive) (e t : Z) :
  snd (shl_align m e t) = Z.min e t /\
  Z.pos (fst (shl_align m e t)) = Z.pos m * 2 ^ (e - Z.min e t).
Proof.
  unfold shl_align. destruct (t - e) as [|d|d] eqn:E; cbn [fst snd].
  - rewrite Z.min_l by lia. rewrite Z.sub_diag, Z.pow_0_r. lia.
  - rewrite Z.min_l by lia. rewrite Z.sub_diag, Z.pow_0_r. lia.
  - rewrite Z.min_r by lia. rewrite iter_xO. split; [reflexivity|]. f_equal. f_equal. lia.
Qed.

Lemma digits2_pos_unique (m : positive) (k : Z) :
  2 ^ (k - 1) <= Z.pos m < 2 ^ k -> Z.pos (digits2_pos m) = k.
Proof.
  intros [Hlo Hhi]. pose proof (digits2_pos_bounds m) as [Hlo' Hhi'].
  assert (0 < k).
  { destruct (Z.lt_ge_cases 0 k) as [H|H]; [exact H|]. exfalso.
    destruct (Z.eq_dec k 0) as [->|Hk].
    - cbn in Hhi. lia.
    - rewrite Z.pow_neg_r in Hhi by lia. lia. }
  assert (Z.pos (digits2_pos m) - 1 < k).
  { apply (Z.pow_lt_mono_r_iff 2); lia. }
  assert (k - 1 < Z.pos (digits2_pos m)).
  { apply (Z.pow_lt_mono_r_iff 2); lia. }
  lia.
Qed.

Lemma digits2_pos_shift (m m' : positive) (k : Z) :
  0 <= k -> Z.pos m' = Z.pos m * 2 ^ k ->
  Z.pos (digits2_pos m') = Z.pos (digits2_pos m) + k.
Proof.
  intros Hk Hm. pose proof (digits2_pos_bounds m) as [Hlo Hhi].
  assert (0 < 2 ^ k) as Hp by (apply Z.pow_pos_nonneg; lia).
  apply digits2_pos_unique. rewrite Hm. split.
  - replace (Z.pos (digits2_pos m) + k - 1) with ((Z.pos (digits2_pos m) - 1) + k) by lia.
    rewrite Z.pow_add_r by lia. apply Z.mul_le_mono_nonneg_r; lia.
  - rewrite Z.pow_add_r by lia. apply Z.mul_lt_mono_pos_r; lia.
Qed.

Lemma SF_nonneg_scaled (x : spec_float) : SF_nonneg x -> 0 <= SF_scaled x.
Proof.
  destruct x as [s|s| |s m e]; cbn [SF_nonneg SF_scaled]; intros H; try lia.
  - subst s. apply Z.pow_nonneg. lia.
  - subst s. destruct (Z.le_gt_cases 0 (e + 1074)).
    + apply Z.mul_nonneg_nonneg; [lia|apply Z.pow_nonneg; lia].
    + rewrite Z.pow_neg_r by lia. lia.
Qed.

(** Adding a float64 that is not below zero never gives less. *)
Lemma SFadd_nonneg (x w : spec_float) :
  valid_binary x = true -> valid_binary w = true ->
  SF_nonneg x -> SF_nonneg w ->
  SF_nonneg (SFadd prec emax x w) /\ SF_scaled x <= SF_scaled (SFadd prec emax x w).
Proof.
  intros Vx Vw Nx Nw.
  destruct x as [sx|sx| |sx mx ex], w as [sw|sw| |sw mw ew];
    cbn [SF_nonneg] in Nx, Nw; try contradiction; subst; cbn [SFadd].
  - destruct sx, sw; cbn; split; try exact I; lia.
  - cbn [SF_nonneg SF_scaled]. split; [reflexivity|]. apply Z.pow_nonneg. lia.
  - split; [reflexivity|]. apply (SF_nonneg_scaled (S754_finite false mw ew)). reflexivity.
  - split; [reflexivity|]. lia.
  - split; [reflexivity|]. lia.
  - split; [reflexivity|]. lia.
  - split; [reflexivity|]. lia.
  - split; [reflexivity|]. cbn [SF_scaled valid_binary] in *.
    apply Z.lt_le_incl. apply finite_scaled_below_infinity. exact Vx.
  - cbn [valid_binary] in Vx, Vw.
    destruct (bounded_facts mx ex Vx) as (Hex & _).
    destruct (bounded_facts mw ew Vw) as (Hew & _).
    set (ez := Z.min ex ew).
    destruct (shl_align_spec mx ex ez) as (_ & Ha).
    destruct (shl_align_spec mw ew ez) as (_ & Hb).
    rewrite Z.min_r in Ha by (unfold ez; lia).
    rewrite Z.min_r in Hb by (unfold ez; lia).
    cbn [cond_Zopp]. set (a := fst (shl_align mx ex ez)) in *.
    set (b := fst (shl_align mw ew ez)) in *.
    change (Z.pos a + Z.pos b) with (Z.pos (a + b)).
    cbn [binary_normalize]. unfold binary_round.
    set (t := fexp prec emax (Z.pos (digits2_pos (a + b)) + ez)).
    destruct (shl_align_spec (a + b) ez t) as (Hez' & Hmz).
    destruct (shl_align (a + b) ez t) as [mz ez'] eqn:Esh. cbn [fst snd] in Hez', Hmz.
    assert (-1074 <= t) as Ht by (unfold t; rewrite fexp_eq; lia).
    assert (-1074 <= ez) as Hez by (unfold ez; lia).
    assert (Z.pos (digits2_pos mz) + ez' = Z.pos (digits2_pos (a + b)) + ez) as Hdig.
    { rewrite (digits2_pos_shift (a + b) mz (ez - ez')); [lia|lia|].
      rewrite Hmz, Hez'. reflexivity. }
    assert (fexp prec emax (Z.pos (digits2_pos mz) + ez') = t) as Hfexp
      by (rewrite Hdig; reflexivity).
    assert (0 <= fexp prec emax (Z.pos (digits2_pos mz) + ez') - ez') as Hn
      by (rewrite Hfexp; lia).
    assert (-1200 <= ez') as Hlow by lia.
    split.
    + destruct (round_exact_scaled mz ez' Hlow Hn) as (m2 & Hr & Hm2 & _).
      rewrite Hr. apply SF_pack_nonneg. exact Hm2.
    + cbn [SF_scaled]. apply (round_lower mz ez' mx ex Hlow Hn Vx).
      assert (Z.pos mz * 2 ^ (ez' + 1200) = Z.pos (a + b) * 2 ^ (ez + 1200)) as Hval.
      { rewrite Hmz, <- Z.mul_assoc, <- Z.pow_add_r by lia. f_equal. f_equal. lia. }
      rewrite Hval, Pos2Z.inj_add, Ha, Z.mul_add_distr_r.
      rewrite <- Z.mul_assoc, <- Z.pow_add_r by (unfold ez; lia).
      replace (ex - ez + (ez + 1200)) with (ex + 1200) by lia.
      assert (0 <= Z.pos b * 2 ^ (ez + 1200))
        by (apply Z.mul_nonneg_nonneg; [lia|apply Z.pow_nonneg; lia]).
      lia.
Qed.

Lemma Prim2SF_half : Prim2SF 0.5%float = S754_finite false 4503599627370496 (-53).
Proof. reflexivity. Qed.

(** Half of a float64 that is not below zero is not above it. *)
Lemma SFmul_half (x : spec_float) :
  valid_binary x = true -> SF_nonneg x ->
  SF_nonneg (SFmul prec emax (S754_finite false 4503599627370496 (-53)) x) /\
  SF_scaled (SFmul prec emax (S754_finite false 4503599627370496 (-53)) x) <= SF_scaled x.
Proof.
  intros Vx Nx.
  destruct x as [sx|sx| |sx mx ex]; cbn [SF_nonneg] in Nx; try contradiction; cbn [SFmul xorb].
  - cbn. split; [exact I|lia].
  - subst sx. cbn. split; [reflexivity|lia].
  - subst sx. cbn [valid_binary] in Vx.
    destruct (bounded_facts mx ex Vx) as (Hex & _).
    set (m := (4503599627370496 * mx)%positive). set (e := -53 + ex).
    assert (Z.pos m = Z.pos mx * 2 ^ 52) as Hm by (unfold m; rewrite Pos2Z.inj_mul; lia).
    pose proof (digits2_pos_shift mx m 52 ltac:(lia) Hm) as Hdig.
    pose proof (digits2_pos_bounds mx) as [Hlo Hhi].
    assert (0 < Z.pos (digits2_pos mx)) as Hd by lia.
    assert (-1200 <= e) as Hlow by (unfold e; lia).
    assert (0 <= fexp prec emax (Z.pos (digits2_pos m) + e) - e) as Hn
      by (rewrite fexp_eq, Hdig; unfold e; lia).
    split.
    + destruct (round_exact_scaled m e Hlow Hn) as (m2 & Hr & Hm2 & _).
      rewrite Hr. apply SF_pack_nonneg. exact Hm2.
    + cbn [SF_scaled]. apply (round_upper m e mx ex Hlow Hn Vx).
      rewrite Hm, <- Z.mul_assoc, <- Z.pow_add_r by (unfold e; lia).
      apply Z.mul_le_mono_nonneg_l; [lia|]. apply Z.pow_le_mono_r; unfold e; lia.
Qed.

Lemma float64_nonneg_spec (x : float) : float64_nonneg x <-> SF_nonneg (Prim2SF x).
Proof.
  unfold float64_nonneg. rewrite leb_spec.
  change (Prim2SF 0) with (S754_zero false).
  destruct (Prim2SF x) as [s|s| |s m e]; cbn; try destruct s; intuition congruence.
Qed.

Lemma Prim2SF_is_nan (x : float) : Prim2SF x <> S754_nan -> PrimFloat.is_nan x = false.
Proof.
  intros H. destruct (PrimFloat.is_nan x) eqn:E; [|reflexivity].
  exfalso. apply H. unfold Prim2SF. rewrite E. reflexivity.
Qed.

Lemma SF_nonneg_not_nan (x : spec_float) : SF_nonneg x -> x <> S754_nan.
Proof. destruct x; cbn; intros H; congruence || contradiction. Qed.

Lemma float64_nonneg_number (x : float) : float64_nonneg x -> PrimFloat.is_nan x = false.
Proof.
  intros H. apply Prim2SF_is_nan. apply SF_nonneg_not_nan.
  apply float64_nonneg_spec. exact H.
Qed.

Lemma float64_less_scaled (x y : float) :
  PrimFloat.is_nan x = false -> PrimFloat.is_nan y = false ->
  Dtype.float64_less x y = (SF_scaled (Prim2SF x) <? SF_scaled (Prim2SF y)).
Proof.
  intros Hx Hy. unfold Dtype.float64_less. rewrite Hy. cbn [andb].
  rewrite orb_false_r, ltb_spec.
  apply SFltb_scaled; try apply Prim2SF_valid; apply Prim2SF_not_nan; assumption.
Qed.

Lemma float64_add_nonneg (x w : float) :
  float64_nonneg x -> float64_nonneg w ->
  float64_nonneg (PrimFloat.add x w) /\ Dtype.float64_less (PrimFloat.add x w) x = false.
Proof.
  intros Hx Hw.
  destruct (SFadd_nonneg (Prim2SF x) (Prim2SF w)) as (Hn & Hle);
    try apply Prim2SF_valid; try (apply float64_nonneg_spec; assumption).
  change (SFadd prec emax) with SF64add in Hn, Hle. rewrite <- add_spec in Hn, Hle.
  apply float64_nonneg_spec in Hn. split; [exact Hn|].
  rewrite float64_less_scaled by (apply float64_nonneg_number; assumption).
  apply Z.ltb_ge. exact Hle.
Qed.

Lemma float64_half_nonneg (x : float) :
  float64_nonneg x ->
  Dtype.float64_less x (PrimFloat.mul 0.5 x) = false.
Proof.
  intros Hx.
  destruct (SFmul_half (Prim2SF x)) as (Hn & Hle);
    try apply Prim2SF_valid; try (apply float64_nonneg_spec; assumption).
  rewrite <- Prim2SF_half in Hn, Hle.
  change (SFmul prec emax) with SF64mul in Hn, Hle. rewrite <- mul_spec in Hn, Hle.
  apply float64_nonneg_spec in Hn.
  rewrite float64_less_scaled by (apply float64_nonneg_number; assumption).
  apply Z.ltb_ge. exact Hle.
Qed.

End Rounding.

Lemma SF_nonneg_value (x : spec_float) : SF_nonneg x -> 0 <= SF_value x.
Proof.
  destruct x as [s|s| |s m e]; cbn [SF_nonneg SF_value]; intros H;
    try apply Qle_refl; try contradiction; subst s.
  - rewrite <- (Zle_Qle 0). apply Z.pow_nonneg. lia.
  - apply Qmult_le_0_compat.
    + rewrite <- (Zle_Qle 0). lia.
    + apply Qpower_0_le. discriminate.
Qed.

Lemma float64_nonneg_value (x : float) : float64_nonneg x -> 0 <= float_value x.
Proof.
  intros H. apply SF_nonneg_value. apply float64_nonneg_spec. exact H.
Qed.

(** A float64 above zero is a number, and so is the number that it stands
    for. *)
Lemma float64_positive (x : float) :
  PrimFloat.ltb 0 x = true -> float64_nonneg x /\ 0 < float_value x.
Proof.
  intros H.
  assert (float64_nonneg x) as Hn.
  { apply float64_nonneg_spec. rewrite ltb_spec in H.
    change (Prim2SF 0) with (S754_zero false) in H.
    destruct (Prim2SF x) as [s|s| |s m e]; cbn in *; try destruct s; congruence. }
  split; [exact Hn|].
  rewrite (float_ltb_value 0 x eq_refl (float64_nonneg_number x Hn)) in H.
  apply Qltb_lt in H. exact H.
Qed.

(** ** The array functions over any item type *)

Lemma take_in_range_any {A : Type} (d : A) (a : list A) (i : list nat) :
  Forall (fun j => (j < length a)%nat) i ->
  Np.take a i = Ret (map (fun j => nth j a d) i).
Proof.
  induction 1 as [|j i Hj _ IH]; simpl.
  - reflexivity.
  - rewrite (getitem_nat_lt a j d Hj). simpl. rewrite IH. reflexivity.
Qed.

Section TypedArrays.

Variable D : Dtype.t.

Lemma typed_cumsum_from_length (l : list D) :
  forall acc, length (Typed.cumsum_from D acc l) = length l.
Proof.
  induction l as [|x l IH]; intros acc; simpl; [reflexivity|]. rewrite IH. reflexivity.
Qed.

Lemma typed_cumsum_length (l : list D) : length (Typed.cumsum D l) = length l.
Proof.
  destruct l as [|x l]; simpl; [reflexivity|]. rewrite typed_cumsum_from_length. reflexivity.
Qed.

Lemma typed_sorted_by_length (i : list nat) (a : list D) :
  length (Typed.sorted_by D i a) = length i.
Proof. apply length_map. Qed.

Lemma typed_sorted_by_nth (i : list nat) (a : list D) (k : nat) :
  (k < length i)%nat ->
  nth k (Typed.sorted_by D i a) (Dtype.zero D) = nth (nth k i 0%nat) a (Dtype.zero D).
Proof.
  intros Hk. unfold Typed.sorted_by.
  rewrite (nth_indep _ (Dtype.zero D) (nth 0%nat a (Dtype.zero D)))
    by (rewrite length_map; exact Hk).
  apply (map_nth (fun j => nth j a (Dtype.zero D))).
Qed.

Lemma typed_sorted_by_seq (a : list D) : Typed.sorted_by D (seq 0 (length a)) a = a.
Proof.
  apply nth_ext with (d := Dtype.zero D) (d' := Dtype.zero D).
  - rewrite typed_sorted_by_length, length_seq. reflexivity.
  - intros n Hn. rewrite typed_sorted_by_length, length_seq in Hn.
    rewrite typed_sorted_by_nth by (rewrite length_seq; exact Hn).
    rewrite seq_nth by exact Hn. reflexivity.
Qed.

Lemma typed_sorted_by_permutation (i : list nat) (a : list D) :
  Permutation i (seq 0 (length a)) -> Permutation (Typed.sorted_by D i a) a.
Proof.
  intros H. rewrite <- (typed_sorted_by_seq a) at 2.
  apply Permutation_map. exact H.
Qed.

Lemma typed_binsearch_left_step (fuel : nat) (a : list D) (key : D) (lo hi : nat) :
  Typed.binsearch_left D (S fuel) a key lo hi =
  if (lo <? hi)%nat then
    if Dtype.less D (nth (lo + (hi - lo) / 2) a (Dtype.zero D)) key
    then Typed.binsearch_left D fuel a key (lo + (hi - lo) / 2 + 1) hi
    else Typed.binsearch_left D fuel a key lo (lo + (hi - lo) / 2)
  else lo.
Proof. reflexivity. Qed.

(** When the items below the key come first, the binary search ends at the
    border between them and the others. *)
Lemma typed_binsearch_left_spec (a : list D) (key : D) :
  (forall p q, (p <= q < length a)%nat ->
               Dtype.less D (nth q a (Dtype.zero D)) key = true ->
               Dtype.less D (nth p a (Dtype.zero D)) key = true) ->
  forall fuel lo hi,
    (hi - lo <= fuel)%nat -> (lo <= hi <= length a)%nat ->
    (forall p, (p < lo)%nat -> Dtype.less D (nth p a (Dtype.zero D)) key = true) ->
    (forall p, (hi <= p < length a)%nat -> Dtype.less D (nth p a (Dtype.zero D)) key = false) ->
    (lo <= Typed.binsearch_left D fuel a key lo hi <= hi)%nat /\
    (forall p, (p < Typed.binsearch_left D fuel a key lo hi)%nat ->
               Dtype.less D (nth p a (Dtype.zero D)) key = true) /\
    (forall p, (Typed.binsearch_left D fuel a key lo hi <= p < length a)%nat ->
               Dtype.less D (nth p a (Dtype.zero D)) key = false).
Proof.
  intros Hprefix. induction fuel as [|fuel IH]; intros lo hi Hfuel Hwin Hlow Hhigh.
  - simpl. assert (hi = lo) by lia. subst hi.
    split; [lia|]. split; assumption.
  - rewrite typed_binsearch_left_step. destruct (lo <? hi)%nat eqn:Hlt.
    + apply Nat.ltb_lt in Hlt.
      assert (lo <= lo + (hi - lo) / 2 < hi)%nat as Hmid.
      { pose proof (Nat.div_lt (hi - lo) 2). lia. }
      set (mid := (lo + (hi - lo) / 2)%nat) in *.
      destruct (Dtype.less D (nth mid a (Dtype.zero D)) key) eqn:Hcmp.
      * destruct (IH (mid + 1)%nat hi) as (Hk & Hl & Hh); try lia.
        { intros p Hp. apply (Hprefix p mid); [lia|exact Hcmp]. }
        { exact Hhigh. }
        split; [lia|]. split; assumption.
      * destruct (IH lo mid) as (Hk & Hl & Hh); try lia.
        { exact Hlow. }
        { intros p Hp.
          destruct (Dtype.less D (nth p a (Dtype.zero D)) key) eqn:Hp'; [|reflexivity].
          rewrite (Hprefix mid p) in Hcmp; [discriminate|lia|exact Hp']. }
        split; [lia|]. split; assumption.
    + apply Nat.ltb_ge in Hlt. assert (hi = lo) by lia. subst hi.
      split; [lia|]. split; assumption.
Qed.

Lemma typed_searchsorted_spec (a : list D) (key : D) :
  weak_order D -> Typed.ascending D a ->
  (Typed.searchsorted D a key <= length a)%nat /\
  (forall p, (p < Typed.searchsorted D a key)%nat ->
             Dtype.less D (nth p a (Dtype.zero D)) key = true) /\
  (forall p, (Typed.searchsorted D a key <= p < length a)%nat ->
             Dtype.less D (nth p a (Dtype.zero D)) key = false).
Proof.
  intros Hord Hasc. unfold Typed.searchsorted.
  destruct (typed_binsearch_left_spec a key) with (fuel := length a) (lo := 0%nat) (hi := length a)
    as (Hk & Hl & Hh); try lia.
  - intros p q Hpq Hq. apply (Hord _ (nth q a (Dtype.zero D))); [|exact Hq].
    apply Hasc. exact Hpq.
  - split; [lia|]. split; assumption.
Qed.

Lemma typed_ascendingb_sound (l : list D) :
  Typed.ascendingb D l = true -> Typed.ascending D l.
Proof.
  unfold Typed.ascendingb. intros H p q Hpq.
  rewrite forallb_forall in H. specialize (H q).
  rewrite forallb_forall in H.
  apply negb_true_iff. apply H; apply in_seq; lia.
Qed.

Lemma typed_is_argsortb_sound (values : list D) (i : list nat) :
  Typed.is_argsortb D values i = true -> Typed.is_argsort D values i.
Proof.
  unfold Typed.is_argsortb. intros H.
  apply andb_prop in H. destruct H as [H Hasc].
  apply andb_prop in H. destruct H as [Hlen Hall].
  apply Nat.eqb_eq in Hlen. split.
  - apply Permutation_sym. apply NoDup_Permutation_bis.
    + apply seq_NoDup.
    + rewrite length_seq. lia.
    + intros j Hj. rewrite forallb_forall in Hall.
      specialize (Hall j Hj). apply existsb_exists in Hall.
      destruct Hall as (j' & Hin & Heq). apply Nat.eqb_eq in Heq. subst j'. exact Hin.
  - apply typed_ascendingb_sound. exact Hasc.
Qed.

(** *** One run of weighted_median *)

Section TypedRun.

Variable argsort : list D -> list nat.
Variables values weights : list D.

Hypothesis values_nonempty : values <> [].
Hypothesis same_length : length weights = length values.
Hypothesis indices : Permutation (argsort values) (seq 0 (length values)).

Let i := argsort values.
Let c := running_sums D i weights.
Let k := Typed.searchsorted D c (Dtype.half D (last_item D c)).

Lemma typed_run_lengths : length i = length values /\ length c = length values.
Proof.
  assert (length i = length values) as Hi.
  { unfold i. rewrite (Permutation_length indices), length_seq. reflexivity. }
  split; [exact Hi|].
  unfold c, running_sums. rewrite typed_cumsum_length, typed_sorted_by_length. exact Hi.
Qed.

Lemma typed_run_search :
  Typed.weighted_median D argsort values weights =
  (j <- Np.getitem i (Z.of_nat k) ;; Np.getitem values (Z.of_nat j)).
Proof.
  destruct typed_run_lengths as (Hi & Hc).
  apply nonempty_length in values_nonempty as Hn.
  unfold Typed.weighted_median. fold i.
  rewrite (take_in_range_any (Dtype.zero D)).
  - cbn [bind]. change (Typed.cumsum D (map (fun j => nth j weights (Dtype.zero D)) i)) with c.
    rewrite (getitem_last_nonempty c (Dtype.zero D)) by (apply nonempty_length; lia).
    cbn [bind]. reflexivity.
  - apply Forall_forall. intros j Hj. unfold i in Hj.
    apply (Permutation_in _ indices) in Hj. apply in_seq in Hj. lia.
Qed.

Lemma typed_run_result :
  (k < length values)%nat ->
  Typed.weighted_median D argsort values weights =
  Ret (nth k (Typed.sorted_by D i values) (Dtype.zero D)).
Proof.
  intros Hk. destruct typed_run_lengths as (Hi & Hc).
  rewrite typed_run_search.
  rewrite (getitem_nat_lt i k 0%nat) by lia. cbn [bind].
  assert (nth k i 0 < length values)%nat as Hj.
  { assert (In (nth k i 0%nat) i) as Hin by (apply nth_In; lia).
    unfold i in Hin at 2. apply (Permutation_in _ indices) in Hin.
    apply in_seq in Hin. lia. }
  rewrite (getitem_nat_lt values _ (Dtype.zero D) Hj).
  rewrite typed_sorted_by_nth by lia. reflexivity.
Qed.

(** The position found is the first one whose running sum is not below the
    half of the last running sum. *)
Lemma typed_run_position :
  weak_order D -> Typed.ascending D c ->
  Dtype.less D (last_item D c) (Dtype.half D (last_item D c)) = false ->
  (k < length values)%nat /\
  Dtype.less D (nth k c (Dtype.zero D)) (Dtype.half D (last_item D c)) = false /\
  (forall p, (p < k)%nat ->
             Dtype.less D (nth p c (Dtype.zero D)) (Dtype.half D (last_item D c)) = true).
Proof.
  intros Hord Hasc Hlast. destruct typed_run_lengths as (Hi & Hc).
  apply nonempty_length in values_nonempty as Hn.
  destruct (typed_searchsorted_spec c (Dtype.half D (last_item D c)) Hord Hasc)
    as (Hle & Hlow & Hhigh).
  fold k in Hle, Hlow, Hhigh. rewrite Hc in Hle, Hhigh.
  assert (k < length values)%nat as Hk.
  { destruct (Nat.eq_dec k (length values)) as [E|E]; [|lia].
    exfalso. specialize (Hlow (length c - 1)%nat ltac:(lia)).
    change (nth (length c - 1) c (Dtype.zero D)) with (last_item D c) in Hlow.
    rewrite Hlast in Hlow. discriminate. }
  split; [exact Hk|]. split; [apply Hhigh; lia|exact Hlow].
Qed.

End TypedRun.

End TypedArrays.

(** ** Lawful item types *)

Lemma lawful_exact : lawful Dtype.exact exact_nonneg.
Proof.
  split.
  - exact weak_order_exact.
  - intros x. cbn. apply Qltb_ge. apply Qle_refl.
  - intros x w Hx Hw. unfold exact_nonneg in *. cbn. split; [lra|].
    apply Qltb_ge. lra.
  - intros x Hx. unfold exact_nonneg in *. cbn. apply Qltb_ge. lra.
Qed.

Lemma float64_less_irreflexive (x : float) : Dtype.float64_less x x = false.
Proof.
  unfold Dtype.float64_less.
  destruct (PrimFloat.is_nan x) eqn:E.
  - rewrite float64_ltb_nan_l by exact E. reflexivity.
  - cbn [andb]. rewrite orb_false_r, float_ltb_value by exact E.
    apply Qltb_ge. apply Qle_refl.
Qed.

Lemma lawful_float64 : lawful Dtype.float64 float64_nonneg.
Proof.
  split.
  - exact weak_order_float64.
  - exact float64_less_irreflexive.
  - exact float64_add_nonneg.
  - exact float64_half_nonneg.
Qed.

Section LawfulSums.

Variable D : Dtype.t.
Variable nonneg : D -> Prop.
Hypothesis laws : lawful D nonneg.

(** Not being below is transitive. *)
Lemma not_less_trans (a b c : D) :
  Dtype.less D b a = false -> Dtype.less D c b = false -> Dtype.less D c a = false.
Proof.
  intros Hba Hcb. destruct (Dtype.less D c a) eqn:E; [|reflexivity].
  rewrite (lawful_order D nonneg laws b c a Hcb E) in Hba. discriminate.
Qed.

Lemma cumsum_from_lawful (l : list D) :
  forall acc, nonneg acc -> Forall nonneg l ->
    Forall nonneg (Typed.cumsum_from D acc l) /\
    forall p q, (p <= q < S (length l))%nat ->
      Dtype.less D (nth q (acc :: Typed.cumsum_from D acc l) (Dtype.zero D))
                   (nth p (acc :: Typed.cumsum_from D acc l) (Dtype.zero D)) = false.
Proof.
  induction l as [|x l IH]; intros acc Hacc Hl.
  - split; [constructor|]. intros p q Hpq. cbn [length] in Hpq.
    assert (p = 0 /\ q = 0)%nat as [-> ->] by lia.
    apply (lawful_irreflexive D nonneg laws).
  - inversion Hl as [|? ? Hx Hl']; subst.
    destruct (lawful_add D nonneg laws acc x Hacc Hx) as (Hsum & Hstep).
    destruct (IH (Dtype.add D acc x) Hsum Hl') as (Hall & Hasc).
    cbn [Typed.cumsum_from]. split; [constructor; assumption|].
    intros p q Hpq. cbn [length] in Hpq.
    destruct p as [|p], q as [|q]; try lia.
    + apply (lawful_irreflexive D nonneg laws).
    + cbn [nth]. apply not_less_trans with (Dtype.add D acc x); [exact Hstep|].
      apply (Hasc 0%nat q). lia.
    + cbn [nth]. apply (Hasc p q). lia.
Qed.

(** With lawful items and non-negative weights the running sums are
    non-negative and never decrease, and the last one is not below its
    half. *)
Lemma running_sums_lawful (i : list nat) (weights : list D) :
  Forall nonneg (Typed.sorted_by D i weights) ->
  Forall nonneg (running_sums D i weights) /\
  Typed.ascending D (running_sums D i weights) /\
  (i <> [] ->
   Dtype.less D (last_item D (running_sums D i weights))
     (Dtype.half D (last_item D (running_sums D i weights))) = false).
Proof.
  intros Hpos. unfold running_sums.
  destruct (Typed.sorted_by D i weights) as [|x l] eqn:E.
  - split; [constructor|]. split.
    + intros p q Hpq. cbn in Hpq. lia.
    + intros Hi. destruct i; [congruence|discriminate].
  - inversion Hpos as [|? ? Hx Hl]; subst.
    destruct (cumsum_from_lawful l x Hx Hl) as (Hall & Hasc).
    cbn [Typed.cumsum].
    assert (Forall nonneg (x :: Typed.cumsum_from D x l)) as Hc by (constructor; assumption).
    split; [exact Hc|]. split.
    + intros p q Hpq. apply Hasc. cbn [length] in Hpq.
      rewrite typed_cumsum_from_length in Hpq. exact Hpq.
    + intros _. apply (lawful_half D nonneg laws).
      rewrite Forall_forall in Hc. apply Hc. unfold last_item. apply nth_In.
      cbn [length]. lia.
Qed.

End LawfulSums.

(** With lawful items and non-negative weights weighted_median returns the
    value at the first position whose running sum is not below the half of
    the last running sum. *)
Lemma first_position_reaching_half
    (D : Dtype.t) (nonneg : D -> Prop) (argsort : list D -> list nat)
    (values weights : list D) :
  lawful D nonneg ->
  values <> [] ->
  length weights = length values ->
  Forall nonneg weights ->
  Typed.is_argsort D values (argsort values) ->
  let sorted_values := Typed.sorted_by D (argsort values) values in
  let c := running_sums D (argsort values) weights in
  let half_total := Dtype.half D (last_item D c) in
  Permutation sorted_values values /\
  Typed.ascending D sorted_values /\
  Forall nonneg c /\
  Typed.ascending D c /\
  exists k,
    (k < length values)%nat /\
    Typed.weighted_median D argsort values weights = Ret (nth k sorted_values (Dtype.zero D)) /\
    Dtype.less D (nth k c (Dtype.zero D)) half_total = false /\
    (forall p, (p < k)%nat -> Dtype.less D (nth p c (Dtype.zero D)) half_total = true).
Proof.
  intros Hlaws Hne Hlen Hpos [Hperm Hasc] sorted_values c half_total.
  assert (Forall nonneg (Typed.sorted_by D (argsort values) weights)) as Hsw.
  { refine (@Permutation_Forall _ _ weights _ _ Hpos). apply Permutation_sym.
    apply typed_sorted_by_permutation. rewrite Hlen. exact Hperm. }
  destruct (running_sums_lawful D nonneg Hlaws (argsort values) weights Hsw)
    as (Hc & Hsums & Hlast).
  assert (argsort values <> []) as Hi.
  { intros E. rewrite E in Hperm. apply Permutation_length in Hperm.
    rewrite length_seq in Hperm. destruct values; [congruence|discriminate]. }
  specialize (Hlast Hi).
  split; [apply typed_sorted_by_permutation; exact Hperm|].
  split; [exact Hasc|]. split; [exact Hc|]. split; [exact Hsums|].
  destruct (typed_run_position D argsort values weights Hne Hlen Hperm
              (lawful_order D nonneg Hlaws) Hsums Hlast) as (Hk & Hreach & Hfirst).
  eexists. split; [exact Hk|]. split; [|split; [exact Hreach|exact Hfirst]].
  apply (typed_run_result D argsort values weights Hne Hlen Hperm). exact Hk.
Qed.

(** ** float64 runs without rounding *)

Lemma float_value_zero : float_value PrimFloat.zero = 0.
Proof. reflexivity. Qed.

Lemma nth_float_value (l : list float) (p : nat) :
  nth p (map float_value l) 0 = float_value (nth p l PrimFloat.zero).
Proof. rewrite <- float_value_zero. apply map_nth. Qed.

Lemma sorted_by_float_value (i : list nat) (a : list float) :
  sorted_by i (map float_value a) = map float_value (Typed.sorted_by Dtype.float64 i a).
Proof.
  unfold sorted_by, Typed.sorted_by. rewrite map_map. apply map_ext.
  intros j. apply nth_float_value.
Qed.

Lemma no_roundingb_sound (w : list float) : no_roundingb w = true -> no_rounding w.
Proof.
  unfold no_roundingb, no_rounding. cbv zeta. intros H.
  apply andb_prop in H. destruct H as [H Hhalf].
  apply andb_prop in H. destruct H as [Hsums Hnan].
  split; [|split].
  - intros p Hp. rewrite forallb_forall in Hsums.
    specialize (Hsums p ltac:(apply in_seq; lia)).
    apply andb_prop in Hsums. destruct Hsums as [Hn Hq].
    split; [apply negb_true_iff; exact Hn|apply Qeq_bool_iff; exact Hq].
  - apply negb_true_iff. exact Hnan.
  - apply Qeq_bool_iff. exact Hhalf.
Qed.

(** The two searches agree when the items compare with the keys alike. *)
Lemma binsearch_left_typed (D : Dtype.t) (c : list D) (key : D) (qc : list Q) (qkey : Q) :
  (forall p, (p < length c)%nat ->
             Dtype.less D (nth p c (Dtype.zero D)) key = Qltb (nth p qc 0) qkey) ->
  forall fuel lo hi, (hi <= length c)%nat ->
  Typed.binsearch_left D fuel c key lo hi = Np.binsearch_left fuel qc qkey lo hi.
Proof.
  intros Hcmp. induction fuel as [|fuel IH]; intros lo hi Hhi; [reflexivity|].
  rewrite typed_binsearch_left_step, binsearch_left_step.
  destruct (lo <? hi)%nat eqn:Hlt; [|reflexivity].
  apply Nat.ltb_lt in Hlt.
  assert (lo + (hi - lo) / 2 < hi)%nat as Hmid
    by (pose proof (Nat.div_lt (hi - lo) 2); lia).
  rewrite Hcmp by lia.
  destruct (Qltb _ qkey); apply IH; lia.
Qed.

Lemma is_argsort_float_value (values : list float) (i : list nat) :
  no_nan values ->
  Typed.is_argsort Dtype.float64 values i ->
  is_argsort (map float_value values) i.
Proof.
  intros Hnan [Hperm Hasc]. split; [rewrite length_map; exact Hperm|].
  assert (length i = length values) as Hi
    by (rewrite (Permutation_length Hperm), length_seq; reflexivity).
  assert (forall p, (p < length i)%nat ->
            PrimFloat.is_nan (nth p (Typed.sorted_by Dtype.float64 i values) PrimFloat.zero) = false)
    as Hnum.
  { intros p Hp. rewrite (typed_sorted_by_nth Dtype.float64) by exact Hp.
    unfold no_nan in Hnan. rewrite Forall_forall in Hnan. apply Hnan. apply nth_In.
    assert (In (nth p i 0%nat) i) as Hin by (apply nth_In; exact Hp).
    apply (Permutation_in _ Hperm) in Hin. apply in_seq in Hin. lia. }
  intros p q Hpq. rewrite sorted_by_length in Hpq.
  rewrite sorted_by_float_value, !nth_float_value.
  apply Qltb_ge. rewrite <- float64_less_value by (apply Hnum; lia).
  apply (Hasc p q). rewrite (typed_sorted_by_length Dtype.float64). exact Hpq.
Qed.

Section Float64Run.

Variable argsort : list float -> list nat.
Variables values weights : list float.

Hypothesis values_nonempty : values <> [].
Hypothesis same_length : length weights = length values.
Hypothesis values_numbers : no_nan values.
Hypothesis weights_nonneg : Forall float64_nonneg weights.
Hypothesis argsort_ok : Typed.is_argsort Dtype.float64 values (argsort values).
Hypothesis sums_exact : no_rounding (Typed.sorted_by Dtype.float64 (argsort values) weights).

(** Without rounding the float64 run and the run in exact arithmetic on the
    numbers that the items stand for end at the same position of the sorted
    values. *)
Lemma float64_run_exact :
  let qvalues := map float_value values in
  let qweights := map float_value weights in
  let qc := Np.cumsum (sorted_by (argsort values) qweights) in
  let k := Np.searchsorted qc ((1 # 2) * nth (length qc - 1) qc 0) in
  let r := nth k (Typed.sorted_by Dtype.float64 (argsort values) values) PrimFloat.zero in
  is_argsort qvalues (argsort values) /\
  Forall (fun w => 0 <= w) qweights /\
  (k < length values)%nat /\
  In r values /\
  Typed.weighted_median Dtype.float64 argsort values weights = Ret r /\
  weighted_median (fun _ => argsort values) qvalues qweights = Ret (float_value r).
Proof.
  cbv zeta.
  set (i := argsort values) in *.
  set (qvalues := map float_value values).
  set (qweights := map float_value weights).
  pose proof (is_argsort_float_value values i values_numbers argsort_ok) as Hsort.
  fold qvalues in Hsort.
  assert (qvalues <> []) as Hne by (unfold qvalues; destruct values; [congruence|discriminate]).
  assert (length qweights = length qvalues) as Hlen
    by (unfold qweights, qvalues; rewrite !length_map; exact same_length).
  assert (Forall (fun w => 0 <= w) qweights) as Hpos.
  { unfold qweights. apply Forall_forall. intros w Hw. apply in_map_iff in Hw.
    destruct Hw as (x & <- & Hx). rewrite Forall_forall in weights_nonneg.
    apply float64_nonneg_value. apply weights_nonneg. exact Hx. }
  destruct (run_position (fun _ => i) qvalues qweights Hne Hlen Hpos Hsort) as (Hk & _).
  destruct (run_result (fun _ => i) qvalues qweights Hne Hlen Hpos Hsort) as (_ & Hj & Hres).
  cbv beta in Hk, Hj, Hres.
  destruct argsort_ok as [Hperm _]. fold i in Hperm.
  destruct (typed_run_lengths Dtype.float64 argsort values weights Hperm) as (Hi & Hc).
  fold i in Hi, Hc.
  set (c := running_sums Dtype.float64 i weights) in *.
  set (qc := Np.cumsum (sorted_by i qweights)) in *.
  assert (length qc = length values) as Hqc.
  { unfold qc. rewrite cumsum_length, sorted_by_length. exact Hi. }
  assert (length qvalues = length values) as Hqv by (unfold qvalues; apply length_map).
  apply nonempty_length in values_nonempty as Hn.
  destruct sums_exact as (Hsums & Hnan & Hhalf). fold i in Hsums, Hnan, Hhalf.
  change (Typed.cumsum Dtype.float64 (Typed.sorted_by Dtype.float64 i weights)) with c
    in Hsums, Hnan, Hhalf.
  assert (forall p, (p < length values)%nat ->
            PrimFloat.is_nan (nth p c PrimFloat.zero) = false /\
            float_value (nth p c PrimFloat.zero) ==
            cumulative_weight (map float_value (Typed.sorted_by Dtype.float64 i weights)) p)
    as Hsums'.
  { intros p Hp. apply Hsums. rewrite (typed_sorted_by_length Dtype.float64), Hi. exact Hp. }
  clear Hsums. rename Hsums' into Hsums.
  assert (forall p, (p < length values)%nat ->
            float_value (nth p c PrimFloat.zero) == nth p qc 0) as Hitem.
  { intros p Hp. destruct (Hsums p Hp) as (_ & Hv). rewrite Hv.
    unfold qc, qweights. rewrite sorted_by_float_value. symmetry. apply cumsum_nth.
    rewrite length_map, (typed_sorted_by_length Dtype.float64), Hi. exact Hp. }
  assert (Typed.searchsorted Dtype.float64 c (Dtype.half Dtype.float64 (last_item Dtype.float64 c))
          = Np.searchsorted qc ((1 # 2) * nth (length qc - 1) qc 0)) as Hsearch.
  { unfold Typed.searchsorted, Np.searchsorted. rewrite Hqc, Hc.
    apply binsearch_left_typed; [|rewrite Hc; apply Nat.le_refl].
    intros p Hp. rewrite Hc in Hp.
    change (Dtype.less Dtype.float64) with Dtype.float64_less.
    change (Dtype.zero Dtype.float64) with PrimFloat.zero.
    rewrite float64_less_value; [|apply Hsums; exact Hp|exact Hnan].
    apply Qltb_compat; [apply Hitem; exact Hp|].
    rewrite Hhalf. unfold last_item. rewrite Hc.
    apply Qmult_comp; [reflexivity|]. apply Hitem. lia. }
  rewrite Hqv in Hk, Hj.
  set (k := Np.searchsorted qc ((1 # 2) * nth (length qc - 1) qc 0)) in *.
  assert (nth k (Typed.sorted_by Dtype.float64 i values) PrimFloat.zero
          = nth (nth k i 0%nat) values PrimFloat.zero) as Hr.
  { apply (typed_sorted_by_nth Dtype.float64). rewrite Hi. exact Hk. }
  split; [exact Hsort|]. split; [exact Hpos|]. split; [exact Hk|]. split; [|split].
  - rewrite Hr. apply nth_In. exact Hj.
  - rewrite (typed_run_result Dtype.float64 argsort values weights values_nonempty
               same_length Hperm).
    + fold i. change (running_sums Dtype.float64 i weights) with c.
      rewrite Hsearch. reflexivity.
    + fold i. change (running_sums Dtype.float64 i weights) with c.
      rewrite Hsearch. exact Hk.
  - rewrite Hr, Hres. unfold qvalues. rewrite nth_float_value. reflexivity.
Qed.

End Float64Run.

(** ** Exact items *)

Lemma typed_cumsum_from_exact (l : list Q) :
  forall acc, Typed.cumsum_from Dtype.exact acc l = Np.cumsum_from acc l.
Proof.
  induction l as [|x l IH]; intros acc; simpl; [reflexivity|]. rewrite IH. reflexivity.
Qed.

Lemma typed_cumsum_exact (l : list Q) : Typed.cumsum Dtype.exact l = Np.cumsum l.
Proof.
  destruct l as [|x l]; simpl; [reflexivity|]. rewrite typed_cumsum_from_exact. reflexivity.
Qed.

Lemma typed_binsearch_left_exact (a : list Q) (key : Q) :
  forall fuel lo hi,
    Typed.binsearch_left Dtype.exact fuel a key lo hi = Np.binsearch_left fuel a key lo hi.
Proof.
  induction fuel as [|fuel IH]; intros lo hi; [reflexivity|].
  rewrite typed_binsearch_left_step, binsearch_left_step.
  rewrite !IH. reflexivity.
Qed.

(** Over exact items the function is the one defined on rationals. *)
Lemma weighted_median_exact (argsort : list Q -> list nat) (values weights : list Q) :
  Typed.weighted_median Dtype.exact argsort values weights =
  weighted_median argsort values weights.
Proof.
  unfold Typed.weighted_median, weighted_median.
  change (@Np.take (Dtype.num Dtype.exact)) with (@Np.take Q).
  destruct (Np.take weights (argsort values)) as [wi|e]; [|reflexivity].
  cbn [bind]. rewrite typed_cumsum_exact.
  change (@Np.getitem (Dtype.num Dtype.exact)) with (@Np.getitem Q).
  destruct (Np.getitem (Np.cumsum wi) (-1)) as [total|e]; [|reflexivity].
  cbn [bind]. unfold Typed.searchsorted, Np.searchsorted.
  rewrite typed_binsearch_left_exact. reflexivity.
Qed.

(** In exact arithmetic non-negative weights give running sums that never
    decrease and a last sum that is not below its half. *)
Lemma running_sums_exact (i : list nat) (weights : list Q) :
  Forall (fun w => 0 <= w) (sorted_by i weights) ->
  Typed.ascending Dtype.exact (running_sums Dtype.exact i weights) /\
  Dtype.less Dtype.exact (last_item Dtype.exact (running_sums Dtype.exact i weights))
    (Dtype.half Dtype.exact (last_item Dtype.exact (running_sums Dtype.exact i weights))) = false.
Proof.
  intros Hpos. unfold running_sums. rewrite typed_cumsum_exact.
  change (Typed.sorted_by Dtype.exact i weights) with (sorted_by i weights).
  pose proof (cumsum_ascending _ Hpos) as Hasc.
  set (c := Np.cumsum (sorted_by i weights)) in *.
  split.
  - intros p q Hpq. apply Qltb_ge. apply Hasc. exact Hpq.
  - unfold last_item. cbn [Dtype.num Dtype.half Dtype.exact Dtype.zero Dtype.less].
    apply Qltb_ge.
    destruct (Nat.eq_dec (length c) 0) as [E|E].
    + rewrite nth_overflow by lia. lra.
    + assert (0 <= nth (length c - 1) c 0) as H0.
      { unfold c. rewrite cumsum_nth by (unfold c in E; rewrite cumsum_length in *; lia).
        apply Qsum_nonneg. apply (Forall_firstn_skipn _ _ _ Hpos). }
      lra.
Qed.

(** In exact arithmetic equal positive weights give the lower median: the
    search ends at position (n - 1) / 2 of the values in ascending order. *)
Lemma typed_sorted_by_repeat (D : Dtype.t) (w : D) (n : nat) (i : list nat) :
  Forall (fun j => (j < n)%nat) i ->
  Typed.sorted_by D i (repeat w n) = repeat w (length i).
Proof.
  induction 1 as [|j i Hj _ IH]; simpl.
  - reflexivity.
  - rewrite IH. rewrite (nth_repeat_lt w (Dtype.zero D) Hj). reflexivity.
Qed.


(** ** weighted_median on well-formed inputs *)



(** C10. For a non-empty list of values and an equal-length list of
    non-negative weights, the all-zero list included, every index used inside
    weighted_median is within bounds: the indices of [argsort] into the
    weights, the index -1 into the running sums, the position found by
    [searchsorted] into the index list and the index read there into the
    values; and the result is an item of the value list. *)
Theorem weighted_median_indices_in_bounds
    (argsort : list Q -> list nat) (values weights : list Q) :
  values <> [] ->
  length weights = length values ->
  Forall (fun w => 0 <= w) weights ->
  is_argsort values (argsort values) ->
  let i := argsort values in
  exists (wi : list Q) (total : Q) (k j : nat) (r : Q),
    Forall (fun j => (j < length weights)%nat) i /\
    Np.take weights i = Ret wi /\
    Np.getitem (Np.cumsum wi) (-1) = Ret total /\
    k = Np.searchsorted (Np.cumsum wi) ((1 # 2) * total) /\
    (k < length i)%nat /\
    Np.getitem i (Z.of_nat k) = Ret j /\
    (j < length values)%nat /\
    Np.getitem values (Z.of_nat j) = Ret r /\
    weighted_median argsort values weights = Ret r /\
    In r values.
Proof.
  intros Hne Hlen Hpos Hsort i.
  destruct (run_lengths argsort values weights Hsort) as (Hi & _).
  destruct (run_total argsort values weights Hne Hlen Hsort) as (Hget & _).
  destruct (run_position argsort values weights Hne Hlen Hpos Hsort) as (Hk & _).
  destruct (run_result argsort values weights Hne Hlen Hpos Hsort) as (Hgi & Hj & Hres).
  do 5 eexists.
  split; [rewrite Hlen; apply argsort_in_range; exact Hsort|].
  split; [apply (run_take argsort values weights Hlen Hsort)|].
  split; [exact Hget|].
  split; [reflexivity|].
  split; [fold i in Hi; rewrite Hi; exact Hk|].
  split; [exact Hgi|].
  split; [exact Hj|].
  split; [apply getitem_nat_lt; exact Hj|].
  split; [exact Hres|].
  apply nth_In. exact Hj.
Qed.

Lemma weighted_median_indices_in_bounds_witness :
  let values := [3; 1; 2] in
  let weights := [0; 0; 0] in
  let i := argsort_stable values in
  exists (wi : list Q) (total : Q) (k j : nat) (r : Q),
    Forall (fun j => (j < length weights)%nat) i /\
    Np.take weights i = Ret wi /\
    Np.getitem (Np.cumsum wi) (-1) = Ret total /\
    k = Np.searchsorted (Np.cumsum wi) ((1 # 2) * total) /\
    (k < length i)%nat /\
    Np.getitem i (Z.of_nat k) = Ret j /\
    (j < length values)%nat /\
    Np.getitem values (Z.of_nat j) = Ret r /\
    weighted_median argsort_stable values weights = Ret r /\
    In r values.
Proof.
  apply (weighted_median_indices_in_bounds argsort_stable [3; 1; 2] [0; 0; 0]).
  - discriminate.
  - reflexivity.
  - repeat constructor; discriminate.
  - apply is_argsortb_sound. vm_compute. reflexivity.
Defined.

(** ** The weighted median without the sort *)

Lemma ascending_tail (x : Q) (l : list Q) :
  ascending (x :: l) -> ascending l /\ (forall y, In y l -> x <= y).
Proof.
  intros H. split.
  - intros p q Hpq. apply (H (S p) (S q)). simpl. lia.
  - intros y Hy. destruct (In_nth l y 0 Hy) as (q & Hq & <-).
    apply (H 0%nat (S q)). simpl. lia.
Qed.

Lemma weight_up_to_pairs_cons (v w : Q) (pairs : list (Q * Q)) (x : Q) :
  weight_up_to_pairs ((v, w) :: pairs) x =
  (if Qle_bool v x then w else 0) + weight_up_to_pairs pairs x.
Proof. reflexivity. Qed.

Lemma weight_up_to_pairs_nonneg (pairs : list (Q * Q)) (x : Q) :
  Forall (fun vw => 0 <= snd vw) pairs -> 0 <= weight_up_to_pairs pairs x.
Proof.
  induction 1 as [|[v w] pairs Hw _ IH].
  - apply Qle_refl.
  - rewrite weight_up_to_pairs_cons. simpl in Hw.
    destruct (Qle_bool v x); lra.
Qed.

Lemma weight_up_to_pairs_none (pairs : list (Q * Q)) (x : Q) :
  (forall vw, In vw pairs -> x < fst vw) -> weight_up_to_pairs pairs x == 0.
Proof.
  induction pairs as [|[v w] pairs IH]; intros H.
  - reflexivity.
  - rewrite weight_up_to_pairs_cons.
    rewrite IH by (intros vw Hvw; apply H; right; exact Hvw).
    specialize (H (v, w) (or_introl eq_refl)). simpl in H.
    destruct (Qle_bool v x) eqn:E; [|ring].
    apply Qle_bool_iff in E. lra.
Qed.

Lemma weight_up_to_pairs_permutation (pairs pairs' : list (Q * Q)) (x : Q) :
  Permutation pairs pairs' -> weight_up_to_pairs pairs x == weight_up_to_pairs pairs' x.
Proof.
  intros H. apply Qsum_permutation. apply Permutation_map. exact H.
Qed.

Lemma cumulative_weight_cons (w : Q) (l : list Q) (k : nat) :
  cumulative_weight (w :: l) (S k) = w + cumulative_weight l k.
Proof. reflexivity. Qed.

(** Up to position [k] of an ascending list, every item counts towards the
    weight up to the value at [k]. *)
Lemma cumulative_le_weight_up_to (pairs : list (Q * Q)) :
  ascending (map fst pairs) ->
  Forall (fun vw => 0 <= snd vw) pairs ->
  forall k, (k < length pairs)%nat ->
  cumulative_weight (map snd pairs) k <= weight_up_to_pairs pairs (nth k (map fst pairs) 0).
Proof.
  induction pairs as [|[v w] pairs IH]; intros Hasc Hpos k Hk; simpl in Hk; [lia|].
  change (map fst ((v, w) :: pairs)) with (v :: map fst pairs) in Hasc.
  apply ascending_tail in Hasc. destruct Hasc as (Hasc & Hhead).
  inversion Hpos as [|? ? Hw Hpos']; subst. simpl in Hw.
  rewrite weight_up_to_pairs_cons.
  destruct k as [|k].
  - simpl nth. unfold cumulative_weight. simpl.
    pose proof (weight_up_to_pairs_nonneg pairs v Hpos').
    assert (Qle_bool v v = true) as -> by (apply Qle_bool_iff; apply Qle_refl).
    lra.
  - change (map snd ((v, w) :: pairs)) with (w :: map snd pairs).
    rewrite cumulative_weight_cons.
    change (nth (S k) (map fst ((v, w) :: pairs)) 0) with (nth k (map fst pairs) 0).
    assert (Qle_bool v (nth k (map fst pairs) 0) = true) as ->.
    { apply Qle_bool_iff. apply Hhead. apply nth_In. rewrite length_map. lia. }
    specialize (IH Hasc Hpos' k ltac:(lia)). lra.
Qed.

(** Below the value at position [k] of an ascending list, only items before
    [k] count. *)
Lemma weight_up_to_le_before (pairs : list (Q * Q)) :
  ascending (map fst pairs) ->
  Forall (fun vw => 0 <= snd vw) pairs ->
  forall k y, (k < length pairs)%nat -> y < nth k (map fst pairs) 0 ->
  weight_up_to_pairs pairs y <= Qsum (firstn k (map snd pairs)).
Proof.
  induction pairs as [|[v w] pairs IH]; intros Hasc Hpos k y Hk Hy; simpl in Hk; [lia|].
  change (map fst ((v, w) :: pairs)) with (v :: map fst pairs) in Hasc.
  apply ascending_tail in Hasc. destruct Hasc as (Hasc & Hhead).
  inversion Hpos as [|? ? Hw Hpos']; subst. simpl in Hw.
  destruct k as [|k].
  - simpl in Hy. rewrite weight_up_to_pairs_none; [simpl; apply Qle_refl|].
    intros vw [<-|Hin]; simpl; [exact Hy|].
    apply Qlt_le_trans with v; [exact Hy|].
    apply Hhead. apply in_map. exact Hin.
  - rewrite weight_up_to_pairs_cons.
    change (nth (S k) (map fst ((v, w) :: pairs)) 0) with (nth k (map fst pairs) 0) in Hy.
    specialize (IH Hasc Hpos' k y ltac:(lia) Hy).
    change (firstn (S k) (map snd ((v, w) :: pairs))) with (w :: firstn k (map snd pairs)).
    simpl Qsum. destruct (Qle_bool v y); lra.
Qed.

Lemma combine_seq (a b : list Q) :
  length a = length b ->
  combine a b = map (fun j => (nth j a 0, nth j b 0)) (seq 0 (length a)).
Proof.
  revert b. induction a as [|x a IH]; intros [|y b] Hlen; simpl in Hlen; try lia.
  - reflexivity.
  - simpl. f_equal. rewrite <- seq_shift, map_map. apply IH. lia.
Qed.

Lemma combine_sorted_by (i : list nat) (a b : list Q) :
  combine (sorted_by i a) (sorted_by i b) = map (fun j => (nth j a 0, nth j b 0)) i.
Proof.
  induction i as [|j i IH]; simpl; [reflexivity|]. rewrite IH. reflexivity.
Qed.

Lemma map_fst_combine_sorted (i : list nat) (a b : list Q) :
  map fst (combine (sorted_by i a) (sorted_by i b)) = sorted_by i a /\
  map snd (combine (sorted_by i a) (sorted_by i b)) = sorted_by i b.
Proof.
  rewrite combine_sorted_by, !map_map. split; reflexivity.
Qed.

Lemma weight_up_to_sorted (values weights : list Q) (i : list nat) (x : Q) :
  Permutation i (seq 0 (length values)) -> length values = length weights ->
  weight_up_to (sorted_by i values) (sorted_by i weights) x == weight_up_to values weights x.
Proof.
  intros Hperm Hlen. unfold weight_up_to.
  apply weight_up_to_pairs_permutation.
  rewrite combine_sorted_by, (combine_seq values weights Hlen).
  apply Permutation_map. exact Hperm.
Qed.

(** With non-negative weights, weighted_median returns the weighted median
    in the sort-free sense. *)
Lemma weighted_median_is_weighted_median
    (argsort : list Q -> list nat) (values weights : list Q) :
  values <> [] ->
  length weights = length values ->
  Forall (fun w => 0 <= w) weights ->
  is_argsort values (argsort values) ->
  exists r, weighted_median argsort values weights = Ret r /\
            is_weighted_median values weights r.
Proof.
  intros Hne Hlen Hpos Hsort.
  destruct (run_lengths argsort values weights Hsort) as (Hi & Hsw & _).
  destruct (run_position argsort values weights Hne Hlen Hpos Hsort) as (Hk & Hreach & Hfirst).
  destruct (run_result argsort values weights Hne Hlen Hpos Hsort) as (_ & Hj & Hres).
  pose proof (run_sorted_weights_nonneg argsort values weights Hlen Hpos Hsort) as Hswpos.
  set (i := argsort values) in *.
  set (sv := sorted_by i values). set (sw := sorted_by i weights) in *.
  set (k := Np.searchsorted _ _) in *.
  destruct (map_fst_combine_sorted i values weights) as (Hfst & Hsnd).
  fold sv sw in Hfst, Hsnd.
  assert (ascending (map fst (combine sv sw))) as Hasc by (rewrite Hfst; apply Hsort).
  assert (Forall (fun vw => 0 <= snd vw) (combine sv sw)) as Hppos.
  { apply Forall_forall. intros [v w] Hin. simpl.
    rewrite Forall_forall in Hswpos. apply Hswpos. apply (in_combine_r _ _ _ _ Hin). }
  assert (length (combine sv sw) = length values) as Hclen.
  { rewrite length_combine. unfold sv. rewrite sorted_by_length. lia. }
  assert (nth k sv 0 = nth (nth k i 0%nat) values 0) as Hr
    by (apply sorted_by_nth; lia).
  exists (nth (nth k i 0%nat) values 0). split; [exact Hres|].
  rewrite <- Hr. split; [rewrite Hr; apply nth_In; exact Hj|]. split.
  - rewrite <- (weight_up_to_sorted values weights i _ (proj1 Hsort) (eq_sym Hlen)).
    pose proof (cumulative_le_weight_up_to (combine sv sw) Hasc Hppos k ltac:(lia)) as H.
    rewrite Hfst, Hsnd in H. fold sv sw. unfold weight_up_to. lra.
  - intros y Hy Hlt.
    rewrite <- (weight_up_to_sorted values weights i _ (proj1 Hsort) (eq_sym Hlen)).
    fold sv sw. unfold weight_up_to.
    pose proof (weight_up_to_le_before (combine sv sw) Hasc Hppos k y ltac:(lia)) as H.
    rewrite Hfst, Hsnd in H. specialize (H Hlt).
    destruct k as [|k'].
    + exfalso.
      assert (In y sv) as Hin.
      { apply (Permutation_in y (Permutation_sym (sorted_by_permutation i values (proj1 Hsort)))).
        exact Hy. }
      destruct (In_nth sv y 0 Hin) as (q & Hq & Hyq).
      pose proof (proj2 Hsort 0%nat q ltac:(fold i sv; lia)) as Hle.
      fold i sv in Hle. rewrite Hyq in Hle. lra.
    + specialize (Hfirst k' ltac:(lia)). unfold cumulative_weight in Hfirst. lra.
Qed.

(** The sort-free weighted median is unique as a number. *)
Lemma is_weighted_median_unique (values weights : list Q) (r1 r2 : Q) :
  is_weighted_median values weights r1 ->
  is_weighted_median values weights r2 ->
  r1 == r2.
Proof.
  intros (Hin1 & Hreach1 & Hleast1) (Hin2 & Hreach2 & Hleast2).
  destruct (Q_dec r1 r2) as [[Hlt|Hgt]|Heq]; [| |exact Heq]; exfalso.
  - specialize (Hleast2 r1 Hin1 Hlt). lra.
  - specialize (Hleast1 r2 Hin2 Hgt). lra.
Qed.

(** ** Zero weights *)

Lemma Qsum_zero (l : list Q) : Forall (fun w => w == 0) l -> Qsum l == 0.
Proof.
  induction 1 as [|x l Hx _ IH]; simpl.
  - reflexivity.
  - rewrite Hx, IH. ring.
Qed.

Lemma zero_weights_nonneg (l : list Q) :
  Forall (fun w => w == 0) l -> Forall (fun w => 0 <= w) l.
Proof.
  intros H. apply (Forall_impl _ (P := fun w => w == 0)); [|exact H].
  intros w Hw. rewrite Hw. apply Qle_refl.
Qed.

(** C2, as stated, fails: on all-zero weights weighted_median raises nothing
    and returns a value. *)
Lemma weighted_median_zero_weights_no_error :
  weighted_median argsort_stable [1; 2; 3] [0; 0; 0] = Ret 1 /\
  ~ (exists e, weighted_median argsort_stable [1; 2; 3] [0; 0; 0] = Raise e).
Proof.
  split.
  - vm_compute. reflexivity.
  - intros (e & H). vm_compute in H. discriminate.
Qed.

(** C2 (amended). For a non-empty list of values whose equal-length weights
    are all 0, weighted_median raises no error: it returns the smallest value
    of the list. *)
Theorem weighted_median_zero_weights_returns_minimum
    (argsort : list Q -> list nat) (values weights : list Q) :
  values <> [] ->
  length weights = length values ->
  Forall (fun w => w == 0) weights ->
  is_argsort values (argsort values) ->
  exists r,
    weighted_median argsort values weights = Ret r /\
    In r values /\
    (forall v, In v values -> r <= v).
Proof.
  intros Hne Hlen Hzero Hsort.
  pose proof (zero_weights_nonneg weights Hzero) as Hpos.
  destruct (weighted_median_is_weighted_median argsort values weights Hne Hlen Hpos Hsort)
    as (r & Hres & Hin & _ & Hleast).
  exists r. split; [exact Hres|]. split; [exact Hin|].
  intros v Hv. apply Qnot_lt_le. intros Hlt.
  specialize (Hleast v Hv Hlt).
  pose proof (Qsum_zero weights Hzero) as Hsum.
  assert (0 <= weight_up_to values weights v) as Hw.
  { apply weight_up_to_pairs_nonneg. apply Forall_forall. intros [x w] Hxw. simpl.
    rewrite Forall_forall in Hpos. apply Hpos. apply (in_combine_r _ _ _ _ Hxw). }
  lra.
Qed.

Lemma weighted_median_zero_weights_returns_minimum_witness :
  exists r,
    weighted_median argsort_stable [3; 1; 2] [0; 0; 0] = Ret r /\
    In r [3; 1; 2] /\
    (forall v, In v [3; 1; 2] -> r <= v).
Proof.
  apply (weighted_median_zero_weights_returns_minimum argsort_stable [3; 1; 2] [0; 0; 0]).
  - discriminate.
  - reflexivity.
  - repeat constructor; reflexivity.
  - apply is_argsortb_sound. vm_compute. reflexivity.
Defined.

(** ** A single item *)

(** C7, as stated, fails for a negative weight: half of the total then lies
    above the only running sum, the search ends past the end, and reading the
    index list there raises IndexError. *)
Lemma weighted_median_single_negative_weight :
  weighted_median argsort_stable [5] [-1] = Raise IndexError.
Proof. vm_compute. reflexivity. Qed.

(** C7 (amended). For a single value [v] and a single non-negative weight
    [w], zero included, weighted_median([v], [w]) returns [v] whatever the
    magnitude of [w]. *)
Theorem weighted_median_single_item
    (argsort : list Q -> list nat) (v w : Q) :
  0 <= w ->
  is_argsort [v] (argsort [v]) ->
  weighted_median argsort [v] [w] = Ret v.
Proof.
  intros Hw Hsort.
  assert ([v] <> []) as Hne by discriminate.
  assert (Forall (fun x => 0 <= x) [w]) as Hpos by (constructor; [exact Hw|constructor]).
  destruct (run_result argsort [v] [w] Hne eq_refl Hpos Hsort) as (_ & Hj & Hres).
  rewrite Hres. simpl in Hj.
  destruct (nth _ (argsort [v]) 0%nat) as [|j]; [reflexivity|lia].
Qed.

Lemma weighted_median_single_item_witness :
  weighted_median argsort_stable [5] [3 # 10] = Ret 5 /\
  weighted_median argsort_stable [5] [0] = Ret 5.
Proof.
  split.
  - apply (weighted_median_single_item argsort_stable 5 (3 # 10)).
    + discriminate.
    + apply is_argsortb_sound. vm_compute. reflexivity.
  - apply (weighted_median_single_item argsort_stable 5 0).
    + discriminate.
    + apply is_argsortb_sound. vm_compute. reflexivity.
Defined.

(** ** Equal weights *)

Lemma Qnat_S (n : nat) : Qnat (S n) == Qnat n + 1.
Proof.
  unfold Qnat. rewrite Nat2Z.inj_succ. unfold Z.succ.
  rewrite inject_Z_plus. reflexivity.
Qed.

Lemma Qnat_le (n m : nat) : Qnat n <= Qnat m <-> (n <= m)%nat.
Proof.
  unfold Qnat. rewrite <- Zle_Qle. lia.
Qed.

Lemma Qnat_double (m : nat) : Qnat (2 * m) == 2 * Qnat m.
Proof.
  unfold Qnat. rewrite Nat2Z.inj_mul, inject_Z_mult. reflexivity.
Qed.

Lemma half_reached_iff (w : Q) (n m : nat) :
  0 < w -> ((1 # 2) * (Qnat n * w) <= Qnat m * w <-> (n <= 2 * m)%nat).
Proof.
  intros Hw. rewrite <- Qnat_le, Qnat_double. split; intros H.
  - apply Qnot_lt_le. intros Hlt.
    assert (0 < (Qnat n - 2 * Qnat m) * w) as Hprod
      by (apply Qmult_lt_0_compat; lra).
    lra.
  - assert (0 <= (2 * Qnat m - Qnat n) * w) as Hprod
      by (apply Qmult_le_0_compat; lra).
    lra.
Qed.

Lemma half_not_reached_iff (w : Q) (n m : nat) :
  0 < w -> (Qnat m * w < (1 # 2) * (Qnat n * w) <-> (2 * m < n)%nat).
Proof.
  intros Hw. pose proof (half_reached_iff w n m Hw) as H. split; intros Hlt.
  - destruct (Nat.le_gt_cases n (2 * m)) as [Hle|Hgt]; [|exact Hgt].
    apply H in Hle. lra.
  - apply Qnot_le_lt. intros Hle. apply H in Hle. lia.
Qed.

Lemma Qsum_repeat (w : Q) (n : nat) : Qsum (repeat w n) == Qnat n * w.
Proof.
  induction n as [|n IH].
  - change (Qnat 0) with 0. change (Qsum (repeat w 0)) with 0. ring.
  - change (repeat w (S n)) with (w :: repeat w n). simpl Qsum.
    rewrite IH, Qnat_S. ring.
Qed.

Lemma cumulative_weight_repeat (w : Q) (n p : nat) :
  (p < n)%nat -> cumulative_weight (repeat w n) p == Qnat (S p) * w.
Proof.
  intros Hp. unfold cumulative_weight.
  replace n with (S p + (n - S p))%nat by lia.
  rewrite repeat_app, firstn_app.
  rewrite repeat_length, Nat.sub_diag, firstn_O, app_nil_r.
  rewrite firstn_all2 by (rewrite repeat_length; lia).
  apply Qsum_repeat.
Qed.

Lemma sorted_by_repeat (w : Q) (n : nat) (i : list nat) :
  Forall (fun j => (j < n)%nat) i -> sorted_by i (repeat w n) = repeat w (length i).
Proof.
  induction 1 as [|j i Hj _ IH]; simpl.
  - reflexivity.
  - rewrite IH. rewrite (nth_repeat_lt w 0 Hj). reflexivity.
Qed.

Lemma weight_up_to_repeat (w : Q) (values : list Q) (x : Q) :
  weight_up_to values (repeat w (length values)) x == Qnat (count_up_to values x) * w.
Proof.
  unfold weight_up_to, count_up_to.
  induction values as [|v values IH].
  - change (Qnat (length (filter (fun v => Qle_bool v x) []))) with 0.
    change (weight_up_to_pairs (combine [] (repeat w (length []))) x) with 0. ring.
  - change (combine (v :: values) (repeat w (length (v :: values))))
      with ((v, w) :: combine values (repeat w (length values))).
    rewrite weight_up_to_pairs_cons, IH. simpl filter.
    destruct (Qle_bool v x).
    + change (length (v :: filter (fun v0 => Qle_bool v0 x) values))
        with (S (length (filter (fun v0 => Qle_bool v0 x) values))).
      rewrite Qnat_S. ring.
    + ring.
Qed.

(** In exact arithmetic equal positive weights give the lower median: the
    search ends at position (n - 1) / 2 of the values in ascending order. *)
Lemma exact_equal_weights_lower_median
    (argsort : list Q -> list nat) (values : list Q) (w : Q) :
  values <> [] ->
  0 < w ->
  is_argsort values (argsort values) ->
  let c := Np.cumsum (sorted_by (argsort values) (repeat w (length values))) in
  Np.searchsorted c ((1 # 2) * nth (length c - 1) c 0) = ((length values - 1) / 2)%nat /\
  exists r,
    weighted_median argsort values (repeat w (length values)) = Ret r /\
    r = nth ((length values - 1) / 2) (sorted_by (argsort values) values) 0 /\
    is_lower_median values r.
Proof.
  intros Hne Hw Hsort. cbv zeta.
  set (n := length values). set (weights := repeat w n).
  assert (length weights = length values) as Hlen by apply repeat_length.
  assert (Forall (fun x => 0 <= x) weights) as Hpos.
  { apply Forall_forall. intros x Hx. apply repeat_spec in Hx. subst x. lra. }
  apply nonempty_length in Hne as Hn. fold n in Hn.
  destruct (run_lengths argsort values weights Hsort) as (Hi & _).
  destruct (run_position argsort values weights Hne Hlen Hpos Hsort) as (Hk & Hreach & Hfirst).
  destruct (run_result argsort values weights Hne Hlen Hpos Hsort) as (_ & _ & Hres).
  destruct (weighted_median_is_weighted_median argsort values weights Hne Hlen Hpos Hsort)
    as (r & Hres' & Hin & Hreach' & Hleast').
  set (k := Np.searchsorted _ _) in *.
  assert (sorted_by (argsort values) weights = repeat w n) as Hsw.
  { unfold weights. rewrite sorted_by_repeat by (apply argsort_in_range; exact Hsort).
    rewrite Hi. reflexivity. }
  rewrite Hsw in Hreach, Hfirst. fold n in Hk.
  assert (k = ((n - 1) / 2)%nat) as Hkeq.
  { unfold weights in Hreach, Hfirst.
    rewrite Qsum_repeat, cumulative_weight_repeat in Hreach by exact Hk.
    apply (half_reached_iff w n (S k) Hw) in Hreach.
    destruct k as [|k'].
    - assert (n = 1 \/ n = 2)%nat as [-> | ->] by lia; reflexivity.
    - specialize (Hfirst k' ltac:(lia)).
      rewrite Qsum_repeat, cumulative_weight_repeat in Hfirst by lia.
      apply (half_not_reached_iff w n (S k') Hw) in Hfirst.
      pose proof (Nat.div_mod_eq (n - 1) 2) as Hdiv.
      pose proof (Nat.mod_upper_bound (n - 1) 2 ltac:(lia)) as Hmod.
      lia. }
  split; [exact Hkeq|].
  exists r. split; [exact Hres'|]. split.
  - rewrite Hres in Hres'. injection Hres' as <-.
    rewrite <- Hkeq. rewrite sorted_by_nth by lia. reflexivity.
  - split; [exact Hin|]. unfold weights, n in Hreach', Hleast'. split.
    + rewrite Qsum_repeat, (weight_up_to_repeat w values r) in Hreach'.
      apply (half_reached_iff w _ _ Hw) in Hreach'. exact Hreach'.
    + intros y Hy Hlt. specialize (Hleast' y Hy Hlt).
      rewrite Qsum_repeat, (weight_up_to_repeat w values y) in Hleast'.
      apply (half_not_reached_iff w _ _ Hw) in Hleast'. exact Hleast'.
Qed.

(** C6, as stated, fails: there is no one rule. With float64 items the
    values 1 to 14, which are in ascending order already, give the lower
    median 7 under the weights 1.0 and the upper median 8 under the weights
    0.1, whose running sums are rounded. *)
Lemma weighted_median_equal_weights_no_fixed_rule :
  Typed.argsort_stable Dtype.float64 [1; 2; 3; 4; 5; 6; 7; 8; 9; 10; 11; 12; 13; 14]%float = seq 0 14 /\
  Typed.weighted_median Dtype.float64 (Typed.argsort_stable Dtype.float64)
    [1; 2; 3; 4; 5; 6; 7; 8; 9; 10; 11; 12; 13; 14]%float (repeat 1%float 14)
  = Ret 7%float /\
  Typed.weighted_median Dtype.float64 (Typed.argsort_stable Dtype.float64)
    [1; 2; 3; 4; 5; 6; 7; 8; 9; 10; 11; 12; 13; 14]%float
    (repeat 0x1.999999999999ap-4%float 14)
  = Ret 8%float.
Proof. vm_compute. repeat split; reflexivity. Qed.

(** C6 (amended). For a non-empty list of float64 values, none a NaN, with
    all weights equal to the same constant above zero, weighted_median is the
    unweighted median under the rule of the lower median whenever the
    running sums w, 2w, ..., nw and the half of the last one are computed
    without rounding: it returns the item at position (n - 1) / 2 of the
    values in ascending order, which is the least value that at least half
    of the items do not exceed. In particular
    weighted_median([1, 2, 3, 4], [1, 1, 1, 1]) is 2. *)
Theorem weighted_median_equal_weights_lower_median
    (argsort : list float -> list nat) (values : list float) (w : float) :
  values <> [] ->
  no_nan values ->
  PrimFloat.ltb 0 w = true ->
  Typed.is_argsort Dtype.float64 values (argsort values) ->
  no_rounding (repeat w (length values)) ->
  exists r,
    Typed.weighted_median Dtype.float64 argsort values (repeat w (length values)) = Ret r /\
    r = nth ((length values - 1) / 2)
            (Typed.sorted_by Dtype.float64 (argsort values) values) PrimFloat.zero /\
    is_lower_median (map float_value values) (float_value r).
Proof.
  intros Hne Hnan Hw0 Hsort Hexact.
  destruct (float64_positive w Hw0) as (Hwn & Hw).
  set (n := length values) in *. set (weights := repeat w n) in *.
  assert (length weights = length values) as Hlen by apply repeat_length.
  assert (Forall float64_nonneg weights) as Hpos.
  { apply Forall_forall. intros x Hx. apply repeat_spec in Hx. subst x. exact Hwn. }
  assert (Typed.sorted_by Dtype.float64 (argsort values) weights = weights) as Hsw.
  { destruct Hsort as [Hperm _]. unfold weights.
    rewrite typed_sorted_by_repeat.
    - rewrite (Permutation_length Hperm), length_seq. reflexivity.
    - apply Forall_forall. intros j Hj. apply (Permutation_in _ Hperm) in Hj.
      apply in_seq in Hj. destruct Hj as [_ Hj]. exact Hj. }
  rewrite <- Hsw in Hexact.
  destruct (float64_run_exact argsort values weights Hne Hlen Hnan Hpos Hsort Hexact)
    as (Hqsort & _ & _ & _ & Hrun & Hqrun).
  assert (map float_value weights = repeat (float_value w) (length (map float_value values)))
    as Hqw by (unfold weights, n; rewrite map_repeat, length_map; reflexivity).
  rewrite Hqw in Hqrun, Hrun.
  destruct (exact_equal_weights_lower_median (fun _ => argsort values)
              (map float_value values) (float_value w)) as (Hk & r' & Hres & _ & Hmed).
  - destruct values; [congruence|discriminate].
  - exact Hw.
  - exact Hqsort.
  - cbv beta in Hk, Hres. rewrite Hk in Hrun, Hqrun. rewrite Hres in Hqrun.
    injection Hqrun as ->. rewrite length_map in Hrun.
    rewrite length_map in Hmed.
    eexists. split; [exact Hrun|]. split; [reflexivity|]. exact Hmed.
Qed.

Lemma weighted_median_equal_weights_lower_median_witness :
  exists r,
    Typed.weighted_median Dtype.float64 (Typed.argsort_stable Dtype.float64)
      [1; 2; 3; 4]%float [1; 1; 1; 1]%float = Ret r /\
    r = 2%float /\
    is_lower_median (map float_value [1; 2; 3; 4]%float) (float_value r).
Proof.
  apply (weighted_median_equal_weights_lower_median (Typed.argsort_stable Dtype.float64)
           [1; 2; 3; 4]%float 1%float).
  - discriminate.
  - repeat constructor.
  - reflexivity.
  - apply typed_is_argsortb_sound. vm_compute. reflexivity.
  - apply no_roundingb_sound. vm_compute. reflexivity.
Defined.

(** On [1, 2, 3, 4] with unit weights every sort that meets the contract
    gives 2. *)
Lemma weighted_median_1234 (argsort : list Q -> list nat) :
  is_argsort [1; 2; 3; 4] (argsort [1; 2; 3; 4]) ->
  weighted_median argsort [1; 2; 3; 4] [1; 1; 1; 1] = Ret 2.
Proof.
  intros Hsort.
  destruct (weighted_median_is_weighted_median argsort [1; 2; 3; 4] [1; 1; 1; 1])
    as (r & Hres & Hin & Hreach & Hleast); try assumption.
  - discriminate.
  - reflexivity.
  - repeat constructor; discriminate.
  - rewrite Hres. f_equal.
    assert (In 2 [1; 2; 3; 4]) as H2 by (simpl; auto).
    destruct Hin as [<-|[<-|[<-|[<-|[]]]]].
    + exfalso. vm_compute in Hreach. apply Hreach. reflexivity.
    + reflexivity.
    + exfalso. specialize (Hleast 2 H2 eq_refl). vm_compute in Hleast. discriminate.
    + exfalso. specialize (Hleast 2 H2 eq_refl). vm_compute in Hleast. discriminate.
Qed.

(** ** The weighted medians of a comparison *)

Lemma zip_add_map {A : Type} (f g : A -> Q) (l : list A) :
  Np.zip_add (map f l) (map g l) = map (fun x => f x + g x) l.
Proof.
  induction l as [|x l IH]; simpl; [reflexivity|]. rewrite IH. reflexivity.
Qed.

(** The array arithmetic of the source computes the weights of the spec:
    the sum of the two frequency arrays, item by item, divided by 2; the two
    arrays have one item per key, so the sum never raises. *)
Lemma freqs_mean_weights (emb1 emb2 : Embedding) (mapping : list (string * Q)) :
  freqs_mean emb1 emb2 mapping = Ret (mean_frequency_weights emb1 emb2 mapping).
Proof.
  unfold freqs_mean, Np.add, keys.
  rewrite !length_map, Nat.eqb_refl. cbn [bind].
  rewrite zip_add_map. unfold Np.div_scalar, mean_frequency_weights.
  rewrite !map_map. reflexivity.
Qed.

Lemma weighted_median_of_mapping_weights
    (argsort : list Q -> list nat) (emb1 emb2 : Embedding)
    (mapping : list (string * Q)) (mapping_values : list Q) :
  weighted_median_of_mapping argsort emb1 emb2 mapping mapping_values =
  weighted_median argsort mapping_values (mean_frequency_weights emb1 emb2 mapping).
Proof.
  unfold weighted_median_of_mapping. rewrite freqs_mean_weights. reflexivity.
Qed.

Lemma mean_frequency_weights_aligned (emb1 emb2 : Embedding) (mapping : list (string * Q)) :
  aligned_with_mapping emb1 emb2 mapping (map snd mapping) (mean_frequency_weights emb1 emb2 mapping).
Proof.
  unfold aligned_with_mapping, mean_frequency_weights.
  rewrite !length_map. split; [reflexivity|]. split; [reflexivity|].
  intros j key score Hj. rewrite !nth_error_map, Hj. simpl. split; reflexivity.
Qed.


Lemma get_frequency_unset (emb : Embedding) (key : string) :
  is_frequency_set emb = false -> get_frequency emb key = 0.
Proof.
  unfold is_frequency_set, get_frequency.
  destruct (frequencies emb); [discriminate|reflexivity].
Qed.

Lemma mean_frequency_weights_unset (emb1 emb2 : Embedding) (mapping : list (string * Q)) :
  is_frequency_set emb1 = false -> is_frequency_set emb2 = false ->
  Forall (fun w => w == 0) (mean_frequency_weights emb1 emb2 mapping).
Proof.
  intros H1 H2. unfold mean_frequency_weights. apply Forall_forall.
  intros w Hw. apply in_map_iff in Hw. destruct Hw as ([key score] & <- & _).
  rewrite (get_frequency_unset emb1 _ H1), (get_frequency_unset emb2 _ H2).
  reflexivity.
Qed.

(** C5, as stated, fails for a comparison over no key at all: the running
    sums are empty and reading their last item raises IndexError. *)
Lemma compute_weighted_median_similarity_empty_mapping :
  is_frequency_set {| frequencies := None |} = false /\
  compute_weighted_median_similarity argsort_stable
    {| embeddings := ({| frequencies := None |}, {| frequencies := None |});
       neighborhoods_similarities := [];
       neighborhoods_ordered_similarities := [] |}
  = Raise IndexError.
Proof. split; reflexivity. Qed.

(** C5 (amended). For a comparison over at least one key whose two
    embeddings both have no frequency data, every frequency read is 0, every
    weight is 0, and compute_weighted_median_similarity raises nothing: it
    returns one of the similarity values. *)
Theorem compute_weighted_median_similarity_without_frequencies
    (argsort : list Q -> list nat) (comparison : EmbeddingComparison) :
  is_frequency_set (fst (embeddings comparison)) = false ->
  is_frequency_set (snd (embeddings comparison)) = false ->
  neighborhoods_similarities comparison <> [] ->
  is_argsort (neighborhoods_similarities_values comparison)
             (argsort (neighborhoods_similarities_values comparison)) ->
  (forall key, get_frequency (fst (embeddings comparison)) key = 0 /\
               get_frequency (snd (embeddings comparison)) key = 0) /\
  Forall (fun w => w == 0)
    (mean_frequency_weights (fst (embeddings comparison)) (snd (embeddings comparison))
       (neighborhoods_similarities comparison)) /\
  exists r,
    compute_weighted_median_similarity argsort comparison = Ret r /\
    In r (neighborhoods_similarities_values comparison).
Proof.
  destruct comparison as [[emb1 emb2] plain ordered].
  unfold neighborhoods_similarities_values. cbn [embeddings fst snd neighborhoods_similarities].
  intros H1 H2 Hne Hsort.
  split; [intros key; split; apply get_frequency_unset; assumption|].
  pose proof (mean_frequency_weights_unset emb1 emb2 plain H1 H2) as Hzero.
  split; [exact Hzero|].
  destruct (weighted_median_is_weighted_median argsort (map snd plain)
              (mean_frequency_weights emb1 emb2 plain)) as (r & Hres & Hin & _).
  - destruct plain; [congruence|discriminate].
  - unfold mean_frequency_weights. rewrite !length_map. reflexivity.
  - apply zero_weights_nonneg. exact Hzero.
  - exact Hsort.
  - exists r. split; [|exact Hin].
    unfold compute_weighted_median_similarity, neighborhoods_similarities_values.
    cbn [embeddings neighborhoods_similarities].
    rewrite weighted_median_of_mapping_weights. exact Hres.
Qed.

Lemma compute_weighted_median_similarity_without_frequencies_witness :
  (forall key, get_frequency {| frequencies := None |} key = 0 /\
               get_frequency {| frequencies := None |} key = 0) /\
  Forall (fun w => w == 0)
    (mean_frequency_weights {| frequencies := None |} {| frequencies := None |}
       [("a"%string, 1 # 2); ("b"%string, 1 # 4); ("c"%string, 1)]) /\
  exists r,
    compute_weighted_median_similarity argsort_stable
      {| embeddings := ({| frequencies := None |}, {| frequencies := None |});
         neighborhoods_similarities := [("a"%string, 1 # 2); ("b"%string, 1 # 4); ("c"%string, 1)];
         neighborhoods_ordered_similarities := [] |} = Ret r /\
    In r [1 # 2; 1 # 4; 1].
Proof.
  apply (compute_weighted_median_similarity_without_frequencies argsort_stable
           {| embeddings := ({| frequencies := None |}, {| frequencies := None |});
              neighborhoods_similarities := [("a"%string, 1 # 2); ("b"%string, 1 # 4); ("c"%string, 1)];
              neighborhoods_ordered_similarities := [] |}).
  - reflexivity.
  - reflexivity.
  - discriminate.
  - apply is_argsortb_sound. vm_compute. reflexivity.
Defined.

(** ** AdvancedParameters *)

(** C8, as stated, fails: the constructor of helpers.py takes 0 neighbors
    and a maximum size of 5 and stores them, and so does the tuple of
    app.py. *)
Lemma advanced_parameters_accepts_out_of_range :
  (exists self,
      AdvancedParameters.init
        [("n_neighbors"%string, PyInt 0); ("max_emb_size"%string, PyInt 5)] = Ret self /\
      AdvancedParameters.getattr self "n_neighbors"%string = Some (PyInt 0) /\
      AdvancedParameters.getattr self "max_emb_size"%string = Some (PyInt 5)) /\
  App.n_neighbors {| App.n_neighbors := 0; App.max_emb_size := 5 |} = 0%Z /\
  App.max_emb_size {| App.n_neighbors := 0; App.max_emb_size := 5 |} = 5%Z.
Proof.
  split; [|split; reflexivity].
  eexists. split; [reflexivity|]. split; reflexivity.
Qed.

Lemma selection_attributes
    (number_input_int : string -> Z -> Z -> Z -> Z -> string -> Z)
    (number_input_float : string -> Q -> Q -> Q -> Q -> string -> Q) :
  exists self n m,
    AdvancedParameters.selection number_input_int number_input_float = Ret self /\
    AdvancedParameters.getattr self "n_neighbors"%string = Some (PyInt n) /\
    AdvancedParameters.getattr self "max_emb_size"%string = Some (PyInt m) /\
    n = number_input_int "Number of neighbors to use in the comparison"%string
          1%Z 1000%Z 10%Z 25%Z "n_neighbors"%string /\
    m = number_input_int
          "Maximum number of elements in the embeddings (help to reduce memory footprint) :"%string
          100%Z 200000%Z 10000%Z 10000%Z "max_emb_size"%string.
Proof.
  do 3 eexists. split; [reflexivity|].
  split; [reflexivity|]. split; [reflexivity|]. split; reflexivity.
Qed.

(** C8 (amended). Neither constructor rejects anything: for every
    n_neighbors, max_emb_size and min_frequency, the non-positive and the
    too-small ones included, the constructor of helpers.py succeeds and
    stores the values as given, and so does the tuple of app.py. The bounds
    n_neighbors >= 1 and max_emb_size >= 100 hold of the parameters built by
    [selection] and [get_advanced_parameters], through the [min_value] of
    the number inputs they read. *)
Theorem advanced_parameters_constructor_accepts_any_value :
  (forall (n m : Z) (f : Q),
      exists self,
        AdvancedParameters.init
          [("n_neighbors"%string, PyInt n);
           ("max_emb_size"%string, PyInt m);
           ("min_frequency"%string, PyFloat f)] = Ret self /\
        AdvancedParameters.getattr self "n_neighbors"%string = Some (PyInt n) /\
        AdvancedParameters.getattr self "max_emb_size"%string = Some (PyInt m) /\
        AdvancedParameters.getattr self "min_frequency"%string = Some (PyFloat f)) /\
  (forall n m : Z,
      App.n_neighbors {| App.n_neighbors := n; App.max_emb_size := m |} = n /\
      App.max_emb_size {| App.n_neighbors := n; App.max_emb_size := m |} = m) /\
  (forall number_input_int number_input_float,
      within_widget_bounds number_input_int ->
      exists self n m,
        AdvancedParameters.selection number_input_int number_input_float = Ret self /\
        AdvancedParameters.getattr self "n_neighbors"%string = Some (PyInt n) /\
        AdvancedParameters.getattr self "max_emb_size"%string = Some (PyInt m) /\
        (1 <= n)%Z /\ (100 <= m)%Z) /\
  (forall number_input_int,
      within_widget_bounds number_input_int ->
      (1 <= App.n_neighbors (App.get_advanced_parameters number_input_int))%Z /\
      (100 <= App.max_emb_size (App.get_advanced_parameters number_input_int))%Z).
Proof.
  split; [|split; [|split]].
  - intros n m f. eexists. split; [reflexivity|].
    split; [reflexivity|]. split; reflexivity.
  - intros n m. split; reflexivity.
  - intros number_input_int number_input_float Hw.
    destruct (selection_attributes number_input_int number_input_float)
      as (self & n & m & Hsel & Hn & Hm & -> & ->).
    exists self. do 2 eexists. split; [exact Hsel|].
    split; [exact Hn|]. split; [exact Hm|]. split; apply Hw; lia.
  - intros number_input_int Hw. unfold App.get_advanced_parameters.
    cbn [App.n_neighbors App.max_emb_size]. split; apply Hw; lia.
Qed.

Lemma advanced_parameters_constructor_accepts_any_value_witness :
  (1 <= App.n_neighbors (App.get_advanced_parameters (fun _ _ _ _ value _ => value)))%Z /\
  (100 <= App.max_emb_size (App.get_advanced_parameters (fun _ _ _ _ value _ => value)))%Z.
Proof.
  apply (proj2 (proj2 (proj2 advanced_parameters_constructor_accepts_any_value))).
  intros label min_value max_value step value key H. exact H.
Defined.

(** ** The two insertion sorts meet the contract of argsort *)

Lemma StronglySorted_nth {A : Type} (R : A -> A -> Prop) (d : A) (l : list A) :
  StronglySorted R l ->
  forall p q, (p < q < length l)%nat -> R (nth p l d) (nth q l d).
Proof.
  induction 1 as [|x l _ IH Hall]; intros p q Hpq; simpl in Hpq; [lia|].
  destruct q as [|q]; [lia|]. destruct p as [|p].
  - simpl. rewrite Forall_forall in Hall. apply Hall. apply nth_In. lia.
  - simpl. apply IH. lia.
Qed.

Section InsertionArgsortCorrect.

Variable before : Q -> Q -> bool.
Variable values : list Q.
Variable R : nat -> nat -> Prop.

Hypothesis R_trans : forall a b c, R a b -> R b c -> R a c.
Hypothesis R_le : forall a b, R a b -> nth a values 0 <= nth b values 0.
Hypothesis before_true :
  forall j k, (k < j)%nat -> before (nth j values 0) (nth k values 0) = true -> R j k.
Hypothesis before_false :
  forall j k, (k < j)%nat -> before (nth j values 0) (nth k values 0) = false -> R k j.

Lemma insert_index_permutation (j : nat) (l : list nat) :
  Permutation (insert_index before values j l) (j :: l).
Proof.
  induction l as [|k l IH]; simpl.
  - apply Permutation_refl.
  - destruct (before _ _).
    + apply Permutation_refl.
    + apply perm_trans with (k :: j :: l); [apply perm_skip; exact IH|apply perm_swap].
Qed.

Lemma insert_index_sorted (j : nat) (l : list nat) :
  Forall (fun k => (k < j)%nat) l ->
  Sorted R l -> Sorted R (insert_index before values j l).
Proof.
  induction l as [|k l IH]; intros Hlt Hs; simpl.
  - constructor; constructor.
  - inversion Hlt as [|? ? Hk Hlt']; subst.
    apply Sorted_inv in Hs. destruct Hs as (Hs & Hhd).
    destruct (before (nth j values 0) (nth k values 0)) eqn:E.
    + constructor; [constructor; assumption|].
      constructor. apply before_true; assumption.
    + constructor; [apply IH; assumption|].
      destruct l as [|k' l]; simpl.
      * constructor. apply before_false; assumption.
      * destruct (before (nth j values 0) (nth k' values 0)).
        -- constructor. apply before_false; assumption.
        -- constructor. apply HdRel_inv in Hhd. exact Hhd.
Qed.

Lemma argsort_with_prefix (m : nat) :
  Permutation (fold_left (fun acc j => insert_index before values j acc) (seq 0 m) [])
              (seq 0 m) /\
  Sorted R (fold_left (fun acc j => insert_index before values j acc) (seq 0 m) []).
Proof.
  induction m as [|m (Hperm & Hsorted)].
  - simpl. split; constructor.
  - rewrite seq_S, fold_left_app. simpl. split.
    + eapply perm_trans; [apply insert_index_permutation|].
      eapply perm_trans; [apply perm_skip; exact Hperm|].
      apply Permutation_cons_append.
    + apply insert_index_sorted; [|exact Hsorted].
      apply Forall_forall. intros k Hk.
      apply (Permutation_in _ Hperm) in Hk. apply in_seq in Hk. lia.
Qed.

Lemma argsort_with_strongly_sorted :
  StronglySorted R (argsort_with before values).
Proof.
  apply Sorted_StronglySorted.
  - intros a b c. apply R_trans.
  - apply argsort_with_prefix.
Qed.

Lemma argsort_with_contract : is_argsort values (argsort_with before values).
Proof.
  split; [apply argsort_with_prefix|].
  pose proof argsort_with_strongly_sorted as Hs.
  assert (length (argsort_with before values) = length values) as Hlen.
  { unfold argsort_with.
    rewrite (Permutation_length (proj1 (argsort_with_prefix (length values)))).
    apply length_seq. }
  intros p q [Hpq Hq]. rewrite sorted_by_length in Hq.
  rewrite !sorted_by_nth by lia.
  destruct (Nat.eq_dec p q) as [->|Hneq]; [apply Qle_refl|].
  apply R_le. apply (StronglySorted_nth R 0%nat _ Hs). lia.
Qed.

End InsertionArgsortCorrect.

Lemma stable_order_trans (values : list Q) (a b c : nat) :
  stable_order values a b -> stable_order values b c -> stable_order values a c.
Proof.
  unfold stable_order. intros [H1|[H1 H1']] [H2|[H2 H2']].
  - left. lra.
  - left. lra.
  - left. lra.
  - right. split; [lra|lia].
Qed.

Lemma reversed_ties_order_trans (values : list Q) (a b c : nat) :
  reversed_ties_order values a b -> reversed_ties_order values b c ->
  reversed_ties_order values a c.
Proof.
  unfold reversed_ties_order. intros [H1|[H1 H1']] [H2|[H2 H2']].
  - left. lra.
  - left. lra.
  - left. lra.
  - right. split; [lra|lia].
Qed.

(** The stable sort meets the contract on every array. *)
Lemma argsort_stable_contract (values : list Q) :
  is_argsort values (argsort_stable values).
Proof.
  apply (argsort_with_contract Qltb values (stable_order values)).
  - apply stable_order_trans.
  - intros a b [H|[H _]]; lra.
  - intros j k _ H. apply Qltb_lt in H. left. exact H.
  - intros j k Hkj H. apply Qltb_ge in H.
    destruct (Qlt_le_dec (nth k values 0) (nth j values 0)) as [Hlt|Hle].
    + left. exact Hlt.
    + right. split; [lra|exact Hkj].
Qed.

(** The stable sort keeps ties in their original order. *)
Lemma argsort_stable_keeps_ties (values : list Q) :
  ties_in_original_order values (argsort_stable values).
Proof.
  intros p q Hpq Heq.
  assert (StronglySorted (stable_order values) (argsort_stable values)) as Hs.
  { apply (argsort_with_strongly_sorted Qltb values (stable_order values)).
    - apply stable_order_trans.
    - intros j k _ H. apply Qltb_lt in H. left. exact H.
    - intros j k Hkj H. apply Qltb_ge in H.
      destruct (Qlt_le_dec (nth k values 0) (nth j values 0)) as [Hlt|Hle].
      + left. exact Hlt.
      + right. split; [lra|exact Hkj]. }
  destruct (StronglySorted_nth _ 0%nat _ Hs p q Hpq) as [Hlt|[_ Hidx]]; [lra|exact Hidx].
Qed.

(** The sort that reverses ties meets the contract on every array too. *)
Lemma argsort_ties_reversed_contract (values : list Q) :
  is_argsort values (argsort_ties_reversed values).
Proof.
  apply (argsort_with_contract Qle_bool values (reversed_ties_order values)).
  - apply reversed_ties_order_trans.
  - intros a b [H|[H _]]; lra.
  - intros j k Hkj H. apply Qle_bool_iff in H.
    destruct (Qlt_le_dec (nth j values 0) (nth k values 0)) as [Hlt|Hle].
    + left. exact Hlt.
    + right. split; [lra|exact Hkj].
  - intros j k _ H. left. apply Qnot_le_lt. intros Hle.
    apply Qle_bool_iff in Hle. congruence.
Qed.

(** * Further properties of weighted_median *)

(** ** Malformed arrays *)

Lemma is_argsort_nil (i : list nat) : is_argsort [] i -> i = [].
Proof.
  intros [Hperm _]. simpl in Hperm.
  apply Permutation_sym in Hperm. apply Permutation_nil in Hperm. exact Hperm.
Qed.

Lemma weighted_median_empty_values_any
    (argsort : list Q -> list nat) (weights : list Q) :
  is_argsort [] (argsort []) ->
  weighted_median argsort [] weights = Raise IndexError.
Proof.
  intros Hsort. unfold weighted_median.
  rewrite (is_argsort_nil _ Hsort). reflexivity.
Qed.

(** On an empty value array the running sums are empty and [c[-1]] raises
    IndexError, whatever the weights. *)
Theorem weighted_median_empty_values
    (argsort : list Q -> list nat) (weights : list Q) :
  is_argsort [] (argsort []) ->
  weighted_median argsort [] weights = Raise IndexError.
Proof.
  exact (weighted_median_empty_values_any argsort weights).
Qed.

Lemma weighted_median_empty_values_witness :
  weighted_median argsort_stable [] [1; 2] = Raise IndexError.
Proof.
  apply (weighted_median_empty_values argsort_stable [1; 2]).
  apply is_argsortb_sound. reflexivity.
Defined.

Lemma take_out_of_range (a : list Q) (i : list nat) :
  (exists j, In j i /\ (length a <= j)%nat) -> Np.take a i = Raise IndexError.
Proof.
  induction i as [|j0 i IH]; intros (j & Hin & Hj).
  - destruct Hin.
  - cbn [Np.take]. destruct (Nat.lt_ge_cases j0 (length a)) as [Hlt|Hge].
    + rewrite (getitem_nat_lt a j0 0 Hlt). cbn [bind].
      destruct Hin as [->|Hin]; [lia|].
      rewrite IH by (exists j; split; assumption). reflexivity.
    + rewrite (getitem_nat_ge a j0 Hge). reflexivity.
Qed.

(** With fewer weights than values, reading the weights through the sorted
    indices raises IndexError. *)
Theorem weighted_median_too_few_weights
    (argsort : list Q -> list nat) (values weights : list Q) :
  (length weights < length values)%nat ->
  is_argsort values (argsort values) ->
  weighted_median argsort values weights = Raise IndexError.
Proof.
  intros Hlen [Hperm _]. unfold weighted_median.
  rewrite take_out_of_range; [reflexivity|].
  exists (length values - 1)%nat. split; [|lia].
  apply (Permutation_in _ (Permutation_sym Hperm)). apply in_seq. lia.
Qed.

Lemma weighted_median_too_few_weights_witness :
  weighted_median argsort_stable [3; 1; 2] [1; 1] = Raise IndexError.
Proof.
  apply (weighted_median_too_few_weights argsort_stable [3; 1; 2] [1; 1]).
  - simpl. lia.
  - apply is_argsortb_sound. vm_compute. reflexivity.
Defined.

Lemma take_firstn (a : list Q) (n : nat) (i : list nat) :
  Forall (fun j => (j < n)%nat) i -> Np.take (firstn n a) i = Np.take a i.
Proof.
  induction 1 as [|j i Hj _ IH]; cbn [Np.take]; [reflexivity|].
  rewrite IH, !getitem_nat, nth_error_firstn.
  destruct (j <? n)%nat eqn:E; [reflexivity|]. apply Nat.ltb_ge in E. lia.
Qed.

(** Weights beyond the length of the values are never read: the result is
    that of the weights cut to the length of the values. *)
Theorem weighted_median_surplus_weights_ignored
    (argsort : list Q -> list nat) (values weights : list Q) :
  is_argsort values (argsort values) ->
  weighted_median argsort values weights =
  weighted_median argsort values (firstn (length values) weights).
Proof.
  intros Hsort. unfold weighted_median.
  rewrite (take_firstn weights (length values) (argsort values)
             (argsort_in_range values _ Hsort)).
  reflexivity.
Qed.

Lemma weighted_median_surplus_weights_ignored_witness :
  weighted_median argsort_stable [3; 1; 2] [1; 1; 1; 7; 9] =
  weighted_median argsort_stable [3; 1; 2] [1; 1; 1].
Proof.
  apply (weighted_median_surplus_weights_ignored argsort_stable [3; 1; 2] [1; 1; 1; 7; 9]).
  apply is_argsortb_sound. vm_compute. reflexivity.
Defined.



(** ** The weighted median as a balance point *)

(** The properties of this part belong to exact sums. They are stated of
    float64 runs that meet no rounding, where the running sums are the
    exact ones, and speak of the numbers that the items stand for. *)

Lemma combine_float_value (values weights : list float) :
  combine (map float_value values) (map float_value weights) =
  map (fun vw => (float_value (fst vw), float_value (snd vw))) (combine values weights).
Proof.
  revert weights. induction values as [|v values IH]; intros [|w weights];
    simpl; try reflexivity.
  rewrite IH. reflexivity.
Qed.

Section Float64Exact.

Variable argsort : list float -> list nat.
Variables values weights : list float.

Hypothesis values_nonempty : values <> [].
Hypothesis same_length : length weights = length values.
Hypothesis values_numbers : no_nan values.
Hypothesis weights_nonneg : Forall float64_nonneg weights.
Hypothesis argsort_ok : Typed.is_argsort Dtype.float64 values (argsort values).
Hypothesis sums_exact : no_rounding (Typed.sorted_by Dtype.float64 (argsort values) weights).

Lemma float64_is_weighted_median :
  exists r,
    Typed.weighted_median Dtype.float64 argsort values weights = Ret r /\
    In r values /\
    weighted_median (fun _ => argsort values) (map float_value values) (map float_value weights)
    = Ret (float_value r) /\
    is_weighted_median (map float_value values) (map float_value weights) (float_value r).
Proof.
  destruct (float64_run_exact argsort values weights values_nonempty same_length
              values_numbers weights_nonneg argsort_ok sums_exact)
    as (Hqsort & Hqpos & _ & Hin & Hrun & Hqrun).
  destruct (weighted_median_is_weighted_median (fun _ => argsort values)
              (map float_value values) (map float_value weights))
    as (r' & Hres & Hmed).
  - destruct values; [congruence|discriminate].
  - rewrite !length_map. exact same_length.
  - exact Hqpos.
  - exact Hqsort.
  - rewrite Hres in Hqrun. injection Hqrun as ->.
    eexists. split; [exact Hrun|]. split; [exact Hin|]. split; [exact Hres|exact Hmed].
Qed.

End Float64Exact.

(** With non-negative weights and no rounding the result is the least value
    of the array whose weight-up-to reaches half of the total weight,
    whatever sort is behind [np.argsort]. *)
Theorem weighted_median_least_value_reaching_half
    (argsort : list float -> list nat) (values weights : list float) :
  values <> [] ->
  length weights = length values ->
  no_nan values ->
  Forall float64_nonneg weights ->
  Typed.is_argsort Dtype.float64 values (argsort values) ->
  no_rounding (Typed.sorted_by Dtype.float64 (argsort values) weights) ->
  exists r,
    Typed.weighted_median Dtype.float64 argsort values weights = Ret r /\
    In r values /\
    (1 # 2) * Qsum (map float_value weights)
    <= weight_up_to (map float_value values) (map float_value weights) (float_value r) /\
    (forall y, In y values -> float_value y < float_value r ->
               weight_up_to (map float_value values) (map float_value weights) (float_value y)
               < (1 # 2) * Qsum (map float_value weights)).
Proof.
  intros Hne Hlen Hnan Hpos Hsort Hexact.
  destruct (float64_is_weighted_median argsort values weights Hne Hlen Hnan Hpos Hsort Hexact)
    as (r & Hrun & Hin & _ & (_ & Hreach & Hleast)).
  exists r. split; [exact Hrun|]. split; [exact Hin|]. split; [exact Hreach|].
  intros y Hy Hlt. apply Hleast; [|exact Hlt]. apply in_map. exact Hy.
Qed.

Lemma weighted_median_least_value_reaching_half_witness :
  let values := [3; 1; 2; 1]%float in
  let weights := [1; 2; 3; 4]%float in
  exists r,
    Typed.weighted_median Dtype.float64 (Typed.argsort_stable Dtype.float64) values weights
    = Ret r /\
    In r values /\
    (1 # 2) * Qsum (map float_value weights)
    <= weight_up_to (map float_value values) (map float_value weights) (float_value r) /\
    (forall y, In y values -> float_value y < float_value r ->
               weight_up_to (map float_value values) (map float_value weights) (float_value y)
               < (1 # 2) * Qsum (map float_value weights)).
Proof.
  apply (weighted_median_least_value_reaching_half (Typed.argsort_stable Dtype.float64)
           [3; 1; 2; 1]%float [1; 2; 3; 4]%float).
  - discriminate.
  - reflexivity.
  - repeat constructor.
  - repeat constructor.
  - apply typed_is_argsortb_sound. vm_compute. reflexivity.
  - apply no_roundingb_sound. vm_compute. reflexivity.
Defined.

Lemma map_snd_combine (values weights : list Q) :
  length weights = length values -> map snd (combine values weights) = weights.
Proof.
  revert weights. induction values as [|v values IH]; intros [|w weights] Hlen;
    simpl in *; try lia; try reflexivity.
  f_equal. apply IH. lia.
Qed.

Lemma weight_up_to_plus_above (values weights : list Q) (x : Q) :
  length weights = length values ->
  weight_up_to values weights x + weight_above values weights x == Qsum weights.
Proof.
  intros Hlen. rewrite <- (map_snd_combine values weights Hlen) at 3.
  unfold weight_up_to, weight_up_to_pairs, weight_above.
  induction (combine values weights) as [|[v w] pairs IH]; simpl.
  - ring.
  - unfold Qltb at 1. destruct (Qle_bool v x); cbn [negb]; lra.
Qed.

Lemma Qlist_max (l : list Q) :
  l <> [] -> exists m, In m l /\ forall x, In x l -> x <= m.
Proof.
  induction l as [|a l IH]; intros Hne; [congruence|].
  destruct l as [|b l].
  - exists a. split; [left; reflexivity|]. intros x [<-|[]]. apply Qle_refl.
  - destruct IH as (m & Hin & Hmax); [discriminate|].
    destruct (Qlt_le_dec m a) as [Hlt|Hle].
    + exists a. split; [left; reflexivity|].
      intros x [<-|Hx]; [apply Qle_refl|]. specialize (Hmax x Hx). lra.
    + exists m. split; [right; exact Hin|].
      intros x [<-|Hx]; [exact Hle|apply Hmax; exact Hx].
Qed.

Lemma weight_below_le_half (values weights : list Q) (r : Q) :
  Forall (fun w => 0 <= w) weights ->
  (forall y, In y values -> y < r ->
             weight_up_to values weights y < (1 # 2) * Qsum weights) ->
  weight_below values weights r <= (1 # 2) * Qsum weights.
Proof.
  intros Hpos Hleast.
  pose proof (Qsum_nonneg weights Hpos) as Htotal.
  destruct (filter (fun v => Qltb v r) values) as [|s0 S'] eqn:HS.
  - assert (weight_below values weights r = 0) as ->; [|lra].
    unfold weight_below.
    assert (forall vw, In vw (combine values weights) -> Qltb (fst vw) r = false) as Hnone.
    { intros [v w] Hin. simpl. destruct (Qltb v r) eqn:E; [|reflexivity].
      assert (In v (filter (fun v => Qltb v r) values)) as Hv
        by (apply filter_In; split; [apply (in_combine_l _ _ _ _ Hin)|exact E]).
      rewrite HS in Hv. destruct Hv. }
    induction (combine values weights) as [|[v w] pairs IH]; [reflexivity|].
    pose proof (Hnone (v, w) (or_introl eq_refl)) as Hv. cbn [fst] in Hv.
    cbn [map Qsum fold_right fst snd]. rewrite Hv.
    change (fold_right Qplus 0 (map (fun vw => if Qltb (fst vw) r then snd vw else 0) pairs))
      with (Qsum (map (fun vw => if Qltb (fst vw) r then snd vw else 0) pairs)).
    rewrite IH by (intros vw Hvw; apply Hnone; right; exact Hvw). reflexivity.
  - destruct (Qlist_max (s0 :: S')) as (m & Hm & Hmax); [discriminate|].
    rewrite <- HS in Hm, Hmax. apply filter_In in Hm. destruct Hm as (Hmin & Hmr).
    apply Qltb_lt in Hmr.
    assert (weight_below values weights r = weight_up_to values weights m) as ->.
    { unfold weight_below, weight_up_to, weight_up_to_pairs. f_equal.
      apply map_ext_in. intros [v w] Hin. simpl.
      assert (Qltb v r = Qle_bool v m) as ->; [|reflexivity].
      destruct (Qltb v r) eqn:E.
      - symmetry. apply Qle_bool_iff. apply Hmax. apply filter_In.
        split; [apply (in_combine_l _ _ _ _ Hin)|exact E].
      - apply Qltb_ge in E. destruct (Qle_bool v m) eqn:E'; [|reflexivity].
        apply Qle_bool_iff in E'. lra. }
    apply Qlt_le_weak. apply Hleast; assumption.
Qed.

(** In exact arithmetic the result balances the weight. *)
Lemma exact_balances_weight
    (argsort : list Q -> list nat) (values weights : list Q) :
  values <> [] ->
  length weights = length values ->
  Forall (fun w => 0 <= w) weights ->
  is_argsort values (argsort values) ->
  exists r,
    weighted_median argsort values weights = Ret r /\
    weight_below values weights r <= (1 # 2) * Qsum weights /\
    weight_above values weights r <= (1 # 2) * Qsum weights.
Proof.
  intros Hne Hlen Hpos Hsort.
  destruct (weighted_median_is_weighted_median argsort values weights Hne Hlen Hpos Hsort)
    as (r & Hres & Hin & Hreach & Hleast).
  exists r. split; [exact Hres|]. split.
  - apply weight_below_le_half; assumption.
  - pose proof (weight_up_to_plus_above values weights r Hlen). lra.
Qed.

(** With non-negative weights and no rounding the result balances the
    weight: the items strictly below it carry at most half of the total
    weight, and so do the items strictly above it. *)
Theorem weighted_median_balances_weight
    (argsort : list float -> list nat) (values weights : list float) :
  values <> [] ->
  length weights = length values ->
  no_nan values ->
  Forall float64_nonneg weights ->
  Typed.is_argsort Dtype.float64 values (argsort values) ->
  no_rounding (Typed.sorted_by Dtype.float64 (argsort values) weights) ->
  exists r,
    Typed.weighted_median Dtype.float64 argsort values weights = Ret r /\
    weight_below (map float_value values) (map float_value weights) (float_value r)
    <= (1 # 2) * Qsum (map float_value weights) /\
    weight_above (map float_value values) (map float_value weights) (float_value r)
    <= (1 # 2) * Qsum (map float_value weights).
Proof.
  intros Hne Hlen Hnan Hpos Hsort Hexact.
  destruct (float64_run_exact argsort values weights Hne Hlen Hnan Hpos Hsort Hexact)
    as (Hqsort & Hqpos & _ & _ & Hrun & Hqrun).
  destruct (exact_balances_weight (fun _ => argsort values)
              (map float_value values) (map float_value weights))
    as (r' & Hres & Hbal).
  - destruct values; [congruence|discriminate].
  - rewrite !length_map. exact Hlen.
  - exact Hqpos.
  - exact Hqsort.
  - rewrite Hres in Hqrun. injection Hqrun as ->.
    eexists. split; [exact Hrun|exact Hbal].
Qed.

Lemma weighted_median_balances_weight_witness :
  let values := [3; 1; 2; 1]%float in
  let weights := [1; 2; 3; 4]%float in
  exists r,
    Typed.weighted_median Dtype.float64 (Typed.argsort_stable Dtype.float64) values weights
    = Ret r /\
    weight_below (map float_value values) (map float_value weights) (float_value r)
    <= (1 # 2) * Qsum (map float_value weights) /\
    weight_above (map float_value values) (map float_value weights) (float_value r)
    <= (1 # 2) * Qsum (map float_value weights).
Proof.
  apply (weighted_median_balances_weight (Typed.argsort_stable Dtype.float64)
           [3; 1; 2; 1]%float [1; 2; 3; 4]%float).
  - discriminate.
  - reflexivity.
  - repeat constructor.
  - repeat constructor.
  - apply typed_is_argsortb_sound. vm_compute. reflexivity.
  - apply no_roundingb_sound. vm_compute. reflexivity.
Defined.

Lemma weight_up_to_pairs_includes (pairs : list (Q * Q)) (j : nat) (v w x : Q) :
  Forall (fun vw => 0 <= snd vw) pairs ->
  nth_error pairs j = Some (v, w) ->
  (v <= x -> w <= weight_up_to_pairs pairs x) /\
  (x < v -> weight_up_to_pairs pairs x + w <= Qsum (map snd pairs)).
Proof.
  intros Hpos. revert j. induction Hpos as [|[v0 w0] pairs Hw0 Hpos IH]; intros j Hj.
  - destruct j; discriminate.
  - simpl in Hw0. rewrite weight_up_to_pairs_cons. simpl map. simpl Qsum.
    pose proof (weight_up_to_pairs_nonneg pairs x Hpos) as Hnn.
    assert (weight_up_to_pairs pairs x <= Qsum (map snd pairs)) as Hle.
    { clear -Hpos. induction Hpos as [|[a b] l Hb _ IHl]; [apply Qle_refl|].
      rewrite weight_up_to_pairs_cons. simpl in *. destruct (Qle_bool a x); lra. }
    destruct j as [|j].
    + injection Hj as -> ->. split; intros Hv.
      * apply Qle_bool_iff in Hv. rewrite Hv. lra.
      * destruct (Qle_bool v x) eqn:E; [apply Qle_bool_iff in E; lra|lra].
    + destruct (IH j Hj) as (Ha & Hb). split; intros Hv.
      * specialize (Ha Hv). destruct (Qle_bool v0 x); lra.
      * specialize (Hb Hv). destruct (Qle_bool v0 x); lra.
Qed.

Lemma nth_error_combine (values weights : list Q) (j : nat) :
  length weights = length values -> (j < length values)%nat ->
  nth_error (combine values weights) j = Some (nth j values 0, nth j weights 0).
Proof.
  revert weights j. induction values as [|v values IH]; intros [|w weights] j Hlen Hj;
    simpl in *; try lia.
  destruct j as [|j]; [reflexivity|]. apply IH; lia.
Qed.

(** In exact arithmetic an item that carries more than half of the total
    weight decides the result. *)
Lemma exact_dominant_item
    (argsort : list Q -> list nat) (values weights : list Q) (j : nat) :
  length weights = length values ->
  Forall (fun w => 0 <= w) weights ->
  is_argsort values (argsort values) ->
  (j < length values)%nat ->
  (1 # 2) * Qsum weights < nth j weights 0 ->
  exists r,
    weighted_median argsort values weights = Ret r /\ r == nth j values 0.
Proof.
  intros Hlen Hpos Hsort Hj Hdom.
  assert (values <> []) as Hne by (apply nonempty_length; lia).
  destruct (weighted_median_is_weighted_median argsort values weights Hne Hlen Hpos Hsort)
    as (r & Hres & Hin & Hreach & Hleast).
  exists r. split; [exact Hres|].
  assert (Forall (fun vw => 0 <= snd vw) (combine values weights)) as Hppos.
  { apply Forall_forall. intros [v w] Hvw. simpl.
    rewrite Forall_forall in Hpos. apply Hpos. apply (in_combine_r _ _ _ _ Hvw). }
  pose proof (nth_error_combine values weights j Hlen Hj) as Hnth.
  destruct (Q_dec r (nth j values 0)) as [[Hlt|Hgt]|Heq]; [| |exact Heq]; exfalso.
  - destruct (weight_up_to_pairs_includes _ j _ _ r Hppos Hnth) as (_ & Hb).
    specialize (Hb Hlt). rewrite (map_snd_combine values weights Hlen) in Hb.
    unfold weight_up_to in Hreach. lra.
  - destruct (weight_up_to_pairs_includes _ j _ _ (nth j values 0) Hppos Hnth) as (Ha & _).
    specialize (Ha (Qle_refl _)).
    specialize (Hleast (nth j values 0) (nth_In values 0 Hj) Hgt).
    unfold weight_up_to in Hleast. lra.
Qed.

(** With non-negative weights and no rounding, an item that carries more
    than half of the total weight decides the result: the weighted median
    is its value. *)
Theorem weighted_median_dominant_item
    (argsort : list float -> list nat) (values weights : list float) (j : nat) :
  length weights = length values ->
  no_nan values ->
  Forall float64_nonneg weights ->
  Typed.is_argsort Dtype.float64 values (argsort values) ->
  no_rounding (Typed.sorted_by Dtype.float64 (argsort values) weights) ->
  (j < length values)%nat ->
  (1 # 2) * Qsum (map float_value weights) < float_value (nth j weights PrimFloat.zero) ->
  exists r,
    Typed.weighted_median Dtype.float64 argsort values weights = Ret r /\
    float_value r == float_value (nth j values PrimFloat.zero).
Proof.
  intros Hlen Hnan Hpos Hsort Hexact Hj Hdom.
  assert (values <> []) as Hne by (apply nonempty_length; lia).
  destruct (float64_run_exact argsort values weights Hne Hlen Hnan Hpos Hsort Hexact)
    as (Hqsort & Hqpos & _ & _ & Hrun & Hqrun).
  destruct (exact_dominant_item (fun _ => argsort values)
              (map float_value values) (map float_value weights) j)
    as (r' & Hres & Heq).
  - rewrite !length_map. exact Hlen.
  - exact Hqpos.
  - exact Hqsort.
  - rewrite length_map. exact Hj.
  - rewrite nth_float_value. exact Hdom.
  - rewrite Hres in Hqrun. injection Hqrun as ->.
    eexists. split; [exact Hrun|]. rewrite Heq, nth_float_value. reflexivity.
Qed.

Lemma weighted_median_dominant_item_witness :
  exists r,
    Typed.weighted_median Dtype.float64 (Typed.argsort_stable Dtype.float64)
      [3; 1; 2; 1]%float [6; 2; 1; 1]%float = Ret r /\
    float_value r == float_value (nth 0 [3; 1; 2; 1]%float PrimFloat.zero).
Proof.
  apply (weighted_median_dominant_item (Typed.argsort_stable Dtype.float64)
           [3; 1; 2; 1]%float [6; 2; 1; 1]%float 0).
  - reflexivity.
  - repeat constructor.
  - repeat constructor.
  - apply typed_is_argsortb_sound. vm_compute. reflexivity.
  - apply no_roundingb_sound. vm_compute. reflexivity.
  - simpl. lia.
  - vm_compute. reflexivity.
Defined.

(** * Further properties of the weighted medians of a comparison *)

(** Over a comparison with no key both functions raise IndexError, whatever
    the two embeddings hold. *)
Theorem compute_weighted_median_similarities_empty_mapping
    (argsort : list Q -> list nat) (comparison : EmbeddingComparison) :
  is_argsort [] (argsort []) ->
  (neighborhoods_similarities comparison = [] ->
   compute_weighted_median_similarity argsort comparison = Raise IndexError) /\
  (neighborhoods_ordered_similarities comparison = [] ->
   compute_weighted_median_ordered_similarity argsort comparison = Raise IndexError).
Proof.
  destruct comparison as [[emb1 emb2] plain ordered].
  unfold compute_weighted_median_similarity, compute_weighted_median_ordered_similarity,
    neighborhoods_similarities_values, neighborhoods_ordered_similarities_values.
  cbn [embeddings neighborhoods_similarities neighborhoods_ordered_similarities].
  intros Hsort. split; intros ->; rewrite weighted_median_of_mapping_weights;
    apply weighted_median_empty_values_any; exact Hsort.
Qed.

Lemma compute_weighted_median_similarities_empty_mapping_witness :
  compute_weighted_median_ordered_similarity argsort_stable
    {| embeddings := ({| frequencies := Some [("a"%string, 1 # 2)] |},
                      {| frequencies := None |});
       neighborhoods_similarities := [("a"%string, 1)];
       neighborhoods_ordered_similarities := [] |} = Raise IndexError.
Proof.
  apply (compute_weighted_median_similarities_empty_mapping argsort_stable
           {| embeddings := ({| frequencies := Some [("a"%string, 1 # 2)] |},
                             {| frequencies := None |});
              neighborhoods_similarities := [("a"%string, 1)];
              neighborhoods_ordered_similarities := [] |}).
  - apply is_argsortb_sound. reflexivity.
  - reflexivity.
Defined.

Lemma Qplus_comm_eq (a b : Q) : (a + b)%Q = (b + a)%Q.
Proof.
  unfold Qplus. f_equal; [apply Z.add_comm|apply Pos.mul_comm].
Qed.

(** The two embeddings play the same part: exchanging them changes neither
    weighted median. *)
Theorem compute_weighted_median_similarities_symmetric
    (argsort : list Q -> list nat) (emb1 emb2 : Embedding)
    (plain ordered : list (string * Q)) :
  compute_weighted_median_similarity argsort
    {| embeddings := (emb2, emb1);
       neighborhoods_similarities := plain;
       neighborhoods_ordered_similarities := ordered |} =
  compute_weighted_median_similarity argsort
    {| embeddings := (emb1, emb2);
       neighborhoods_similarities := plain;
       neighborhoods_ordered_similarities := ordered |} /\
  compute_weighted_median_ordered_similarity argsort
    {| embeddings := (emb2, emb1);
       neighborhoods_similarities := plain;
       neighborhoods_ordered_similarities := ordered |} =
  compute_weighted_median_ordered_similarity argsort
    {| embeddings := (emb1, emb2);
       neighborhoods_similarities := plain;
       neighborhoods_ordered_similarities := ordered |}.
Proof.
  unfold compute_weighted_median_similarity, compute_weighted_median_ordered_similarity.
  cbn [embeddings neighborhoods_similarities neighborhoods_ordered_similarities].
  rewrite !weighted_median_of_mapping_weights.
  assert (forall mapping,
             mean_frequency_weights emb2 emb1 mapping =
             mean_frequency_weights emb1 emb2 mapping) as Hsym.
  { intros mapping. unfold mean_frequency_weights. apply map_ext.
    intros kv. rewrite Qplus_comm_eq. reflexivity. }
  rewrite !Hsym. split; reflexivity.
Qed.

(** * Further properties of AdvancedParameters *)

Lemma setattr_each_dictionary (kwargs : list (string * pyval)) :
  (forall key, In key (map fst kwargs) -> ~ In key refused_keywords) ->
  forall self, AdvancedParameters.setattr_each self kwargs = Ret (rev kwargs ++ self).
Proof.
  induction kwargs as [|[k v] kwargs IH]; intros Hok self; [reflexivity|].
  cbn [AdvancedParameters.setattr_each]. unfold AdvancedParameters.setattr.
  assert (~ In k refused_keywords) as Hk by (apply Hok; left; reflexivity).
  assert (String.eqb k "__class__" = false) as E1
    by (apply String.eqb_neq; intros ->; apply Hk; simpl; auto).
  assert (String.eqb k "__dict__" = false) as E2
    by (apply String.eqb_neq; intros ->; apply Hk; simpl; auto).
  assert (String.eqb k "__weakref__" = false) as E3
    by (apply String.eqb_neq; intros ->; apply Hk; simpl; auto).
  rewrite E1, E2, E3. cbn [orb bind]. rewrite IH.
  - cbn [rev]. rewrite <- app_assoc. reflexivity.
  - intros key Hkey. apply Hok. right. exact Hkey.
Qed.

Lemma init_dictionary (kwargs : list (string * pyval)) :
  (forall key, In key (map fst kwargs) -> ~ In key refused_keywords) ->
  AdvancedParameters.init kwargs = Ret (rev kwargs).
Proof.
  intros Hok. unfold AdvancedParameters.init.
  destruct (existsb (String.eqb "self") (map fst kwargs)) eqn:E.
  - exfalso. apply existsb_exists in E. destruct E as (key & Hin & Heq).
    apply String.eqb_eq in Heq. subst key. apply (Hok _ Hin). simpl. auto.
  - rewrite setattr_each_dictionary by exact Hok. rewrite app_nil_r. reflexivity.
Qed.

(** A refused keyword makes the constructor raise. *)
Lemma init_refused_keyword (kwargs : list (string * pyval)) (key : string) :
  In key (map fst kwargs) -> In key refused_keywords ->
  exists e, AdvancedParameters.init kwargs = Raise e.
Proof.
  intros Hin Hrefused. unfold AdvancedParameters.init.
  destruct (existsb (String.eqb "self") (map fst kwargs)) eqn:E; [eexists; reflexivity|].
  assert (key <> "self"%string) as Hself.
  { intros ->. rewrite <- not_true_iff_false in E. apply E.
    apply existsb_exists. exists "self"%string. split; [exact Hin|reflexivity]. }
  clear E. generalize (@nil (string * pyval)) as self.
  induction kwargs as [|[k v] kwargs IH]; intros self; [destruct Hin|].
  cbn [AdvancedParameters.setattr_each]. unfold AdvancedParameters.setattr.
  destruct (String.eqb k "__class__" || String.eqb k "__dict__") eqn:E1;
    [eexists; reflexivity|].
  destruct (String.eqb k "__weakref__") eqn:E2; [eexists; reflexivity|].
  cbn [bind]. apply IH. destruct Hin as [Hk|Hin]; [|exact Hin].
  exfalso. simpl in Hk. subst k. apply orb_false_elim in E1. destruct E1 as [Ea Eb].
  apply String.eqb_neq in Ea, Eb, E2.
  simpl in Hrefused. intuition congruence.
Qed.

Lemma lookup_present {V : Type} (table : list (string * V)) (key : string) (v : V) :
  NoDup (map fst table) -> In (key, v) table -> lookup key table = Some v.
Proof.
  induction table as [|[k0 v0] table IH]; intros Hnd Hin; [destruct Hin|].
  simpl in Hnd. inversion Hnd as [|? ? Hnot Hnd']; subst. simpl.
  destruct Hin as [Heq|Hin].
  - injection Heq as -> ->. rewrite String.eqb_refl. reflexivity.
  - destruct (String.eqb key k0) eqn:E.
    + apply String.eqb_eq in E. subst k0. exfalso. apply Hnot.
      apply (in_map fst) in Hin. exact Hin.
    + apply IH; assumption.
Qed.

Lemma lookup_absent {V : Type} (table : list (string * V)) (key : string) :
  ~ In key (map fst table) -> lookup key table = None.
Proof.
  induction table as [|[k0 v0] table IH]; intros Hnot; [reflexivity|].
  simpl in *. destruct (String.eqb key k0) eqn:E.
  - apply String.eqb_eq in E. subst k0. exfalso. apply Hnot. left. reflexivity.
  - apply IH. intros Hin. apply Hnot. right. exact Hin.
Qed.

(** Every keyword given to the constructor, but for the four names that it
    refuses, reads back as an attribute with the value given, be it one of
    the three parameters or any other name. *)
Theorem advanced_parameters_keywords_read_back
    (kwargs : list (string * pyval)) :
  NoDup (map fst kwargs) ->
  (forall key, In key (map fst kwargs) -> ~ In key refused_keywords) ->
  exists self,
    AdvancedParameters.init kwargs = Ret self /\
    forall key value, In (key, value) kwargs ->
                      AdvancedParameters.getattr self key = Some value.
Proof.
  intros Hnd Hok. exists (rev kwargs). split; [apply init_dictionary; exact Hok|].
  intros key value Hin. unfold AdvancedParameters.getattr.
  rewrite (lookup_present (rev kwargs) key value); [reflexivity| |].
  - rewrite map_rev. apply NoDup_rev. exact Hnd.
  - apply in_rev in Hin. exact Hin.
Qed.

Lemma advanced_parameters_keywords_read_back_witness :
  exists self,
    AdvancedParameters.init
      [("max_emb_size"%string, PyInt 500); ("sample"%string, PyFloat (1 # 2))] = Ret self /\
    forall key value,
      In (key, value) [("max_emb_size"%string, PyInt 500); ("sample"%string, PyFloat (1 # 2))] ->
      AdvancedParameters.getattr self key = Some value.
Proof.
  apply (advanced_parameters_keywords_read_back
           [("max_emb_size"%string, PyInt 500); ("sample"%string, PyFloat (1 # 2))]).
  - repeat constructor; simpl; intuition discriminate.
  - simpl. intuition (subst; discriminate).
Defined.

(** One of the three parameters that is not among the keywords reads the
    class attribute: 25 neighbors, a maximum size of 10000 and a minimum
    frequency of 0 are the defaults. *)
Theorem advanced_parameters_defaults
    (kwargs : list (string * pyval)) :
  (forall key, In key (map fst kwargs) -> ~ In key refused_keywords) ->
  exists self,
    AdvancedParameters.init kwargs = Ret self /\
    (~ In "n_neighbors"%string (map fst kwargs) ->
     AdvancedParameters.getattr self "n_neighbors" = Some (PyInt 25)) /\
    (~ In "max_emb_size"%string (map fst kwargs) ->
     AdvancedParameters.getattr self "max_emb_size" = Some (PyInt 10000)) /\
    (~ In "min_frequency"%string (map fst kwargs) ->
     AdvancedParameters.getattr self "min_frequency" = Some (PyFloat 0)).
Proof.
  intros Hok. exists (rev kwargs). split; [apply init_dictionary; exact Hok|].
  assert (forall name, ~ In name (map fst kwargs) ->
            AdvancedParameters.getattr (rev kwargs) name =
            lookup name AdvancedParameters.class_attributes) as Hclass.
  { intros name Hnot. unfold AdvancedParameters.getattr.
    rewrite lookup_absent; [reflexivity|].
    rewrite map_rev. intros Hin. apply in_rev in Hin. exact (Hnot Hin). }
  split; [|split]; intros Hnot; rewrite (Hclass _ Hnot); reflexivity.
Qed.

Lemma advanced_parameters_defaults_witness :
  exists self,
    AdvancedParameters.init [("max_emb_size"%string, PyInt 500)] = Ret self /\
    (~ In "n_neighbors"%string (map fst [("max_emb_size"%string, PyInt 500)]) ->
     AdvancedParameters.getattr self "n_neighbors" = Some (PyInt 25)) /\
    (~ In "max_emb_size"%string (map fst [("max_emb_size"%string, PyInt 500)]) ->
     AdvancedParameters.getattr self "max_emb_size" = Some (PyInt 10000)) /\
    (~ In "min_frequency"%string (map fst [("max_emb_size"%string, PyInt 500)]) ->
     AdvancedParameters.getattr self "min_frequency" = Some (PyFloat 0)).
Proof.
  apply (advanced_parameters_defaults [("max_emb_size"%string, PyInt 500)]).
  simpl. intuition (subst; discriminate).
Defined.

(** * Properties of display_neighborhoods_elements_comparison *)

(** ** Dicts *)

Lemma lookup_some_in {V : Type} (d : list (string * V)) (key : string) :
  (exists v, lookup key d = Some v) <-> In key (keys d).
Proof.
  unfold keys. induction d as [|[k v] d IH]; simpl.
  - split; [intros (v & H); discriminate|intros []].
  - destruct (String.eqb key k) eqn:E.
    + apply String.eqb_eq in E. subst k. split; [intros _; left; reflexivity|].
      intros _. exists v. reflexivity.
    + apply String.eqb_neq in E. rewrite IH. split; [intros H; right; exact H|].
      intros [H|H]; [congruence|exact H].
Qed.

Lemma contains_in {V : Type} (d : Py.pydict V) (key : string) :
  Py.contains d key = true <-> In key (keys d).
Proof.
  rewrite <- lookup_some_in. unfold Py.contains.
  destruct (lookup key d) as [v|]; split; intros H; try reflexivity; try discriminate.
  - exists v. reflexivity.
  - destruct H as (v & H). discriminate.
Qed.

Lemma contains_not_in {V : Type} (d : Py.pydict V) (key : string) :
  Py.contains d key = false <-> ~ In key (keys d).
Proof.
  rewrite <- contains_in. destruct (Py.contains d key); split; intros H.
  - discriminate.
  - exfalso. apply H. reflexivity.
  - discriminate.
  - reflexivity.
Qed.

Lemma setitem_new {V : Type} (d : Py.pydict V) (key : string) (value : V) :
  ~ In key (keys d) -> Py.setitem d key value = d ++ [(key, value)].
Proof.
  unfold keys. induction d as [|[k v] d IH]; intros Hnot; simpl; [reflexivity|].
  simpl in Hnot. destruct (String.eqb key k) eqn:E.
  - apply String.eqb_eq in E. subst k. exfalso. apply Hnot. left. reflexivity.
  - rewrite IH; [reflexivity|]. intros H. apply Hnot. right. exact H.
Qed.

Lemma setitem_keys_present {V : Type} (d : Py.pydict V) (key : string) (value : V) :
  In key (keys d) -> keys (Py.setitem d key value) = keys d.
Proof.
  unfold keys. induction d as [|[k v] d IH]; intros Hin; simpl; [destruct Hin|].
  destruct (String.eqb key k) eqn:E; [reflexivity|].
  simpl. f_equal. apply IH. destruct Hin as [H|H]; [|exact H].
  apply String.eqb_neq in E. simpl in H. congruence.
Qed.

Lemma setitem_keys {V : Type} (d : Py.pydict V) (key : string) (value : V) :
  keys (Py.setitem d key value) =
  if Py.contains d key then keys d else keys d ++ [key].
Proof.
  destruct (Py.contains d key) eqn:E.
  - apply setitem_keys_present. apply contains_in. exact E.
  - apply contains_not_in in E. rewrite (setitem_new d key value E).
    unfold keys. rewrite map_app. reflexivity.
Qed.

Lemma comprehension_from {V : Type} (pairs : list (string * V)) :
  forall d : Py.pydict V,
    NoDup (keys d) ->
    NoDup (keys (fold_left (fun d kv => Py.setitem d (fst kv) (snd kv)) pairs d)) /\
    forall key,
      In key (keys (fold_left (fun d kv => Py.setitem d (fst kv) (snd kv)) pairs d)) <->
      In key (keys d) \/ In key (keys pairs).
Proof.
  induction pairs as [|[k v] pairs IH]; intros d Hnd; simpl.
  - split; [exact Hnd|]. intros key.
    change (keys (@nil (string * V))) with (@nil string). simpl. tauto.
  - assert (NoDup (keys (Py.setitem d k v))) as Hnd'.
    { rewrite setitem_keys. destruct (Py.contains d k) eqn:E; [exact Hnd|].
      apply contains_not_in in E.
      apply NoDup_app; [exact Hnd|repeat constructor; intros []|].
      intros x Hx [<-|[]]. exact (E Hx). }
    destruct (IH (Py.setitem d k v) Hnd') as (Hres & Hkeys).
    split; [exact Hres|]. intros key. rewrite Hkeys, setitem_keys.
    change (keys ((k, v) :: pairs)) with (k :: keys pairs). simpl.
    destruct (Py.contains d k) eqn:E.
    + apply contains_in in E. split; [intros [H|H]; auto|].
      intros [H|[<-|H]]; auto.
    + rewrite in_app_iff. simpl. split.
      * intros [[H|[<-|[]]]|H]; auto.
      * intros [H|[<-|H]]; auto.
Qed.

(** A dict built from a list holds each key of the list once. *)
Lemma comprehension_keys {V : Type} (pairs : list (string * V)) :
  NoDup (keys (Py.comprehension pairs)) /\
  forall key, In key (keys (Py.comprehension pairs)) <-> In key (keys pairs).
Proof.
  destruct (comprehension_from pairs []) as (Hnd & Hkeys); [constructor|].
  split; [exact Hnd|]. intros key. unfold Py.comprehension. rewrite Hkeys.
  simpl. tauto.
Qed.

Lemma comprehension_from_distinct {V : Type} (pairs : list (string * V)) :
  forall d : Py.pydict V,
    NoDup (keys (d ++ pairs)) ->
    fold_left (fun d kv => Py.setitem d (fst kv) (snd kv)) pairs d = d ++ pairs.
Proof.
  induction pairs as [|[k v] pairs IH]; intros d Hnd; simpl.
  - rewrite app_nil_r. reflexivity.
  - assert (~ In k (keys d)) as Hnot.
    { unfold keys in *. rewrite map_app in Hnd. simpl in Hnd.
      apply NoDup_remove_2 in Hnd. intros H. apply Hnd. apply in_or_app. left. exact H. }
    rewrite (setitem_new d k v Hnot), IH; rewrite <- app_assoc; [reflexivity|exact Hnd].
Qed.

(** Built from a list of distinct keys, the dict is the list. *)
Lemma comprehension_distinct {V : Type} (pairs : list (string * V)) :
  NoDup (keys pairs) -> Py.comprehension pairs = pairs.
Proof.
  intros Hnd. unfold Py.comprehension.
  apply (comprehension_from_distinct pairs []). exact Hnd.
Qed.

Lemma enumerate_keys {V : Type} (d : Py.pydict V) :
  map snd (Py.enumerate d) = keys d.
Proof.
  unfold Py.enumerate, keys.
  assert (forall (l : list string) (start : nat),
             map snd (combine (seq start (length l)) l) = l) as H.
  { induction l as [|x l IH]; intros start; simpl; [reflexivity|]. rewrite IH. reflexivity. }
  rewrite <- (length_map fst d). apply H.
Qed.

Lemma map_filter_snd {A B : Type} (f : B -> bool) (l : list (A * B)) :
  map snd (filter (fun ab => f (snd ab)) l) = filter f (map snd l).
Proof.
  induction l as [|[a b] l IH]; simpl; [reflexivity|].
  destruct (f b); simpl; rewrite IH; reflexivity.
Qed.

Lemma NoDup_filter {A : Type} (f : A -> bool) (l : list A) :
  NoDup l -> NoDup (filter f l).
Proof.
  induction 1 as [|x l Hx _ IH]; simpl; [constructor|].
  destruct (f x); [|exact IH]. constructor; [|exact IH].
  intros H. apply filter_In in H. exact (Hx (proj1 H)).
Qed.

(** The keys kept by a filtering dict comprehension over [enumerate]. *)
Lemma filtered_enumeration_keys {V : Type} (d : Py.pydict V) (f : string -> bool) :
  NoDup (keys d) ->
  keys (Py.comprehension
          (map (fun ik : nat * string => (snd ik, fst ik))
             (filter (fun ik => f (snd ik)) (Py.enumerate d)))) =
  filter f (keys d).
Proof.
  intros Hnd.
  assert (keys (map (fun ik : nat * string => (snd ik, fst ik))
                  (filter (fun ik => f (snd ik)) (Py.enumerate d))) =
          filter f (keys d)) as Hkeys.
  { rewrite <- (enumerate_keys d), <- (map_filter_snd f (Py.enumerate d)).
    unfold keys. rewrite map_map. apply map_ext. intros ik. reflexivity. }
  rewrite comprehension_distinct; [exact Hkeys|].
  rewrite Hkeys. apply NoDup_filter. exact Hnd.
Qed.

Lemma common_neighbors_keys (neighbors1 neighbors2 : Py.pydict Q) :
  NoDup (keys neighbors1) ->
  keys (Display.common_neighbors neighbors1 neighbors2) =
  filter (Py.contains neighbors2) (keys neighbors1).
Proof.
  intros Hnd. unfold Display.common_neighbors.
  apply (filtered_enumeration_keys neighbors1 (Py.contains neighbors2) Hnd).
Qed.

Lemma only_neighbors_keys (neighbors : Py.pydict Q) (common : Py.pydict nat) :
  NoDup (keys neighbors) ->
  keys (Display.only_neighbors neighbors common) =
  filter (fun k => negb (Py.contains common k)) (keys neighbors).
Proof.
  intros Hnd. unfold Display.only_neighbors.
  apply (filtered_enumeration_keys neighbors (fun k => negb (Py.contains common k)) Hnd).
Qed.

(** ** Common and distinct neighbors *)

Lemma neighbors_are_split_facts (neighborhood_1 neighborhood_2 : list (string * Q)) :
  let neighbors1 := Py.comprehension neighborhood_1 in
  let neighbors2 := Py.comprehension neighborhood_2 in
  let common := Display.common_neighbors neighbors1 neighbors2 in
  let only1 := Display.only_neighbors neighbors1 common in
  let only2 := Display.only_neighbors neighbors2 common in
  (forall k, In k (keys common) <->
             In k (keys neighborhood_1) /\ In k (keys neighborhood_2)) /\
  (forall k, In k (keys only1) <->
             In k (keys neighborhood_1) /\ ~ In k (keys neighborhood_2)) /\
  (forall k, In k (keys only2) <->
             In k (keys neighborhood_2) /\ ~ In k (keys neighborhood_1)) /\
  NoDup (keys common) /\ NoDup (keys only1) /\ NoDup (keys only2).
Proof.
  intros neighbors1 neighbors2 common only1 only2.
  destruct (comprehension_keys neighborhood_1) as (Hnd1 & Hk1).
  destruct (comprehension_keys neighborhood_2) as (Hnd2 & Hk2).
  fold neighbors1 in Hnd1, Hk1. fold neighbors2 in Hnd2, Hk2.
  pose proof (common_neighbors_keys neighbors1 neighbors2 Hnd1) as Hc. fold common in Hc.
  pose proof (only_neighbors_keys neighbors1 common Hnd1) as Ho1. fold only1 in Ho1.
  pose proof (only_neighbors_keys neighbors2 common Hnd2) as Ho2. fold only2 in Ho2.
  assert (forall k, In k (keys common) <->
                    In k (keys neighborhood_1) /\ In k (keys neighborhood_2)) as Hcommon.
  { intros k. rewrite Hc, filter_In, contains_in, Hk1, Hk2. reflexivity. }
  split; [exact Hcommon|]. split; [|split; [|split; [|split]]].
  - intros k. rewrite Ho1, filter_In, negb_true_iff, contains_not_in, Hcommon, Hk1. tauto.
  - intros k. rewrite Ho2, filter_In, negb_true_iff, contains_not_in, Hcommon, Hk2. tauto.
  - rewrite Hc. apply NoDup_filter. exact Hnd1.
  - rewrite Ho1. apply NoDup_filter. exact Hnd1.
  - rewrite Ho2. apply NoDup_filter. exact Hnd2.
Qed.

(** The three dicts of an expander split the neighbors: the common ones are
    the keys found in both neighbor lists, the first distinct ones those of
    the first list that the second lacks, the second distinct ones those of
    the second list that the first lacks; each dict holds a key once. *)
Theorem neighbors_are_split (neighborhood_1 neighborhood_2 : list (string * Q)) :
  let neighbors1 := Py.comprehension neighborhood_1 in
  let neighbors2 := Py.comprehension neighborhood_2 in
  let common := Display.common_neighbors neighbors1 neighbors2 in
  let only1 := Display.only_neighbors neighbors1 common in
  let only2 := Display.only_neighbors neighbors2 common in
  (forall k, In k (keys common) <->
             In k (keys neighborhood_1) /\ In k (keys neighborhood_2)) /\
  (forall k, In k (keys only1) <->
             In k (keys neighborhood_1) /\ ~ In k (keys neighborhood_2)) /\
  (forall k, In k (keys only2) <->
             In k (keys neighborhood_2) /\ ~ In k (keys neighborhood_1)) /\
  NoDup (keys common) /\ NoDup (keys only1) /\ NoDup (keys only2).
Proof.
  exact (neighbors_are_split_facts neighborhood_1 neighborhood_2).
Qed.

Lemma similarities_present (d : Py.pydict Q) (names : list string) :
  (forall k, In k names -> In k (keys d)) ->
  Display.similarities d names = Py.Done (map (fun k => Display.Percent1 (Py.get d k 0)) names).
Proof.
  unfold Display.similarities.
  induction names as [|k names IH]; intros Hin; [reflexivity|].
  cbn [Py.for_each map].
  rewrite IH by (intros k' Hk'; apply Hin; right; exact Hk').
  destruct (proj2 (lookup_some_in d k) (Hin k (or_introl eq_refl))) as (v & Hv).
  assert (Py.getitem d k = Py.Done v) as ->
    by (unfold Py.getitem; rewrite Hv; reflexivity).
  assert (Py.get d k 0 = v) as ->
    by (unfold Py.get; rewrite Hv; reflexivity).
  reflexivity.
Qed.

Lemma filter_partition_length {A : Type} (f : A -> bool) (l : list A) :
  (length (filter f l) + length (filter (fun x => negb (f x)) l) = length l)%nat.
Proof.
  induction l as [|x l IH]; simpl; [reflexivity|].
  destruct (f x); simpl; lia.
Qed.

Lemma only_neighbors_size (neighbors : Py.pydict Q) (common : Py.pydict nat) :
  NoDup (keys neighbors) -> NoDup (keys common) ->
  (forall k, In k (keys common) -> In k (keys neighbors)) ->
  (length (Display.only_neighbors neighbors common) + length common = length neighbors)%nat.
Proof.
  intros Hnd Hndc Hincl.
  rewrite <- (length_map fst (Display.only_neighbors neighbors common)).
  fold (keys (Display.only_neighbors neighbors common)).
  rewrite (only_neighbors_keys neighbors common Hnd).
  rewrite <- (length_map fst neighbors). fold (keys neighbors).
  rewrite <- (filter_partition_length (Py.contains common) (keys neighbors)).
  rewrite Nat.add_comm. f_equal.
  rewrite <- (length_map fst common). fold (keys common).
  apply Permutation_length. apply NoDup_Permutation.
  - exact Hndc.
  - apply NoDup_filter. exact Hnd.
  - intros k. rewrite filter_In, contains_in. split; [|tauto].
    intros H. split; [apply Hincl; exact H|exact H].
Qed.

Lemma common_calls_done
    (emb1_labels : Py.pydict string) (neighbors1 neighbors2 : Py.pydict Q)
    (common : Py.pydict nat) :
  (forall k, In k (keys common) -> In k (keys neighbors1)) ->
  (forall k, In k (keys common) -> In k (keys neighbors2)) ->
  exists shown,
    Display.common_calls emb1_labels neighbors1 neighbors2 common = Py.Done shown /\
    (shown = [] \/ exists t, shown = [Display.Subheader "common neighbors"; Display.Table t]).
Proof.
  intros H1 H2. unfold Display.common_calls.
  rewrite (similarities_present neighbors1 _ H1), (similarities_present neighbors2 _ H2).
  destruct common as [|c common']; [exists []; split; [reflexivity|left; reflexivity]|].
  cbn [Py.and_then]. unfold Display.DataFrame, Display.labelled.
  cbn [forallb snd]. rewrite !length_map, Nat.eqb_refl. cbn [andb Py.and_then].
  eexists. split; [reflexivity|]. right. eexists. reflexivity.
Qed.

Lemma distinct_calls_outcome
    (emb1_labels emb2_labels : Py.pydict string) (neighbors1 neighbors2 : Py.pydict Q)
    (only1 only2 : Py.pydict nat) :
  (forall k, In k (keys only1) -> In k (keys neighbors1)) ->
  (forall k, In k (keys only2) -> In k (keys neighbors2)) ->
  (only1 = [] \/ length only1 = length only2 ->
   exists shown,
     Display.distinct_calls emb1_labels emb2_labels neighbors1 neighbors2 only1 only2
     = Py.Done shown) /\
  (only1 <> [] -> length only1 <> length only2 ->
   Display.distinct_calls emb1_labels emb2_labels neighbors1 neighbors2 only1 only2
   = Py.Fail (Py.Builtin ValueError)).
Proof.
  intros H1 H2. unfold Display.distinct_calls.
  rewrite (similarities_present neighbors1 _ H1), (similarities_present neighbors2 _ H2).
  destruct only1 as [|o only1']; [split; [eexists; reflexivity|congruence]|].
  cbn [Py.and_then]. unfold Display.DataFrame, Display.labelled.
  cbn [forallb snd]. unfold keys. rewrite !length_map, Nat.eqb_refl. cbn [andb].
  rewrite andb_true_r. split.
  - intros [Habs|Hlen]; [discriminate|].
    rewrite <- Hlen, Nat.eqb_refl. cbn [Py.and_then]. eexists. reflexivity.
  - intros _ Hlen.
    destruct (length only2 =? length (o :: only1'))%nat eqn:E; [|reflexivity].
    apply Nat.eqb_eq in E. congruence.
Qed.

Lemma neighbors_tables_cases
    (emb1_labels emb2_labels : Py.pydict string)
    (neighborhood_1 neighborhood_2 : list (string * Q)) :
  let neighbors1 := Py.comprehension neighborhood_1 in
  let neighbors2 := Py.comprehension neighborhood_2 in
  ((exists k, In k (keys neighborhood_1) /\ ~ In k (keys neighborhood_2)) /\
   length neighbors1 <> length neighbors2 /\
   Display.neighbors_tables emb1_labels emb2_labels neighborhood_1 neighborhood_2
   = Py.Fail (Py.Builtin ValueError)) \/
  (((forall k, In k (keys neighborhood_1) -> In k (keys neighborhood_2)) \/
    length neighbors1 = length neighbors2) /\
   exists shown,
     Display.neighbors_tables emb1_labels emb2_labels neighborhood_1 neighborhood_2
     = Py.Done shown).
Proof.
  intros neighbors1 neighbors2.
  destruct (neighbors_are_split_facts neighborhood_1 neighborhood_2)
    as (Hcommon & Honly1 & Honly2 & Hndc & _ & _).
  destruct (comprehension_keys neighborhood_1) as (Hnd1 & Hk1).
  destruct (comprehension_keys neighborhood_2) as (Hnd2 & Hk2).
  fold neighbors1 in Hnd1, Hk1, Hcommon, Honly1, Honly2, Hndc.
  fold neighbors2 in Hnd2, Hk2, Hcommon, Honly1, Honly2, Hndc.
  set (common := Display.common_neighbors neighbors1 neighbors2) in *.
  remember (Display.only_neighbors neighbors1 common) as only1 eqn:Eonly1.
  remember (Display.only_neighbors neighbors2 common) as only2 eqn:Eonly2.
  assert (forall k, In k (keys common) -> In k (keys neighbors1)) as Hc1
    by (intros k Hk; apply Hk1; apply Hcommon; exact Hk).
  assert (forall k, In k (keys common) -> In k (keys neighbors2)) as Hc2
    by (intros k Hk; apply Hk2; apply Hcommon; exact Hk).
  assert (forall k, In k (keys only1) -> In k (keys neighbors1)) as Ho1
    by (intros k Hk; apply Hk1; apply Honly1; exact Hk).
  assert (forall k, In k (keys only2) -> In k (keys neighbors2)) as Ho2
    by (intros k Hk; apply Hk2; apply Honly2; exact Hk).
  pose proof (only_neighbors_size neighbors1 common Hnd1 Hndc Hc1) as Hsize1.
  pose proof (only_neighbors_size neighbors2 common Hnd2 Hndc Hc2) as Hsize2.
  rewrite <- Eonly1 in Hsize1. rewrite <- Eonly2 in Hsize2.
  destruct (common_calls_done emb1_labels neighbors1 neighbors2 common Hc1 Hc2)
    as (shown_common & Hshown & _).
  destruct (distinct_calls_outcome emb1_labels emb2_labels neighbors1 neighbors2
              only1 only2 Ho1 Ho2) as (Hdone & Hfail).
  unfold Display.neighbors_tables. fold neighbors1 neighbors2 common.
  rewrite Hshown. cbn [Py.and_then]. rewrite <- Eonly1, <- Eonly2.
  clear Eonly1. destruct only1 as [|o only1'].
  - right. split.
    + left. intros k Hk.
      destruct (in_dec string_dec k (keys neighborhood_2)) as [Hin|Hnot]; [exact Hin|].
      exfalso. apply (proj2 (Honly1 k)). split; assumption.
    + destruct (Hdone (or_introl eq_refl)) as (shown & ->). eexists. reflexivity.
  - destruct (Nat.eq_dec (length neighbors1) (length neighbors2)) as [Heq|Hneq].
    + right. split; [right; exact Heq|].
      assert (length (o :: only1') = length only2) as Hlen.
      { rewrite <- Hsize1, <- Hsize2 in Heq. apply Nat.add_cancel_r in Heq. exact Heq. }
      destruct (Hdone (or_intror Hlen)) as (shown & ->). eexists. reflexivity.
    + left. split; [|split; [exact Hneq|]].
      * exists (fst o). apply Honly1. left. reflexivity.
      * rewrite Hfail; [reflexivity|discriminate|].
        intros Hlen. apply Hneq. rewrite <- Hsize1, <- Hsize2, Hlen. reflexivity.
Qed.

(** The tables of an expander either are all built, or the distinct
    neighbors table fails with ValueError; it fails exactly when the first
    neighbor list has a key that the second lacks and the two lists do not
    hold equally many different keys. No KeyError is ever raised. *)
Theorem neighbors_tables_outcome
    (emb1_labels emb2_labels : Py.pydict string)
    (neighborhood_1 neighborhood_2 : list (string * Q)) :
  let neighbors1 := Py.comprehension neighborhood_1 in
  let neighbors2 := Py.comprehension neighborhood_2 in
  ((exists k, In k (keys neighborhood_1) /\ ~ In k (keys neighborhood_2)) /\
   length neighbors1 <> length neighbors2 /\
   Display.neighbors_tables emb1_labels emb2_labels neighborhood_1 neighborhood_2
   = Py.Fail (Py.Builtin ValueError)) \/
  (((forall k, In k (keys neighborhood_1) -> In k (keys neighborhood_2)) \/
    length neighbors1 = length neighbors2) /\
   exists shown,
     Display.neighbors_tables emb1_labels emb2_labels neighborhood_1 neighborhood_2
     = Py.Done shown).
Proof.
  exact (neighbors_tables_cases emb1_labels emb2_labels neighborhood_1 neighborhood_2).
Qed.

(** ** The whole display *)

Lemma combine_fst_snd {A B : Type} (l : list (A * B)) :
  combine (map fst l) (map snd l) = l.
Proof.
  induction l as [|[a b] l IH]; simpl; [reflexivity|]. rewrite IH. reflexivity.
Qed.

Lemma for_each_done {A B : Type} (f : A -> Py.result B) (g : A -> B -> Prop)
    (l : list A) :
  (forall x, In x l -> exists y, f x = Py.Done y /\ g x y) ->
  exists ys, Py.for_each f l = Py.Done ys /\ Forall2 g l ys.
Proof.
  induction l as [|x l IH]; intros H.
  - exists []. split; [reflexivity|constructor].
  - destruct (H x (or_introl eq_refl)) as (y & Hy & Hg).
    destruct IH as (ys & Hys & Hall); [intros x' Hx'; apply H; right; exact Hx'|].
    exists (y :: ys). split; [|constructor; assumption].
    cbn [Py.for_each]. rewrite Hy. cbn [Py.and_then]. rewrite Hys. reflexivity.
Qed.

(** With at least one element, neighbor lists for every element key in both
    embeddings, and as many different neighbors on one side as on the other,
    the function raises nothing: it shows one expander per element, in the
    order of the elements, titled with the label of the key in the first
    embedding (the key itself when it has no label) and the similarity of
    the element. *)
Theorem display_one_expander_per_element
    (labels : EmbeddingComparison -> Py.pydict string * Py.pydict string)
    (n_neighbors : EmbeddingComparison -> nat)
    (get_neighbors : Embedding -> nat -> list string -> Py.pydict (list (string * Q)))
    (comparison : EmbeddingComparison) (elements : list (string * Q)) :
  elements <> [] ->
  (forall key, In key (keys elements) ->
     exists neighborhood_1 neighborhood_2,
       lookup key (get_neighbors (fst (embeddings comparison)) (n_neighbors comparison)
                     (keys elements)) = Some neighborhood_1 /\
       lookup key (get_neighbors (snd (embeddings comparison)) (n_neighbors comparison)
                     (keys elements)) = Some neighborhood_2 /\
       length (Py.comprehension neighborhood_1) =
       length (Py.comprehension neighborhood_2)) ->
  exists expanders,
    Display.display_neighborhoods_elements_comparison
      labels n_neighbors get_neighbors comparison elements = Py.Done expanders /\
    map Display.label expanders =
      map (fun key => Py.get (fst (labels comparison)) key key) (keys elements) /\
    map Display.similarity expanders = map snd elements.
Proof.
  intros Hne Hneighbors.
  unfold Display.display_neighborhoods_elements_comparison.
  destruct (embeddings comparison) as [emb1 emb2].
  destruct (labels comparison) as [emb1_labels emb2_labels].
  cbn [fst snd] in *.
  assert (Display.unzip_elements elements =
          Py.Done (map fst elements, map snd elements)) as ->
    by (destruct elements; [congruence|reflexivity]).
  cbn [Py.and_then]. rewrite combine_fst_snd. fold (keys elements).
  set (body := fun key_similarity : string * Q => _).
  destruct (for_each_done body
              (fun ks e => Display.label e = Py.get emb1_labels (fst ks) (fst ks) /\
                           Display.similarity e = snd ks) elements)
    as (expanders & Hdone & Hall).
  - intros [key sim] Hin. unfold body.
    destruct (Hneighbors key) as (l1 & l2 & H1 & H2 & Hlen).
    { unfold keys. apply (in_map fst) in Hin. exact Hin. }
    unfold Py.getitem. rewrite H1, H2. cbn [Py.and_then].
    destruct (neighbors_tables_cases emb1_labels emb2_labels l1 l2)
      as [(_ & Hneq & _)|(_ & shown & Hshown)]; [contradiction|].
    rewrite Hshown. cbn [Py.and_then]. eexists. split; [reflexivity|].
    split; reflexivity.
  - exists expanders. split; [exact Hdone|].
    clear Hdone Hneighbors Hne body. unfold keys. rewrite map_map.
    induction Hall as [|ks e elements' expanders' (Hl & Hs) _ (IH1 & IH2)].
    + split; reflexivity.
    + cbn [map]. rewrite Hl, Hs, IH1, IH2. split; reflexivity.
Qed.

Lemma display_one_expander_per_element_witness :
  exists expanders,
    Display.display_neighborhoods_elements_comparison
      (fun _ => ([("a"%string, "Alpha"%string)], []))
      (fun _ => 2%nat)
      (fun _ _ names => map (fun k => (k, [("x"%string, 1 # 2); ("y"%string, 1 # 4)])) names)
      {| embeddings := ({| frequencies := None |}, {| frequencies := None |});
         neighborhoods_similarities := [];
         neighborhoods_ordered_similarities := [] |}
      [("a"%string, 1 # 2); ("b"%string, 1 # 4)] = Py.Done expanders /\
    map Display.label expanders = ["Alpha"%string; "b"%string] /\
    map Display.similarity expanders = [1 # 2; 1 # 4].
Proof.
  apply (display_one_expander_per_element
           (fun _ => ([("a"%string, "Alpha"%string)], []))
           (fun _ => 2%nat)
           (fun _ _ names => map (fun k => (k, [("x"%string, 1 # 2); ("y"%string, 1 # 4)])) names)
           {| embeddings := ({| frequencies := None |}, {| frequencies := None |});
              neighborhoods_similarities := [];
              neighborhoods_ordered_similarities := [] |}
           [("a"%string, 1 # 2); ("b"%string, 1 # 4)]).
  - discriminate.
  - intros key [<-|[<-|[]]]; do 2 eexists; repeat split; reflexivity.
Defined.

(** When every neighbor of the first list is also one of the second, no
    table of distinct neighbors is shown, even where the second list has
    neighbors that the first lacks: only the common neighbors, if any,
    appear. *)
Theorem neighbors_of_second_only_not_shown
    (emb1_labels emb2_labels : Py.pydict string)
    (neighborhood_1 neighborhood_2 : list (string * Q)) :
  (forall k, In k (keys neighborhood_1) -> In k (keys neighborhood_2)) ->
  exists shown,
    Display.neighbors_tables emb1_labels emb2_labels neighborhood_1 neighborhood_2
    = Py.Done shown /\
    (shown = [] \/ exists t, shown = [Display.Subheader "common neighbors"; Display.Table t]).
Proof.
  intros Hincl.
  destruct (neighbors_are_split_facts neighborhood_1 neighborhood_2)
    as (Hcommon & Honly1 & _).
  destruct (comprehension_keys neighborhood_1) as (_ & Hk1).
  destruct (comprehension_keys neighborhood_2) as (_ & Hk2).
  set (neighbors1 := Py.comprehension neighborhood_1) in *.
  set (neighbors2 := Py.comprehension neighborhood_2) in *.
  set (common := Display.common_neighbors neighbors1 neighbors2) in *.
  destruct (common_calls_done emb1_labels neighbors1 neighbors2 common)
    as (shown_common & Hshown & Hshape).
  - intros k Hk. apply Hk1. apply Hcommon. exact Hk.
  - intros k Hk. apply Hk2. apply Hcommon. exact Hk.
  - exists shown_common. split; [|exact Hshape].
    unfold Display.neighbors_tables. fold neighbors1 neighbors2 common.
    rewrite Hshown. cbn [Py.and_then].
    assert (Display.only_neighbors neighbors1 common = []) as ->.
    { destruct (Display.only_neighbors neighbors1 common) as [|[k i] rest] eqn:E;
        [reflexivity|]. exfalso.
      destruct (proj1 (Honly1 k)) as (Hin & Hnot); [left; reflexivity|].
      exact (Hnot (Hincl k Hin)). }
    cbn [Display.distinct_calls Py.and_then]. rewrite app_nil_r. reflexivity.
Qed.

Lemma neighbors_of_second_only_not_shown_witness :
  exists shown,
    Display.neighbors_tables [] []
      [("x"%string, 1 # 2)] [("x"%string, 1 # 4); ("y"%string, 1 # 8)]
    = Py.Done shown /\
    (shown = [] \/ exists t, shown = [Display.Subheader "common neighbors"; Display.Table t]).
Proof.
  apply (neighbors_of_second_only_not_shown [] []
           [("x"%string, 1 # 2)] [("x"%string, 1 # 4); ("y"%string, 1 # 8)]).
  intros k [<-|[]]. left. reflexivity.
Defined.

(** * Properties of load_embedding *)


(** * The order of the items *)

Lemma map_fst_combine (values weights : list Q) :
  length weights = length values -> map fst (combine values weights) = values.
Proof.
  revert weights. induction values as [|v values IH]; intros [|w weights] Hlen;
    simpl in *; try lia; try reflexivity.
  f_equal. apply IH. lia.
Qed.

Lemma is_weighted_median_permutation (values weights values' weights' : list Q) (r : Q) :
  length weights = length values ->
  length weights' = length values' ->
  Permutation (combine values weights) (combine values' weights') ->
  is_weighted_median values weights r ->
  is_weighted_median values' weights' r.
Proof.
  intros Hlen Hlen' Hperm (Hin & Hreach & Hleast).
  assert (Permutation values values') as Hv.
  { rewrite <- (map_fst_combine values weights Hlen),
      <- (map_fst_combine values' weights' Hlen').
    apply Permutation_map. exact Hperm. }
  assert (Qsum weights == Qsum weights') as Hw.
  { rewrite <- (map_snd_combine values weights Hlen),
      <- (map_snd_combine values' weights' Hlen').
    apply Qsum_permutation. apply Permutation_map. exact Hperm. }
  assert (forall x, weight_up_to values weights x == weight_up_to values' weights' x) as Hup
    by (intros x; apply weight_up_to_pairs_permutation; exact Hperm).
  split; [apply (Permutation_in _ Hv); exact Hin|]. split.
  - rewrite <- Hw, <- Hup. exact Hreach.
  - intros y Hy Hlt. rewrite <- Hw, <- Hup. apply Hleast; [|exact Hlt].
    apply (Permutation_in _ (Permutation_sym Hv)). exact Hy.
Qed.

(** The order in which the items are given does not matter: two float64
    inputs that hold the same (value, weight) pairs, in whatever order, have
    weighted medians of the same value when the weights are non-negative
    and neither run meets any rounding. *)
Theorem weighted_median_order_of_items
    (argsort : list float -> list nat) (values weights values' weights' : list float) :
  values <> [] ->
  length weights = length values ->
  length weights' = length values' ->
  no_nan values ->
  Forall float64_nonneg weights ->
  Permutation (combine values weights) (combine values' weights') ->
  Typed.is_argsort Dtype.float64 values (argsort values) ->
  Typed.is_argsort Dtype.float64 values' (argsort values') ->
  no_rounding (Typed.sorted_by Dtype.float64 (argsort values) weights) ->
  no_rounding (Typed.sorted_by Dtype.float64 (argsort values') weights') ->
  exists r r',
    Typed.weighted_median Dtype.float64 argsort values weights = Ret r /\
    Typed.weighted_median Dtype.float64 argsort values' weights' = Ret r' /\
    float_value r == float_value r'.
Proof.
  intros Hne Hlen Hlen' Hnan Hpos Hperm Hsort Hsort' Hexact Hexact'.
  assert (Permutation values values') as Hv.
  { assert (forall (a b : list float), length b = length a -> map fst (combine a b) = a) as Hfst.
    { induction a as [|x a IH]; intros [|y b] H; simpl in *; try lia; try reflexivity.
      f_equal. apply IH. lia. }
    rewrite <- (Hfst values weights Hlen), <- (Hfst values' weights' Hlen').
    apply Permutation_map. exact Hperm. }
  assert (Permutation weights weights') as Hw.
  { assert (forall (a b : list float), length b = length a -> map snd (combine a b) = b) as Hsnd.
    { induction a as [|x a IH]; intros [|y b] H; simpl in *; try lia; try reflexivity.
      f_equal. apply IH. lia. }
    rewrite <- (Hsnd values weights Hlen), <- (Hsnd values' weights' Hlen').
    apply Permutation_map. exact Hperm. }
  assert (values' <> []) as Hne'.
  { apply nonempty_length. apply nonempty_length in Hne.
    rewrite <- (Permutation_length Hv). exact Hne. }
  assert (no_nan values') as Hnan'
    by exact (@Permutation_Forall _ _ values values' Hv Hnan).
  assert (Forall float64_nonneg weights') as Hpos'
    by exact (@Permutation_Forall _ _ weights weights' Hw Hpos).
  destruct (float64_is_weighted_median argsort values weights Hne Hlen Hnan Hpos Hsort Hexact)
    as (r & Hrun & _ & _ & Hmed).
  destruct (float64_is_weighted_median argsort values' weights' Hne' Hlen' Hnan' Hpos' Hsort'
              Hexact') as (r' & Hrun' & _ & _ & Hmed').
  exists r, r'. split; [exact Hrun|]. split; [exact Hrun'|].
  apply (is_weighted_median_unique (map float_value values') (map float_value weights'));
    [|exact Hmed'].
  apply (is_weighted_median_permutation (map float_value values) (map float_value weights));
    [rewrite !length_map; exact Hlen|rewrite !length_map; exact Hlen'| |exact Hmed].
  rewrite !combine_float_value. apply Permutation_map. exact Hperm.
Qed.

Lemma weighted_median_order_of_items_witness :
  exists r r',
    Typed.weighted_median Dtype.float64 (Typed.argsort_stable Dtype.float64)
      [3; 1; 2; 1]%float [1; 2; 3; 4]%float = Ret r /\
    Typed.weighted_median Dtype.float64 (Typed.argsort_stable Dtype.float64)
      [1; 1; 2; 3]%float [4; 2; 3; 1]%float = Ret r' /\
    float_value r == float_value r'.
Proof.
  apply (weighted_median_order_of_items (Typed.argsort_stable Dtype.float64)
           [3; 1; 2; 1]%float [1; 2; 3; 4]%float [1; 1; 2; 3]%float [4; 2; 3; 1]%float).
  - discriminate.
  - reflexivity.
  - reflexivity.
  - repeat constructor.
  - repeat constructor.
  - simpl.
    apply perm_trans with ((1, 2) :: (3, 1) :: (2, 3) :: (1, 4) :: nil)%float; [apply perm_swap|].
    apply perm_trans with ((1, 2) :: (3, 1) :: (1, 4) :: (2, 3) :: nil)%float;
      [do 2 apply perm_skip; apply perm_swap|].
    apply perm_trans with ((1, 2) :: (1, 4) :: (3, 1) :: (2, 3) :: nil)%float;
      [apply perm_skip; apply perm_swap|].
    apply perm_trans with ((1, 4) :: (1, 2) :: (3, 1) :: (2, 3) :: nil)%float; [apply perm_swap|].
    do 2 apply perm_skip. apply perm_swap.
  - apply typed_is_argsortb_sound. vm_compute. reflexivity.
  - apply typed_is_argsortb_sound. vm_compute. reflexivity.
  - apply no_roundingb_sound. vm_compute. reflexivity.
  - apply no_roundingb_sound. vm_compute. reflexivity.
Defined.
